(** * Cretaceous Hold'em: the hand state machine and the side-pot calculator

    A shallow embedding of [src/game-state.ts], [src/side-pots.ts],
    [src/deck.ts] and the action gate of [party/server.ts].

    Conventions of the embedding:
    - a JavaScript [number] holding a chip count or a seat index is a [Z]
      (seat indices may be [-1]); [%] is [Z.rem], [Math.floor(a / n)] is
      [Z.div] (n > 0);
    - an array is a [list]; reading [a[i]] is [lookupZ], which is [None]
      where JavaScript yields [undefined];
    - a function that can throw (a property read on [undefined], or
      [dealCards] on a short deck) returns [option]: [None] is the
      exception;
    - [Math.random] is made explicit: [startNewHand] receives the deck that
      [createShuffledDeck()] produced;
    - a [Map] is a [gmap]. *)

From Stdlib Require Import ZArith Lia Permutation.
From stdpp Require Import gmap strings list fin_maps sorting.

Local Open Scope Z_scope.

(** ** types.ts *)

Inductive GamePhase := lobby | preflop | flop | turn | river | showdown.

Inductive Suit := spades | hearts | diamonds | clubs.

(** [Rank] is the numeric literal type [2 | ... | 14]. *)
Definition Rank := Z.

Record Card := mkCard { rank : Rank; suit : Suit }.

Inductive ActionType := fold | check | call | raise | all_in.

Module PlayerAction.
Record t := mk { type : ActionType; amount : option Z }.
End PlayerAction.

Module Player.
Record t := mk {
  id : string;
  name : string;
  chips : Z;
  holeCards : list Card;
  currentBet : Z;
  totalBetThisHand : Z;
  folded : bool;
  allIn : bool;
  isDealer : bool;
  sessionToken : string
}.

(** The object spreads [{ ...p, field: v }] and field assignments. *)
Definition set_chips (v : Z) (p : t) : t :=
  mk (id p) (name p) v (holeCards p) (currentBet p) (totalBetThisHand p)
     (folded p) (allIn p) (isDealer p) (sessionToken p).
Definition set_holeCards (v : list Card) (p : t) : t :=
  mk (id p) (name p) (chips p) v (currentBet p) (totalBetThisHand p)
     (folded p) (allIn p) (isDealer p) (sessionToken p).
Definition set_currentBet (v : Z) (p : t) : t :=
  mk (id p) (name p) (chips p) (holeCards p) v (totalBetThisHand p)
     (folded p) (allIn p) (isDealer p) (sessionToken p).
Definition set_totalBetThisHand (v : Z) (p : t) : t :=
  mk (id p) (name p) (chips p) (holeCards p) (currentBet p) v
     (folded p) (allIn p) (isDealer p) (sessionToken p).
Definition set_folded (v : bool) (p : t) : t :=
  mk (id p) (name p) (chips p) (holeCards p) (currentBet p)
     (totalBetThisHand p) v (allIn p) (isDealer p) (sessionToken p).
Definition set_allIn (v : bool) (p : t) : t :=
  mk (id p) (name p) (chips p) (holeCards p) (currentBet p)
     (totalBetThisHand p) (folded p) v (isDealer p) (sessionToken p).
Definition set_isDealer (v : bool) (p : t) : t :=
  mk (id p) (name p) (chips p) (holeCards p) (currentBet p)
     (totalBetThisHand p) (folded p) (allIn p) v (sessionToken p).
End Player.

Module PublicPlayer.
Record t := mk {
  id : string;
  name : string;
  chips : Z;
  currentBet : Z;
  folded : bool;
  allIn : bool;
  isDealer : bool;
  hasCards : bool
}.
End PublicPlayer.

Module LegalActions.
Record t := mk {
  canFold : bool;
  canCheck : bool;
  canCall : bool;
  callAmount : Z;
  canRaise : bool;
  minRaise : Z;
  maxRaise : Z;
  canAllIn : bool;
  allInAmount : Z
}.
End LegalActions.

Module Pot.
Record t := mk { amount : Z; eligiblePlayerIds : list string }.
End Pot.

Module GameState.
Record t := mk {
  phase : GamePhase;
  players : list Player.t;
  communityCards : list Card;
  pots : list Pot.t;
  currentBet : Z;
  dealerIndex : Z;
  activePlayerIndex : Z;
  lastRaiserIndex : Z;
  raisesThisStreet : Z;
  deck : list Card;
  smallBlind : Z;
  bigBlind : Z;
  streetBetSize : Z
}.
End GameState.

Module PublicGameState.
Record t := mk {
  phase : GamePhase;
  players : list PublicPlayer.t;
  communityCards : list Card;
  pots : list Pot.t;
  currentBet : Z;
  dealerIndex : Z;
  activePlayerIndex : Z;
  smallBlind : Z;
  bigBlind : Z
}.
End PublicGameState.

(** ** constants.ts: DEFAULT_SETTINGS *)

Module DEFAULT_SETTINGS.
Definition startingChips : Z := 20.
Definition smallBlind : Z := 1.
Definition bigBlind : Z := 2.
Definition maxRaisesPerStreet : Z := 3.
Definition minPlayers : nat := 2.
Definition maxPlayers : nat := 6.
Definition preflopFlopBetSize : Z := 1.
Definition turnRiverBetSize : Z := 2.
End DEFAULT_SETTINGS.

(** ** JavaScript array primitives *)

(** [a[i]] for a numeric [i]: [undefined] (here [None]) when [i] is negative
    or past the end. *)
Definition lookupZ {A} (l : list A) (i : Z) : option A :=
  if i <? 0 then None else l !! Z.to_nat i.

(** [a.findIndex(pred)]: the first index whose element satisfies [pred],
    or [-1]. *)
Fixpoint findIndex {A} (pred : A → bool) (l : list A) : Z :=
  match l with
  | [] => -1
  | x :: l' =>
      if pred x then 0
      else let r := findIndex pred l' in if r <? 0 then -1 else r + 1
  end.

(** [a.sort((x, y) => key x - key y)]: ascending and stable. *)
Fixpoint insertBy {A} (key : A → Z) (x : A) (l : list A) : list A :=
  match l with
  | [] => [x]
  | y :: l' => if key x <? key y then x :: l else y :: insertBy key x l'
  end.

Definition sortBy {A} (key : A → Z) (l : list A) : list A :=
  foldl (λ acc x, insertBy key x acc) [] l.

(** [[...new Set(a)]]: the distinct values in order of first occurrence. *)
Fixpoint uniq (seen l : list Z) : list Z :=
  match l with
  | [] => []
  | x :: l' =>
      if bool_decide (x ∈ seen) then uniq seen l' else x :: uniq (x :: seen) l'
  end.

(** ** side-pots.ts *)

Definition sumZ (l : list Z) : Z := foldr Z.add 0 l.

(** The entries [{ id, totalBet }] built from the players still in the hand. *)
Definition activeEntries (players : list Player.t) : list (string * Z) :=
  sortBy snd
    (map (λ p, (Player.id p, Player.totalBetThisHand p))
         (filter (λ p, Player.folded p = false) players)).

Definition betLevels (players : list Player.t) : list Z :=
  sortBy (λ b, b)
    (uniq [] (filter (λ bet, 0 < bet) (map Player.totalBetThisHand players))).

(** The inner loop accumulating [potAmount] for one level. *)
Definition levelAmount (players : list Player.t) (previousBetLevel contribution : Z) : Z :=
  foldl (λ potAmount player,
           potAmount +
           Z.min (Z.max 0 (Player.totalBetThisHand player - previousBetLevel))
                 contribution)
        0 players.

(** [pots[pots.length - 1].amount += potAmount] *)
Fixpoint addToLast (potAmount : Z) (pots : list Pot.t) : list Pot.t :=
  match pots with
  | [] => []
  | [p] => [Pot.mk (Pot.amount p + potAmount) (Pot.eligiblePlayerIds p)]
  | p :: rest => p :: addToLast potAmount rest
  end.

(** One iteration of [for (const betLevel of betLevels)]; the loop state is
    [(pots, previousBetLevel)]. *)
Definition levelStep (players : list Player.t) (active : list (string * Z))
    (st : list Pot.t * Z) (betLevel : Z) : list Pot.t * Z :=
  let '(pots, previousBetLevel) := st in
  let contribution := betLevel - previousBetLevel in
  if contribution <=? 0 then st
  else
    let eligiblePlayers :=
      map fst (filter (λ e, betLevel ≤ snd e) active) in
    let potAmount := levelAmount players previousBetLevel contribution in
    if (0 <? potAmount) && (length eligiblePlayers =? 0)%nat
       && (0 <? length pots)%nat
    then (addToLast potAmount pots, betLevel)
    else if 0 <? potAmount
    then (pots ++ [Pot.mk potAmount eligiblePlayers], betLevel)
    else (pots, betLevel).

Definition calculateSidePots (players : list Player.t) : list Pot.t :=
  let activePlayers := activeEntries players in
  if (length activePlayers =? 0)%nat then [Pot.mk 0 []]
  else
    let '(pots, _) :=
      foldl (levelStep players activePlayers) ([], 0) (betLevels players) in
    if (length pots =? 0)%nat
    then [Pot.mk 0 (map Player.id (filter (λ p, Player.folded p = false) players))]
    else pots.

Definition potTotal (pots : list Pot.t) : Z := sumZ (map Pot.amount pots).

Definition totalContributed (players : list Player.t) : Z :=
  sumZ (map Player.totalBetThisHand players).

(** What the pots built so far must hold once the loop has reached level
    [level]: every player's contribution capped at that level. *)
Definition cappedTotal (players : list Player.t) (level : Z) : Z :=
  sumZ (map (λ p, Z.min (Player.totalBetThisHand p) level) players).

(** ** deck.ts *)

Definition RANKS : list Rank := [2; 3; 4; 5; 6; 7; 8; 9; 10; 11; 12; 13; 14].
Definition SUITS : list Suit := [spades; hearts; diamonds; clubs].

Definition createDeck : list Card :=
  foldl (λ deck s, foldl (λ deck r, deck ++ [mkCard r s]) deck RANKS) [] SUITS.

(** [dealCards(deck, count)] throws on a short deck; otherwise it splices the
    first [count] cards off the deck. The result is the pair of the dealt
    cards and the deck as the call leaves it. *)
Definition dealCards (deck : list Card) (count : nat) : option (list Card * list Card) :=
  if (length deck <? count)%nat then None
  else Some (take count deck, drop count deck).

(** ** game-state.ts *)

Definition createInitialState : GameState.t :=
  GameState.mk lobby [] [] [Pot.mk 0 []] 0 0 0 (-1) 0 []
    DEFAULT_SETTINGS.smallBlind DEFAULT_SETTINGS.bigBlind
    DEFAULT_SETTINGS.preflopFlopBetSize.

(** The body of [for (let i = 1; i <= n; i++)] over the remaining values of
    [i]; reading [.folded] of a missing seat throws. *)
Fixpoint nextActiveLoop (players : list Player.t) (fromIndex : Z)
    (includeAllIn : bool) (steps : list nat) : option Z :=
  match steps with
  | [] => Some (-1)
  | i :: rest =>
      let idx := Z.rem (fromIndex + Z.of_nat i) (Z.of_nat (length players)) in
      player ← lookupZ players idx;
      if negb (Player.folded player) && (includeAllIn || negb (Player.allIn player))
      then Some idx
      else nextActiveLoop players fromIndex includeAllIn rest
  end.

(** [getNextActivePlayerIndex] reads only [state.players]; the callers that
    pass [{ ...state, players }] pass the new list here. *)
Definition getNextActivePlayerIndex (players : list Player.t) (fromIndex : Z)
    (includeAllIn : bool) : option Z :=
  nextActiveLoop players fromIndex includeAllIn (seq 1 (length players)).

Definition countActivePlayers (state : GameState.t) : nat :=
  length (filter (λ p, Player.folded p = false) (GameState.players state)).

Definition countActingPlayers (state : GameState.t) : nat :=
  length (filter (λ p, Player.folded p = false ∧ Player.allIn p = false)
                 (GameState.players state)).

Definition isBettingRoundComplete (state : GameState.t) : option bool :=
  let activePlayers := filter (λ p, Player.folded p = false) (GameState.players state) in
  if (length activePlayers <=? 1)%nat then Some true
  else
    let actingPlayers := filter (λ p, Player.allIn p = false) activePlayers in
    if (length actingPlayers =? 0)%nat then Some true
    else if existsb (λ player, negb (Player.allIn player)
                               && (Player.currentBet player <? GameState.currentBet state))
                    activePlayers
    then Some false
    else
      let actionAnchorIndex :=
        if 0 <=? GameState.lastRaiserIndex state
        then GameState.lastRaiserIndex state
        else GameState.dealerIndex state in
      firstToActAfterAnchor ←
        getNextActivePlayerIndex (GameState.players state) actionAnchorIndex false;
      if firstToActAfterAnchor =? -1 then Some true
      else Some (GameState.activePlayerIndex state =? firstToActAfterAnchor).

(** [state.players.map((p, idx) => ({ ...p, ... }))] of [startNewHand]. *)
Definition resetPlayer (newDealerIndex : Z) (idx : nat) (p : Player.t) : Player.t :=
  Player.mk (Player.id p) (Player.name p) (Player.chips p) [] 0 0 false false
    (Z.of_nat idx =? newDealerIndex) (Player.sessionToken p).

(** [for (const player of players) player.holeCards = dealCards(deck, 2)],
    threading the deck. *)
Fixpoint dealHoleCards (players : list Player.t) (deck : list Card)
    : option (list Player.t * list Card) :=
  match players with
  | [] => Some ([], deck)
  | player :: rest =>
      '(cards, deck1) ← dealCards deck 2;
      '(rest', deck2) ← dealHoleCards rest deck1;
      Some (Player.set_holeCards cards player :: rest', deck2)
  end.

(** The four statements that post one blind at seat [index]. *)
Definition postBlind (players : list Player.t) (index : Z) (blindAmount : Z)
    : option (list Player.t) :=
  p ← lookupZ players index;
  let p1 := Player.set_chips (Player.chips p - blindAmount) p in
  let p2 := Player.set_currentBet blindAmount p1 in
  let p3 := Player.set_totalBetThisHand blindAmount p2 in
  let p4 := if Player.chips p3 =? 0 then Player.set_allIn true p3 else p3 in
  Some (<[Z.to_nat index := p4]> players).

(** The blind positions of [startNewHand]: [n] is [state.players.length],
    [len] is [players.length]. *)
Definition sbIndexOf (n : nat) (len newDealerIndex : Z) : Z :=
  if (n =? 2)%nat then newDealerIndex else Z.rem (newDealerIndex + 1) len.

Definition bbIndexOf (n : nat) (len newDealerIndex : Z) : Z :=
  if (n =? 2)%nat then Z.rem (newDealerIndex + 1) len
  else Z.rem (newDealerIndex + 2) len.

(** [shuffled] is the value of [createShuffledDeck()]. *)
Definition startNewHand (shuffled : list Card) (state : GameState.t)
    : option GameState.t :=
  let n := length (GameState.players state) in
  if (n <? DEFAULT_SETTINGS.minPlayers)%nat then Some state
  else
    let newDealerIndex := Z.rem (GameState.dealerIndex state + 1) (Z.of_nat n) in
    let deck := shuffled in
    let players := imap (resetPlayer newDealerIndex) (GameState.players state) in
    '(players, deck) ← dealHoleCards players deck;
    let len := Z.of_nat (length players) in
    let sbIndex := sbIndexOf n len newDealerIndex in
    let bbIndex := bbIndexOf n len newDealerIndex in
    sbPlayer ← lookupZ players sbIndex;
    let sbAmount := Z.min (GameState.smallBlind state) (Player.chips sbPlayer) in
    bbPlayer ← lookupZ players bbIndex;
    let bbAmount := Z.min (GameState.bigBlind state) (Player.chips bbPlayer) in
    players ← postBlind players sbIndex sbAmount;
    players ← postBlind players bbIndex bbAmount;
    let firstToAct :=
      if (n =? 2)%nat then newDealerIndex else Z.rem (bbIndex + 1) len in
    Some (GameState.mk preflop players []
            [Pot.mk (sbAmount + bbAmount) (map Player.id players)]
            (GameState.bigBlind state) newDealerIndex firstToAct bbIndex 0 deck
            (GameState.smallBlind state) (GameState.bigBlind state)
            DEFAULT_SETTINGS.preflopFlopBetSize).

(** The [nextPhase] table of [advanceStreet]; [None] is a missing key. *)
Definition nextPhase (p : GamePhase) : option GamePhase :=
  match p with
  | preflop => Some flop
  | flop => Some turn
  | turn => Some river
  | river => Some showdown
  | lobby | showdown => None
  end.

Definition advanceStreet (state : GameState.t) : option GameState.t :=
  match nextPhase (GameState.phase state) with
  | None => Some state
  | Some newPhase =>
      let communityCards := GameState.communityCards state in
      let deck := GameState.deck state in
      '(communityCards, deck) ←
        match newPhase with
        | flop =>
            '(_, deck) ← dealCards deck 1;
            '(cards, deck) ← dealCards deck 3;
            Some (cards, deck)
        | turn | river =>
            '(_, deck) ← dealCards deck 1;
            '(cards, deck) ← dealCards deck 1;
            Some (communityCards ++ cards, deck)
        | _ => Some (communityCards, deck)
        end;
      let players := map (Player.set_currentBet 0) (GameState.players state) in
      firstToAct ← getNextActivePlayerIndex players (GameState.dealerIndex state) false;
      let streetBetSize :=
        match newPhase with
        | turn | river => DEFAULT_SETTINGS.turnRiverBetSize
        | _ => DEFAULT_SETTINGS.preflopFlopBetSize
        end in
      Some (GameState.mk newPhase players communityCards (GameState.pots state) 0
              (GameState.dealerIndex state)
              (if 0 <=? firstToAct then firstToAct else 0)
              (GameState.dealerIndex state) 0 deck
              (GameState.smallBlind state) (GameState.bigBlind state) streetBetSize)
  end.

Definition getLegalActions (state : GameState.t) : LegalActions.t :=
  let none := LegalActions.mk false false false 0 false 0 0 false 0 in
  match lookupZ (GameState.players state) (GameState.activePlayerIndex state) with
  | None => none
  | Some player =>
      if Player.folded player || Player.allIn player then none
      else
        let toCall := Z.max 0 (GameState.currentBet state - Player.currentBet player) in
        let canAffordFullRaise :=
          toCall + GameState.streetBetSize state <=? Player.chips player in
        let canRaise :=
          (GameState.raisesThisStreet state <? DEFAULT_SETTINGS.maxRaisesPerStreet)
          && canAffordFullRaise in
        LegalActions.mk true (toCall =? 0)
          ((0 <? toCall) && (toCall <=? Player.chips player))
          (Z.min toCall (Player.chips player))
          canRaise
          (GameState.streetBetSize state) (GameState.streetBetSize state)
          (0 <? Player.chips player) (Player.chips player)
  end.

(** [pots[0].amount += x]; [pots[0]] of an empty array is [undefined] and the
    assignment throws. The pot object is shared with the input state, whose
    caller drops that state for the returned one. *)
Definition addToMainPot (pots : list Pot.t) (x : Z) : option (list Pot.t) :=
  match pots with
  | [] => None
  | p :: rest => Some (Pot.mk (Pot.amount p + x) (Pot.eligiblePlayerIds p) :: rest)
  end.

(** The update shared by the call, raise and all-in branches. *)
Definition commitChips (player : Player.t) (x : Z) : Player.t :=
  Player.mk (Player.id player) (Player.name player) (Player.chips player - x)
    (Player.holeCards player) (Player.currentBet player + x)
    (Player.totalBetThisHand player + x) (Player.folded player)
    (Player.chips player - x =? 0) (Player.isDealer player)
    (Player.sessionToken player).

(** The tail of [applyAction] after the [switch]. *)
Definition moveToNextPlayer (state : GameState.t) (players : list Player.t)
    (pots : list Pot.t) (playerIndex : Z) : option GameState.t :=
  nextPlayerIndex ← getNextActivePlayerIndex players playerIndex false;
  Some (GameState.mk (GameState.phase state) players (GameState.communityCards state)
          pots (GameState.currentBet state) (GameState.dealerIndex state)
          (if 0 <=? nextPlayerIndex then nextPlayerIndex else playerIndex)
          (GameState.lastRaiserIndex state) (GameState.raisesThisStreet state)
          (GameState.deck state) (GameState.smallBlind state)
          (GameState.bigBlind state) (GameState.streetBetSize state)).

Definition applyAction (state : GameState.t) (playerId : string)
    (action : PlayerAction.t) : option GameState.t :=
  let playerIndex :=
    findIndex (λ p, bool_decide (Player.id p = playerId)) (GameState.players state) in
  if (playerIndex =? -1) || negb (playerIndex =? GameState.activePlayerIndex state)
  then Some state
  else
    player ← lookupZ (GameState.players state) playerIndex;
    let players := GameState.players state in
    let pots := GameState.pots state in
    let i := Z.to_nat playerIndex in
    match PlayerAction.type action with
    | fold =>
        moveToNextPlayer state (<[i := Player.set_folded true player]> players)
          pots playerIndex
    | check => moveToNextPlayer state players pots playerIndex
    | call =>
        let callAmount :=
          Z.min (Z.max 0 (GameState.currentBet state - Player.currentBet player))
                (Player.chips player) in
        let players := <[i := commitChips player callAmount]> players in
        pots ← addToMainPot pots callAmount;
        moveToNextPlayer state players pots playerIndex
    | raise =>
        let callAmount := Z.max 0 (GameState.currentBet state - Player.currentBet player) in
        let raiseAmount := GameState.streetBetSize state in
        let totalToAdd := callAmount + raiseAmount in
        if Player.chips player <? totalToAdd then Some state
        else
          let raised := commitChips player totalToAdd in
          let players := <[i := raised]> players in
          pots ← addToMainPot pots totalToAdd;
          next ← getNextActivePlayerIndex players playerIndex false;
          Some (GameState.mk (GameState.phase state) players
                  (GameState.communityCards state) pots
                  (Player.currentBet raised) (GameState.dealerIndex state) next
                  playerIndex (GameState.raisesThisStreet state + 1)
                  (GameState.deck state) (GameState.smallBlind state)
                  (GameState.bigBlind state) (GameState.streetBetSize state))
    | all_in =>
        let allInAmount := Player.chips player in
        let shoved :=
          Player.mk (Player.id player) (Player.name player) 0
            (Player.holeCards player) (Player.currentBet player + allInAmount)
            (Player.totalBetThisHand player + allInAmount) (Player.folded player)
            true (Player.isDealer player) (Player.sessionToken player) in
        let players := <[i := shoved]> players in
        pots ← addToMainPot pots allInAmount;
        let newCurrentBet := Z.max (GameState.currentBet state) (Player.currentBet shoved) in
        let isRaise := GameState.currentBet state <? Player.currentBet shoved in
        next ← getNextActivePlayerIndex players playerIndex false;
        Some (GameState.mk (GameState.phase state) players
                (GameState.communityCards state) pots newCurrentBet
                (GameState.dealerIndex state) next
                (if isRaise then playerIndex else GameState.lastRaiserIndex state)
                (if isRaise then GameState.raisesThisStreet state + 1
                 else GameState.raisesThisStreet state)
                (GameState.deck state) (GameState.smallBlind state)
                (GameState.bigBlind state) (GameState.streetBetSize state))
    end.

Definition shouldAdvancePhase (state : GameState.t) : option bool :=
  if (countActivePlayers state <=? 1)%nat then Some true
  else isBettingRoundComplete state.

Definition toPublicPlayer (p : Player.t) : PublicPlayer.t :=
  PublicPlayer.mk (Player.id p) (Player.name p) (Player.chips p)
    (Player.currentBet p) (Player.folded p) (Player.allIn p) (Player.isDealer p)
    (0 <? length (Player.holeCards p))%nat.

Definition toPublicState (state : GameState.t) : PublicGameState.t :=
  PublicGameState.mk (GameState.phase state)
    (map toPublicPlayer (GameState.players state))
    (GameState.communityCards state) (GameState.pots state)
    (GameState.currentBet state) (GameState.dealerIndex state)
    (GameState.activePlayerIndex state) (GameState.smallBlind state)
    (GameState.bigBlind state).

(** ** party/server.ts: the gate in front of [applyAction] *)

Definition isLegalAction (action : PlayerAction.t) (legal : LegalActions.t) : bool :=
  match PlayerAction.type action with
  | fold => LegalActions.canFold legal
  | check => LegalActions.canCheck legal
  | call => LegalActions.canCall legal
  | raise =>
      if negb (LegalActions.canRaise legal) then false
      else match PlayerAction.amount action with
           | None => true
           | Some a => a =? LegalActions.minRaise legal
           end
  | all_in => LegalActions.canAllIn legal
  end.

(** ** side-pots.ts: awardPots *)

(** The loop [for (let j = 0; j < winners.length; j++)], from index [j] on. *)
Fixpoint awardWinners (share remainder : Z) (j : nat) (winners : list string)
    (winnings : gmap string Z) : gmap string Z :=
  match winners with
  | [] => winnings
  | winnerId :: rest =>
      let amount := share + (if Z.of_nat j <? remainder then 1 else 0) in
      awardWinners share remainder (S j) rest
        (<[winnerId := default 0 (winnings !! winnerId) + amount]> winnings)
  end.

(** The loop [for (let i = 0; i < pots.length; i++)], from index [i] on. *)
Fixpoint awardPotsFrom (i : nat) (pots : list Pot.t)
    (winnersByPot : gmap nat (list string)) (winnings : gmap string Z)
    : gmap string Z :=
  match pots with
  | [] => winnings
  | pot :: rest =>
      let winners := default [] (winnersByPot !! i) in
      if (length winners =? 0)%nat
      then awardPotsFrom (S i) rest winnersByPot winnings
      else
        let share := Pot.amount pot / Z.of_nat (length winners) in
        let remainder := Z.rem (Pot.amount pot) (Z.of_nat (length winners)) in
        awardPotsFrom (S i) rest winnersByPot
          (awardWinners share remainder 0 winners winnings)
  end.

Definition awardPots (pots : list Pot.t) (winnersByPot : gmap nat (list string))
    : gmap string Z :=
  awardPotsFrom 0 pots winnersByPot ∅.

(** The chips handed out by a winnings map. *)
Definition winningsTotal (winnings : gmap string Z) : Z :=
  map_fold (λ _ v acc, v + acc) 0 winnings.

(** The chips the [j]-loop hands to [count] winners from index [j] on. *)
Fixpoint handedOut (share remainder : Z) (j count : nat) : Z :=
  match count with
  | O => 0
  | S count' =>
      share + (if Z.of_nat j <? remainder then 1 else 0)
      + handedOut share remainder (S j) count'
  end.

(** The chips of the pots, from index [i] on, that have a winner. *)
Fixpoint contestedTotal (i : nat) (pots : list Pot.t)
    (winnersByPot : gmap nat (list string)) : Z :=
  match pots with
  | [] => 0
  | pot :: rest =>
      (if (length (default [] (winnersByPot !! i)) =? 0)%nat then 0
       else Pot.amount pot)
      + contestedTotal (S i) rest winnersByPot
  end.

(** ** Vocabulary of the statements *)

(** [createInitialState()] with [state.players = ps]: the lobby of a room
    once its players have joined. *)
Definition seated (ps : list Player.t) : GameState.t :=
  let s := createInitialState in
  GameState.mk (GameState.phase s) ps (GameState.communityCards s)
    (GameState.pots s) (GameState.currentBet s) (GameState.dealerIndex s)
    (GameState.activePlayerIndex s) (GameState.lastRaiserIndex s)
    (GameState.raisesThisStreet s) (GameState.deck s) (GameState.smallBlind s)
    (GameState.bigBlind s) (GameState.streetBetSize s).

(** One operation of the hand state machine, with no gate in front. *)
Inductive step : GameState.t → GameState.t → Prop :=
  | step_newHand shuffled s s' :
      startNewHand shuffled s = Some s' → step s s'
  | step_action playerId action s s' :
      applyAction s playerId action = Some s' → step s s'
  | step_advance s s' :
      advanceStreet s = Some s' → step s s'.

(** Scripts of operations, to run the machine on concrete hands. *)
Inductive Op :=
  | NewHand (shuffled : list Card)
  | Act (playerId : string) (action : PlayerAction.t)
  | AdvanceStreet.

Definition perform (op : Op) (s : GameState.t) : option GameState.t :=
  match op with
  | NewHand shuffled => startNewHand shuffled s
  | Act playerId action => applyAction s playerId action
  | AdvanceStreet => advanceStreet s
  end.

Fixpoint run (ops : list Op) (s : GameState.t) : option GameState.t :=
  match ops with
  | [] => Some s
  | op :: rest => s' ← perform op s; run rest s'
  end.

(** The checks of [handleAction] in [party/server.ts] that come before
    [applyAction]: the sender is seated, holds the active seat, the hand is
    in a betting phase and the action is legal. *)
Definition actionAccepted (state : GameState.t) (senderId : string)
    (action : PlayerAction.t) : bool :=
  existsb (λ p, bool_decide (Player.id p = senderId)) (GameState.players state)
  && match lookupZ (GameState.players state) (GameState.activePlayerIndex state) with
     | Some p => bool_decide (Player.id p = senderId)
     | None => false
     end
  && negb match GameState.phase state with
          | lobby | showdown => true
          | _ => false
          end
  && isLegalAction action (getLegalActions state).

(** [run] where every action has to pass the server's checks. *)
Fixpoint runAccepted (ops : list Op) (s : GameState.t) : option GameState.t :=
  match ops with
  | [] => Some s
  | op :: rest =>
      match op with
      | Act playerId action =>
          if actionAccepted s playerId action
          then s' ← perform op s; runAccepted rest s'
          else None
      | _ => s' ← perform op s; runAccepted rest s'
      end
  end.

(** What the cap relies on: a raise goes through only when
    [getLegalActions] offers it; all-in is not part of this relation. *)
Definition withinCapGate (s : GameState.t) (action : PlayerAction.t) : Prop :=
  match PlayerAction.type action with
  | raise => LegalActions.canRaise (getLegalActions s) = true
  | all_in => False
  | fold | check | call => True
  end.

Inductive gatedStep : GameState.t → GameState.t → Prop :=
  | gated_newHand shuffled s s' :
      startNewHand shuffled s = Some s' → gatedStep s s'
  | gated_action playerId action s s' :
      withinCapGate s action →
      applyAction s playerId action = Some s' → gatedStep s s'
  | gated_advance s s' :
      advanceStreet s = Some s' → gatedStep s s'.

(** Two seats that agree on everything but the values of the hole cards. *)
Definition sameSeatButCards (p q : Player.t) : Prop :=
  Player.id p = Player.id q ∧ Player.name p = Player.name q ∧
  Player.chips p = Player.chips q ∧
  length (Player.holeCards p) = length (Player.holeCards q) ∧
  Player.currentBet p = Player.currentBet q ∧
  Player.totalBetThisHand p = Player.totalBetThisHand q ∧
  Player.folded p = Player.folded q ∧ Player.allIn p = Player.allIn q ∧
  Player.isDealer p = Player.isDealer q ∧
  Player.sessionToken p = Player.sessionToken q.

(** Two states that agree on everything but the hole-card values and the
    deck. *)
Definition sameButSecrets (s1 s2 : GameState.t) : Prop :=
  GameState.phase s1 = GameState.phase s2 ∧
  Forall2 sameSeatButCards (GameState.players s1) (GameState.players s2) ∧
  GameState.communityCards s1 = GameState.communityCards s2 ∧
  GameState.pots s1 = GameState.pots s2 ∧
  GameState.currentBet s1 = GameState.currentBet s2 ∧
  GameState.dealerIndex s1 = GameState.dealerIndex s2 ∧
  GameState.activePlayerIndex s1 = GameState.activePlayerIndex s2 ∧
  GameState.lastRaiserIndex s1 = GameState.lastRaiserIndex s2 ∧
  GameState.raisesThisStreet s1 = GameState.raisesThisStreet s2 ∧
  GameState.smallBlind s1 = GameState.smallBlind s2 ∧
  GameState.bigBlind s1 = GameState.bigBlind s2 ∧
  GameState.streetBetSize s1 = GameState.streetBetSize s2.

(** The players of the tests: [createTestPlayer(id, name, chips, totalBet)]
    with the flags set. *)
Definition samplePlayer (i : string) (c t : Z) (f a : bool) : Player.t :=
  Player.mk i i c [] t t f a false ("token_" +:+ i).

Definition Alice : Player.t := samplePlayer "p1" 20 0 false false.
Definition Bob : Player.t := samplePlayer "p2" 20 0 false false.

Definition act (ty : ActionType) : PlayerAction.t := PlayerAction.mk ty None.

(** Alice and Bob with the button at seat 1, so that the next hand has its
    dealer at seat 0. *)
Definition buttonAtSeat1 : GameState.t :=
  GameState.mk showdown [Alice; Bob] [] [Pot.mk 0 []] 0 1 0 (-1) 0 []
    DEFAULT_SETTINGS.smallBlind DEFAULT_SETTINGS.bigBlind
    DEFAULT_SETTINGS.preflopFlopBetSize.

(** A seat still in the hand with the given id, contribution and all-in
    flag; the other fields are free. *)
Definition isSeat (p : Player.t) (i : string) (totalBet : Z) (allIn : bool) : Prop :=
  Player.id p = i ∧ Player.totalBetThisHand p = totalBet ∧
  Player.folded p = false ∧ Player.allIn p = allIn.

(** A table where both players have folded and the pot holds their 8 chips. *)
Definition allFoldedTable : GameState.t :=
  GameState.mk river
    [samplePlayer "p1" 15 5 true false; samplePlayer "p2" 17 3 true false]
    [] [Pot.mk 8 ["p1"; "p2"]] 2 0 0 0 1 []
    DEFAULT_SETTINGS.smallBlind DEFAULT_SETTINGS.bigBlind
    DEFAULT_SETTINGS.turnRiverBetSize.

#[global] Instance Suit_eq_dec : EqDecision Suit.
Proof. solve_decision. Defined.

#[global] Instance Card_eq_dec : EqDecision Card.
Proof. solve_decision. Defined.

(** ** deck.ts: shuffling, notation, sorting *)

(** [[array[i], array[j]] = [array[j], array[i]]]. Both indices are inside
    the array wherever [shuffle] swaps. *)
Definition swap {A} (i j : nat) (array : list A) : list A :=
  match array !! i, array !! j with
  | Some x, Some y => <[j := x]> (<[i := y]> array)
  | _, _ => array
  end.

(** The loop [for (let i = array.length - 1; i > 0; i--)] from [i] down;
    [draw i] is the value of [Math.floor(Math.random() * (i + 1))] in the
    iteration for [i] (every [i] is visited once). *)
Fixpoint shuffleFrom {A} (draw : nat → nat) (i : nat) (array : list A) : list A :=
  match i with
  | O => array
  | S i' => shuffleFrom draw i' (swap (S i') (draw (S i')) array)
  end.

Definition shuffle {A} (draw : nat → nat) (array : list A) : list A :=
  shuffleFrom draw (length array - 1) array.

Definition createShuffledDeck (draw : nat → nat) : list Card :=
  shuffle draw createDeck.

(** constants.ts: [RANK_TO_NOTATION] and [SUIT_TO_NOTATION]; [None] is a
    key the table does not have. *)
Definition RANK_TO_NOTATION (r : Rank) : option string :=
  match r with
  | 14 => Some "A" | 13 => Some "K" | 12 => Some "Q" | 11 => Some "J"
  | 10 => Some "T" | 9 => Some "9" | 8 => Some "8" | 7 => Some "7"
  | 6 => Some "6" | 5 => Some "5" | 4 => Some "4" | 3 => Some "3"
  | 2 => Some "2"
  | _ => None
  end.

Definition SUIT_TO_NOTATION (s : Suit) : string :=
  match s with
  | spades => "s" | hearts => "h" | diamonds => "d" | clubs => "c"
  end.

(** String concatenation turns a missing table entry into ["undefined"]. *)
Definition cardToNotation (card : Card) : string :=
  default "undefined" (RANK_TO_NOTATION (rank card)) +:+ SUIT_TO_NOTATION (suit card).

Definition cardsToNotation (cards : list Card) : list string :=
  map cardToNotation cards.

Definition compareCards (a b : Card) : Z := rank a - rank b.

(** [[...cards].sort((a, b) => b.rank - a.rank)] *)
Definition sortCards (cards : list Card) : list Card :=
  sortBy (λ c, - rank c) cards.

(** ** session.ts *)

(** [chars.charAt(k)]: the empty string past the end. *)
Definition charAt (chars : string) (k : nat) : string :=
  match String.get k chars with
  | Some c => String c EmptyString
  | None => EmptyString
  end.

(** [for (let i = 0; i < count; i++) token += chars.charAt(...)], from
    iteration [i] on; [draw i] is the value of
    [Math.floor(Math.random() * chars.length)] in iteration [i]. *)
Fixpoint appendDraws (chars : string) (draw : nat → nat) (i count : nat)
    (token : string) : string :=
  match count with
  | O => token
  | S count' =>
      appendDraws chars draw (S i) count' (token +:+ charAt chars (draw i))
  end.

Definition tokenChars : string :=
  "ABCDEFGHIJKLMNOPQRSTUVWXYZabcdefghijklmnopqrstuvwxyz0123456789".

Definition roomCodeChars : string := "ABCDEFGHJKLMNPQRSTUVWXYZ".

Definition generateSessionToken (draw : nat → nat) : string :=
  appendDraws tokenChars draw 0 32 EmptyString.

Definition generateRoomCode (draw : nat → nat) : string :=
  appendDraws roomCodeChars draw 0 4 EmptyString.

Definition isUpper (c : Ascii.ascii) : bool :=
  (65 <=? Ascii.nat_of_ascii c)%nat && (Ascii.nat_of_ascii c <=? 90)%nat.
Definition isLower (c : Ascii.ascii) : bool :=
  (97 <=? Ascii.nat_of_ascii c)%nat && (Ascii.nat_of_ascii c <=? 122)%nat.
Definition isDigit (c : Ascii.ascii) : bool :=
  (48 <=? Ascii.nat_of_ascii c)%nat && (Ascii.nat_of_ascii c <=? 57)%nat.

(** [/^[A-Za-z0-9]+$/.test(token)] *)
Definition allAlphaNumeric (token : string) : bool :=
  negb (String.length token =? 0)%nat
  && forallb (λ c, isUpper c || isLower c || isDigit c) (String.list_ascii_of_string token).

Definition isValidSessionToken (token : string) : bool :=
  (String.length token =? 32)%nat && allAlphaNumeric token.

(** [code.toUpperCase()] on the characters of ASCII. *)
Definition toUpperCase (code : string) : string :=
  String.string_of_list_ascii
    (map (λ c, if isLower c then Ascii.ascii_of_nat (Ascii.nat_of_ascii c - 32) else c)
         (String.list_ascii_of_string code)).

(** [/^[A-Z]+$/.test(code.toUpperCase())] *)
Definition isValidRoomCode (code : string) : bool :=
  (String.length code =? 4)%nat
  && negb (String.length (toUpperCase code) =? 0)%nat
  && forallb isUpper (String.list_ascii_of_string (toUpperCase code)).

(** The letters that [generateRoomCode] leaves out. *)
Definition letterI : Ascii.ascii := Ascii.ascii_of_nat 73.
Definition letterO : Ascii.ascii := Ascii.ascii_of_nat 79.

(** ** side-pots.ts: mergePots, needsSidePots *)

(** [[...new Set(a)]] for any element type that [===] compares by value. *)
Fixpoint distinct {A} `{EqDecision A} (seen l : list A) : list A :=
  match l with
  | [] => []
  | x :: l' =>
      if bool_decide (x ∈ seen) then distinct seen l'
      else x :: distinct (x :: seen) l'
  end.

Definition mergePots (pots : list Pot.t) : Pot.t :=
  let totalAmount := foldl (λ sum pot, sum + Pot.amount pot) 0 pots in
  let allEligible := distinct [] (flat_map Pot.eligiblePlayerIds pots) in
  Pot.mk totalAmount allEligible.

(** [Math.max(...bets)] is taken of at least two bets here: the guard
    [activePlayers.length <= 1] has returned before. *)
Definition needsSidePots (players : list Player.t) : bool :=
  let activePlayers := filter (λ p, Player.folded p = false) players in
  if (length activePlayers <=? 1)%nat then false
  else
    let allInPlayers := filter (λ p, Player.allIn p = true) activePlayers in
    if (length allInPlayers =? 0)%nat then false
    else
      match map Player.totalBetThisHand activePlayers with
      | [] => false
      | bet :: bets =>
          let maxBet := foldl Z.max bet bets in
          existsb (λ p, Player.totalBetThisHand p <? maxBet) allInPlayers
      end.

(** ** showdown.ts: shouldAutoShowdown, runOutBoard *)

Definition shouldAutoShowdown (state : GameState.t) : bool :=
  let activePlayers := filter (λ p, Player.folded p = false) (GameState.players state) in
  if (length activePlayers <=? 1)%nat then false
  else
    let actingPlayers := filter (λ p, Player.allIn p = false) activePlayers in
    (length actingPlayers <=? 1)%nat.

(** The loop [while (communityCards.length < 5 && deck.length > 0)]: burn
    one card, deal the next if there is one. The result is the board and the
    deck as the loop leaves them. *)
Fixpoint runOutLoop (deck communityCards : list Card) : list Card * list Card :=
  if (length communityCards <? 5)%nat then
    match deck with
    | [] => (communityCards, deck)
    | _ :: deck1 =>
        match deck1 with
        | [] => (communityCards, deck1)
        | card :: deck2 => runOutLoop deck2 (communityCards ++ [card])
        end
    end
  else (communityCards, deck).

Definition runOutBoard (state : GameState.t) : GameState.t :=
  let '(communityCards, deck) :=
    runOutLoop (GameState.deck state) (GameState.communityCards state) in
  GameState.mk showdown (GameState.players state) communityCards
    (GameState.pots state) (GameState.currentBet state)
    (GameState.dealerIndex state) (GameState.activePlayerIndex state)
    (GameState.lastRaiserIndex state) (GameState.raisesThisStreet state) deck
    (GameState.smallBlind state) (GameState.bigBlind state)
    (GameState.streetBetSize state).

(** ** party/server.ts: seat removal *)

(** The renormalisation of [dealerIndex] and of [activePlayerIndex] in
    [removePlayerSeat]; [len] is the number of seats left. *)
Definition shiftSeatIndex (len : nat) (removedIndex index : Z) : Z :=
  if (len =? 0)%nat then 0
  else if removedIndex <? index then index - 1
  else if removedIndex =? index then Z.rem index (Z.of_nat len)
  else index.

(** The renormalisation of [lastRaiserIndex]. *)
Definition shiftRaiserIndex (len : nat) (removedIndex lastRaiserIndex : Z) : Z :=
  if (len =? 0)%nat then -1
  else if 0 <=? lastRaiserIndex then
    if removedIndex <? lastRaiserIndex then lastRaiserIndex - 1
    else if removedIndex =? lastRaiserIndex then -1
    else lastRaiserIndex
  else lastRaiserIndex.

Definition removePlayerSeat (state : GameState.t) (playerId : string) : GameState.t :=
  let removedIndex :=
    findIndex (λ player, bool_decide (Player.id player = playerId))
              (GameState.players state) in
  if removedIndex =? -1 then state
  else
    let players := delete (Z.to_nat removedIndex) (GameState.players state) in
    let dealerIndex :=
      shiftSeatIndex (length players) removedIndex (GameState.dealerIndex state) in
    let activePlayerIndex :=
      shiftSeatIndex (length players) removedIndex (GameState.activePlayerIndex state) in
    let lastRaiserIndex :=
      shiftRaiserIndex (length players) removedIndex (GameState.lastRaiserIndex state) in
    let normalizedPlayers :=
      imap (λ index player,
              Player.set_isDealer
                ((0 <? length players)%nat && (Z.of_nat index =? dealerIndex))
                player)
           players in
    GameState.mk (GameState.phase state) normalizedPlayers
      (GameState.communityCards state) (GameState.pots state)
      (GameState.currentBet state) dealerIndex activePlayerIndex lastRaiserIndex
      (GameState.raisesThisStreet state) (GameState.deck state)
      (GameState.smallBlind state) (GameState.bigBlind state)
      (GameState.streetBetSize state).

(** [connectedIds] is the set built from [this.room.getConnections()]. *)
Definition pruneDisconnectedSeats (connectedIds : gset string) (state : GameState.t)
    : GameState.t :=
  let disconnectedPlayerIds :=
    map Player.id
        (filter (λ player, Player.id player ∉ connectedIds) (GameState.players state)) in
  foldl removePlayerSeat state disconnectedPlayerIds.

(** ** Further vocabulary *)

Definition chipTotal (players : list Player.t) : Z :=
  sumZ (map Player.chips players).

(** The books of a hand: what the players have put in is what the pots
    hold, and no stack, contribution, blind or bet size is negative. *)
Definition accounted (s : GameState.t) : Prop :=
  totalContributed (GameState.players s) = potTotal (GameState.pots s) ∧
  Forall (λ p, 0 ≤ Player.chips p ∧ 0 ≤ Player.totalBetThisHand p)
         (GameState.players s) ∧
  0 ≤ GameState.streetBetSize s ∧ 0 ≤ GameState.smallBlind s ∧
  0 ≤ GameState.bigBlind s.

(** Who [getNextActivePlayerIndex] looks for. *)
Definition canStillAct (includeAllIn : bool) (p : Player.t) : Prop :=
  Player.folded p = false ∧ (includeAllIn = true ∨ Player.allIn p = false).

(** A seat after [postBlind] has taken [blindAmount] from it. *)
Definition postedSeat (p : Player.t) (blindAmount : Z) : Player.t :=
  let p3 :=
    Player.set_totalBetThisHand blindAmount
      (Player.set_currentBet blindAmount
         (Player.set_chips (Player.chips p - blindAmount) p)) in
  if Player.chips p3 =? 0 then Player.set_allIn true p3 else p3.

(** What one applied action does: the seat whose turn it is goes from
    [player] to [player'], moving [x] chips from its stack to its bets and
    to the main pot; the rest of the table stays. *)
Definition actedBy (s s' : GameState.t) (player player' : Player.t) (x : Z) : Prop :=
  lookupZ (GameState.players s) (GameState.activePlayerIndex s) = Some player ∧
  GameState.players s'
  = <[Z.to_nat (GameState.activePlayerIndex s) := player']> (GameState.players s) ∧
  (Player.id player' = Player.id player ∧ Player.name player' = Player.name player ∧
   Player.holeCards player' = Player.holeCards player ∧
   Player.isDealer player' = Player.isDealer player ∧
   Player.sessionToken player' = Player.sessionToken player) ∧
  (Player.chips player' = Player.chips player - x ∧
   Player.currentBet player' = Player.currentBet player + x ∧
   Player.totalBetThisHand player' = Player.totalBetThisHand player + x) ∧
  ((x = 0 ∧ GameState.pots s' = GameState.pots s) ∨
   ∃ pot rest, GameState.pots s = pot :: rest ∧
               GameState.pots s'
               = Pot.mk (Pot.amount pot + x) (Pot.eligiblePlayerIds pot) :: rest) ∧
  (GameState.phase s' = GameState.phase s ∧
   GameState.communityCards s' = GameState.communityCards s ∧
   GameState.dealerIndex s' = GameState.dealerIndex s ∧
   GameState.deck s' = GameState.deck s ∧
   GameState.smallBlind s' = GameState.smallBlind s ∧
   GameState.bigBlind s' = GameState.bigBlind s ∧
   GameState.streetBetSize s' = GameState.streetBetSize s) ∧
  let owed := Z.max 0 (GameState.currentBet s - Player.currentBet player) in
  (x = 0 ∨ x = Z.min owed (Player.chips player) ∨
   (x = owed + GameState.streetBetSize s ∧ x ≤ Player.chips player) ∨
   x = Player.chips player).

(** The cards [advanceStreet] takes off the deck when it leaves a phase:
    one burned and three dealt for the flop, one burned and one dealt for
    the turn and for the river. *)
Definition cardsNeeded (p : GamePhase) : nat :=
  match p with
  | preflop => 4
  | flop | turn => 2
  | river | lobby | showdown => 0
  end.

(** An id list without the first occurrence of [x]: what the seat ids
    become when [removePlayerSeat] takes [x] out. *)
Fixpoint removeFirst (x : string) (l : list string) : list string :=
  match l with
  | [] => []
  | y :: l' => if bool_decide (y = x) then l' else y :: removeFirst x l'
  end.

(** ** evaluator.ts and showdown.ts: runShowdown *)

(** constants.ts: [DINO_HAND_NAMES]. *)
Definition DINO_HAND_NAMES : gmap string string :=
  list_to_map
    [("High Card", "Lone Fossil"); ("Pair", "Twin Eggs");
     ("Two Pair", "Double Nest"); ("Three of a Kind", "Raptor Pack");
     ("Straight", "Migration Line"); ("Flush", "Same Clan");
     ("Full House", "Herd + Hunter"); ("Four of a Kind", "Stampede");
     ("Straight Flush", "Perfect Hunt"); ("Royal Flush", "Meteor Prophecy")].

Module HandEvaluation.
Record t := mk {
  handName : string;
  dinoHandName : string;
  rank : Z;
  cards : list Card
}.
End HandEvaluation.

Module ShowdownResult.
Record t := mk {
  playerId : string;
  name : string;
  holeCards : list Card;
  handName : string;
  dinoHandName : string;
  handRank : Z;
  isWinner : bool;
  potWon : Z
}.
End ShowdownResult.

(** The hand solver is the [pokersolver] package, which is not part of the
    repository: the functions that call it take it as parameters. *)
Section Evaluator.

(** The objects [Hand.solve] returns, with their [name] and [rank]. *)
Context {Hand : Type}.
Variable handName : Hand → string.
Variable handRank : Hand → Z.

(** [Hand.solve(notation)]. The package throws on hands it does not accept
    (no cards, a card twice, ...) and no caller catches: [None] is the
    throw, which every caller passes on. *)
Variable solve : list string → option Hand.

(** [Hand.winners(hands)], as the positions in [hands] of the hands it
    returns; the source finds them again by object identity, with
    [winningHands.includes(hands[i])]. It is only given hands that
    [Hand.solve] has returned, which it compares. *)
Variable winners : list Hand → list nat.

(** [evaluateHand] throws unless it is given 5 to 7 cards. *)
Definition evaluateHand (cards : list Card) : option HandEvaluation.t :=
  if (length cards <? 5)%nat || (7 <? length cards)%nat then None
  else
    result ← solve (cardsToNotation cards);
    let dinoName := default (handName result) (DINO_HAND_NAMES !! handName result) in
    Some (HandEvaluation.mk (handName result) dinoName (handRank result) cards).

Definition compareHands (cards1 cards2 : list Card) : option Z :=
  hand1 ← solve (cardsToNotation cards1);
  hand2 ← solve (cardsToNotation cards2);
  Some (handRank hand1 - handRank hand2).

(** With no hand or one hand the solver is not called; otherwise every
    hand is solved, in order, before the winners are asked for. *)
Definition findWinners (allCards : list (list Card)) : option (list nat) :=
  if (length allCards =? 0)%nat then Some []
  else if (length allCards =? 1)%nat then Some [0%nat]
  else
    hands ← mapM (λ cards, solve (cardsToNotation cards)) allCards;
    let winningHands := winners hands in
    Some (filter (λ i, i ∈ winningHands) (seq 0 (length hands))).

(** [playerCards[i].playerId] of a missing entry throws. *)
Definition determineWinners (playerCards : list (string * list Card))
    (communityCards : list Card) : option (list string) :=
  let allHands := map (λ pc, snd pc ++ communityCards) playerCards in
  winnerIndices ← findWinners allHands;
  mapM (λ i, fst <$> playerCards !! i) winnerIndices.

(** The loop over the pots that fills [winnersByPot], from [potIndex] on. *)
Fixpoint winnersLoop (potIndex : nat) (pots : list Pot.t)
    (handEvaluations : list (Player.t * HandEvaluation.t))
    (communityCards : list Card) (winnersByPot : gmap nat (list string))
    : option (gmap nat (list string)) :=
  match pots with
  | [] => Some winnersByPot
  | pot :: rest =>
      let eligibleHands :=
        filter (λ h, Player.id (fst h) ∈ Pot.eligiblePlayerIds pot) handEvaluations in
      if (length eligibleHands =? 0)%nat
      then winnersLoop (S potIndex) rest handEvaluations communityCards winnersByPot
      else
        let playerCards :=
          map (λ h, (Player.id (fst h), Player.holeCards (fst h))) eligibleHands in
        winnerIds ← determineWinners playerCards communityCards;
        winnersLoop (S potIndex) rest handEvaluations communityCards
          (<[potIndex := winnerIds]> winnersByPot)
  end.

(** The result is [{ results, winnings, updatedPlayers }]. *)
Definition runShowdown (state : GameState.t)
    : option (list ShowdownResult.t * gmap string Z * list Player.t) :=
  let activePlayers := filter (λ p, Player.folded p = false) (GameState.players state) in
  match activePlayers with
  | [winner] =>
      let totalPot := foldl (λ sum pot, sum + Pot.amount pot) 0 (GameState.pots state) in
      let results :=
        [ShowdownResult.mk (Player.id winner) (Player.name winner)
           (Player.holeCards winner) "Winner by fold" "Last Dino Standing" 0 true
           totalPot] in
      let winnings : gmap string Z := {[Player.id winner := totalPot]} in
      let updatedPlayers :=
        map (λ p, if bool_decide (Player.id p = Player.id winner)
                  then Player.set_chips (Player.chips p + totalPot) p else p)
            (GameState.players state) in
      Some (results, winnings, updatedPlayers)
  | _ =>
      let pots := calculateSidePots (GameState.players state) in
      handEvaluations ←
        mapM (λ player,
                evaluation ←
                  evaluateHand (Player.holeCards player ++ GameState.communityCards state);
                Some (player, evaluation))
             activePlayers;
      winnersByPot ←
        winnersLoop 0 pots handEvaluations (GameState.communityCards state) ∅;
      let winnings := awardPots pots winnersByPot in
      let results :=
        map (λ h : Player.t * HandEvaluation.t,
               let '(player, evaluation) := h in
               ShowdownResult.mk (Player.id player) (Player.name player)
                 (Player.holeCards player) (HandEvaluation.handName evaluation)
                 (HandEvaluation.dinoHandName evaluation)
                 (HandEvaluation.rank evaluation)
                 (bool_decide (is_Some (winnings !! Player.id player))
                  && (0 <? default 0 (winnings !! Player.id player)))
                 (default 0 (winnings !! Player.id player)))
            handEvaluations in
      let results := sortBy (λ r, - ShowdownResult.handRank r) results in
      let updatedPlayers :=
        map (λ p, Player.set_chips
                    (Player.chips p + default 0 (winnings !! Player.id p)) p)
            (GameState.players state) in
      Some (results, winnings, updatedPlayers)
  end.

End Evaluator.

(** The chips a winnings map gives to the seats of a table. *)
Definition paidToSeats (winnings : gmap string Z) (players : list Player.t) : Z :=
  sumZ (map (λ p, default 0 (winnings !! Player.id p)) players).

(** A stand-in for the solver in the examples: like the package it refuses
    an empty hand and a hand that holds a card twice; it names every hand a
    high card and ranks it by its number of cards. *)
Definition sampleSolve (notation : list string) : option (string * Z) :=
  if bool_decide (notation ≠ [] ∧ NoDup notation)
  then Some ("High Card", Z.of_nat (length notation))
  else None.

(** A stand-in for [Hand.winners]: the second hand wins. *)
Definition sampleWinners (hands : list (string * Z)) : list nat := [1%nat].

(** * Properties *)

(** ** Side pots *)


Section Sorting.
Context {A : Type} (key : A → Z).

Lemma elem_of_insertBy (x y : A) (l : list A) :
  y ∈ insertBy key x l ↔ y = x ∨ y ∈ l.
Proof.
  induction l as [|z l IH]; simpl.
  - rewrite list_elem_of_singleton. pose proof (not_elem_of_nil y). tauto.
  - destruct (key x <? key z); rewrite !elem_of_cons; [tauto|].
    rewrite IH. tauto.
Qed.

Lemma elem_of_sortBy_acc (l acc : list A) (y : A) :
  y ∈ foldl (λ acc x, insertBy key x acc) acc l ↔ y ∈ acc ∨ y ∈ l.
Proof.
  revert acc. induction l as [|x l IH]; intros acc; simpl.
  - pose proof (not_elem_of_nil y). tauto.
  - rewrite IH, elem_of_insertBy, elem_of_cons. tauto.
Qed.

Lemma elem_of_sortBy (l : list A) (y : A) : y ∈ sortBy key l ↔ y ∈ l.
Proof.
  unfold sortBy. rewrite elem_of_sortBy_acc.
  pose proof (not_elem_of_nil y). tauto.
Qed.
End Sorting.

Lemma elem_of_uniq (l seen : list Z) (x : Z) :
  x ∈ l → x ∈ seen ∨ x ∈ uniq seen l.
Proof.
  revert seen. induction l as [|y l IH]; intros seen Hx; [by inversion Hx|].
  simpl. apply elem_of_cons in Hx as [->|Hx].
  - case_bool_decide; [by left|right; by left].
  - case_bool_decide.
    + apply IH, Hx.
    + destruct (IH (y :: seen) Hx) as [Hs|Hu].
      * apply elem_of_cons in Hs as [->|Hs]; [right; by left|by left].
      * right. by right.
Qed.

Lemma betLevels_complete (players : list Player.t) (p : Player.t) :
  p ∈ players → 0 < Player.totalBetThisHand p →
  Player.totalBetThisHand p ∈ betLevels players.
Proof.
  intros Hp Hpos. unfold betLevels. apply elem_of_sortBy.
  destruct (elem_of_uniq
              (filter (λ bet, 0 < bet) (map Player.totalBetThisHand players))
              [] (Player.totalBetThisHand p)) as [Hnil|Hin]; [|by inversion Hnil|done].
  apply list_elem_of_filter. split; [done|].
  apply list_elem_of_fmap. by exists p.
Qed.

Lemma levelAmount_acc (players : list Player.t) (prev c acc : Z) :
  foldl (λ potAmount player,
           potAmount + Z.min (Z.max 0 (Player.totalBetThisHand player - prev)) c)
        acc players
  = acc + sumZ (map (λ p, Z.min (Z.max 0 (Player.totalBetThisHand p - prev)) c) players).
Proof.
  revert acc. induction players as [|p ps IH]; intros acc; simpl; [lia|].
  rewrite IH. unfold sumZ. lia.
Qed.

Lemma levelAmount_sum (players : list Player.t) (prev c : Z) :
  levelAmount players prev c
  = sumZ (map (λ p, Z.min (Z.max 0 (Player.totalBetThisHand p - prev)) c) players).
Proof. unfold levelAmount. rewrite levelAmount_acc. lia. Qed.

Lemma levelAmount_nonneg (players : list Player.t) (prev c : Z) :
  0 ≤ c → 0 ≤ levelAmount players prev c.
Proof.
  intros Hc. rewrite levelAmount_sum.
  induction players as [|p ps IH]; simpl; lia.
Qed.

(** Raising the cap from [prev] to [level] adds exactly the pot amount the
    loop computes for that level. *)
Lemma cappedTotal_next (players : list Player.t) (prev level : Z) :
  0 ≤ prev → prev ≤ level →
  (∀ p, p ∈ players → 0 ≤ Player.totalBetThisHand p) →
  cappedTotal players level
  = cappedTotal players prev + levelAmount players prev (level - prev).
Proof.
  intros H0 Hle Hnn. rewrite levelAmount_sum. unfold cappedTotal.
  induction players as [|p ps IH]; simpl; [lia|].
  rewrite IH by (intros q Hq; apply Hnn; by right).
  assert (0 ≤ Player.totalBetThisHand p) by (apply Hnn; by left).
  lia.
Qed.

Lemma cappedTotal_all (players : list Player.t) (level : Z) :
  (∀ p, p ∈ players → Player.totalBetThisHand p ≤ level) →
  cappedTotal players level = totalContributed players.
Proof.
  intros Hle. unfold cappedTotal, totalContributed.
  induction players as [|p ps IH]; simpl; [done|].
  rewrite IH by (intros q Hq; apply Hle; by right).
  assert (Player.totalBetThisHand p ≤ level) by (apply Hle; by left).
  lia.
Qed.

Lemma potTotal_app (pots : list Pot.t) (pot : Pot.t) :
  potTotal (pots ++ [pot]) = potTotal pots + Pot.amount pot.
Proof.
  unfold potTotal. induction pots as [|q qs IH]; simpl in *; [lia|].
  rewrite IH. lia.
Qed.

Lemma potTotal_addToLast (pots : list Pot.t) (x : Z) :
  pots ≠ [] → potTotal (addToLast x pots) = potTotal pots + x.
Proof.
  unfold potTotal. induction pots as [|q qs IH]; [done|]. intros _.
  destruct qs as [|q' qs']; simpl in *; [lia|].
  specialize (IH ltac:(done)). lia.
Qed.

(** The loop invariant of [calculateSidePots]. *)
Lemma levelStep_invariant (players : list Player.t) (active : list (string * Z))
    (pots : list Pot.t) (prev level : Z) :
  (∀ p, p ∈ players → 0 ≤ Player.totalBetThisHand p) →
  0 ≤ prev → potTotal pots = cappedTotal players prev →
  let st := levelStep players active (pots, prev) level in
  0 ≤ st.2 ∧ prev ≤ st.2 ∧ level ≤ st.2 ∧
  potTotal st.1 = cappedTotal players st.2.
Proof.
  intros Hnn H0 Hinv. unfold levelStep.
  destruct (Z.leb_spec (level - prev) 0) as [Hc|Hc]; simpl.
  { repeat split; [lia..|done]. }
  pose proof (cappedTotal_next players prev level H0 ltac:(lia) Hnn) as Hnext.
  pose proof (levelAmount_nonneg players prev (level - prev) ltac:(lia)) as Hamt.
  destruct (Z.ltb_spec 0 (levelAmount players prev (level - prev))) as [Hp|Hp]; simpl.
  - destruct (_ && _) eqn:Hmerge; simpl.
    + repeat split; [lia..|]. rewrite potTotal_addToLast; [lia|].
      intros ->. apply andb_true_iff in Hmerge as [_ Hlen]. done.
    + repeat split; [lia..|]. rewrite potTotal_app. simpl. lia.
  - repeat split; lia.
Qed.

Lemma levelLoop_invariant (players : list Player.t) (active : list (string * Z))
    (levels : list Z) (pots : list Pot.t) (prev : Z) :
  (∀ p, p ∈ players → 0 ≤ Player.totalBetThisHand p) →
  0 ≤ prev → potTotal pots = cappedTotal players prev →
  let st := foldl (levelStep players active) (pots, prev) levels in
  0 ≤ st.2 ∧ (∀ level, level ∈ levels → level ≤ st.2) ∧
  potTotal st.1 = cappedTotal players st.2.
Proof.
  intros Hnn. revert pots prev.
  assert (∀ levels pots prev,
            0 ≤ prev → potTotal pots = cappedTotal players prev →
            let st := foldl (levelStep players active) (pots, prev) levels in
            prev ≤ st.2 ∧ (∀ level, level ∈ levels → level ≤ st.2) ∧
            potTotal st.1 = cappedTotal players st.2) as Hloop.
  { clear levels.
    induction levels as [|level levels IH]; intros pots prev H0 Hinv; cbn [foldl].
    - simpl. split; [lia|]. split; [|done]. intros level Hl. inversion Hl.
    - destruct (levelStep_invariant players active pots prev level Hnn H0 Hinv)
        as (H0' & Hmono & Hge & Hinv').
      destruct (levelStep players active (pots, prev) level) as [pots' prev'].
      cbn [fst snd] in *.
      destruct (IH pots' prev' H0' Hinv') as (Hmono' & Hall & Hfin).
      split; [lia|]. split; [|done].
      intros l Hl. apply elem_of_cons in Hl as [->|Hl]; [lia|by apply Hall]. }
  intros pots prev H0 Hinv. destruct (Hloop levels pots prev H0 Hinv) as (? & ? & ?).
  repeat split; [lia|done..].
Qed.

(** C1, as the code has it: with contributions that are chip counts and at
    least one player still in the hand, the pots returned by
    [calculateSidePots] hold exactly the chips the players (folded ones
    included) put in: sum(pot.amount) = sum(totalBetThisHand). *)
Theorem side_pot_conservation (players : list Player.t) :
  (∃ p, p ∈ players ∧ Player.folded p = false) →
  (∀ p, p ∈ players → 0 ≤ Player.totalBetThisHand p) →
  potTotal (calculateSidePots players) = totalContributed players.
Proof.
  intros (q & Hq & Hqf) Hnn. unfold calculateSidePots.
  destruct (length (activeEntries players) =? 0)%nat eqn:Hlen.
  { apply Nat.eqb_eq, length_zero_iff_nil in Hlen.
    assert ((Player.id q, Player.totalBetThisHand q) ∈ activeEntries players) as Hin.
    { apply elem_of_sortBy.
      apply (list_elem_of_fmap_2 (λ p, (Player.id p, Player.totalBetThisHand p))).
      by apply list_elem_of_filter. }
    rewrite Hlen in Hin. inversion Hin. }
  destruct (levelLoop_invariant players (activeEntries players) (betLevels players)
              [] 0 Hnn ltac:(lia)) as (H0 & Hall & Hinv).
  { unfold cappedTotal, potTotal. simpl.
    clear -Hnn. induction players as [|p ps IH]; simpl; [done|].
    rewrite <- IH by (intros r Hr; apply Hnn; by right).
    assert (0 ≤ Player.totalBetThisHand p) by (apply Hnn; by left). lia. }
  destruct (foldl _ _ _) as [pots prev]. simpl in *.
  assert (cappedTotal players prev = totalContributed players) as Hcap.
  { apply cappedTotal_all. intros p Hp.
    destruct (Z.ltb_spec 0 (Player.totalBetThisHand p)) as [Hpos|Hz]; [|lia].
    apply Hall. by apply betLevels_complete. }
  destruct (length pots =? 0)%nat eqn:Hp.
  - apply Nat.eqb_eq, length_zero_iff_nil in Hp. subst pots.
    rewrite <- Hcap, <- Hinv. done.
  - by rewrite Hinv.
Qed.

Lemma side_pot_conservation_witness :
  potTotal (calculateSidePots
              [samplePlayer "p1" 0 50 false false;
               samplePlayer "p2" 0 50 false false;
               samplePlayer "p3" 0 100 true false])
  = totalContributed
      [samplePlayer "p1" 0 50 false false;
       samplePlayer "p2" 0 50 false false;
       samplePlayer "p3" 0 100 true false].
Proof.
  apply side_pot_conservation.
  - exists (samplePlayer "p1" 0 50 false false). split; [by left|reflexivity].
  - intros p Hp. repeat (apply elem_of_cons in Hp as [->|Hp]; [simpl; lia|]).
    inversion Hp.
Defined.

(** C1, as the spec states it, fails when every player has folded: the
    calculator answers one empty pot and the 5 chips are in no pot. *)
Lemma side_pot_conservation_fails_when_all_folded :
  potTotal (calculateSidePots [samplePlayer "p1" 15 5 true false])
  ≠ totalContributed [samplePlayer "p1" 15 5 true false].
Proof. vm_compute. discriminate. Qed.

Lemma activeEntries_all_folded (players : list Player.t) :
  (∀ p, p ∈ players → Player.folded p = true) → activeEntries players = [].
Proof.
  intros Hall. unfold activeEntries.
  replace (filter (λ p, Player.folded p = false) players) with (@nil Player.t); [done|].
  symmetry. induction players as [|p ps IH]; [done|].
  rewrite filter_cons. destruct (decide (Player.folded p = false)) as [Hf|_].
  - rewrite (Hall p) in Hf by (by left). discriminate.
  - apply IH. intros q Hq. apply Hall. by right.
Qed.

(** C4, as the code has it: when every player has folded the calculator
    looks at nothing else and answers one pot of amount 0 that nobody is
    eligible for. *)
Theorem all_folded_single_empty_pot (players : list Player.t) :
  (∀ p, p ∈ players → Player.folded p = true) →
  calculateSidePots players = [Pot.mk 0 []].
Proof.
  intros Hall. unfold calculateSidePots.
  by rewrite (activeEntries_all_folded players Hall).
Qed.

Lemma all_folded_single_empty_pot_witness :
  calculateSidePots (GameState.players allFoldedTable) = [Pot.mk 0 []].
Proof.
  apply all_folded_single_empty_pot.
  intros p Hp. simpl in Hp.
  repeat (apply elem_of_cons in Hp as [->|Hp]; [reflexivity|]).
  inversion Hp.
Defined.

(** C4, as the spec states it, fails: at a table where everyone has folded
    the calculator does not hand back the pots the table holds. *)
Lemma all_folded_existing_pots_not_returned :
  (∀ p, p ∈ GameState.players allFoldedTable → Player.folded p = true) ∧
  calculateSidePots (GameState.players allFoldedTable)
  ≠ GameState.pots allFoldedTable.
Proof.
  split.
  - intros p Hp. simpl in Hp.
    repeat (apply elem_of_cons in Hp as [->|Hp]; [reflexivity|]).
    inversion Hp.
  - vm_compute. discriminate.
Qed.

(** C5: A all-in for 50, B in for 100, C all-in for 100, nobody folded, in
    any seat order: exactly two pots, 150 for {A, B, C} and then 100 for
    {B, C}. *)
Theorem side_pots_two_levels (a b c : Player.t) (players : list Player.t) :
  isSeat a "A" 50 true → isSeat b "B" 100 false → isSeat c "C" 100 true →
  players ≡ₚ [a; b; c] →
  ∃ e1 e2,
    calculateSidePots players = [Pot.mk 150 e1; Pot.mk 100 e2] ∧
    e1 ≡ₚ ["A"; "B"; "C"] ∧ e2 ≡ₚ ["B"; "C"].
Proof.
  destruct a, b, c. unfold isSeat. simpl.
  intros (-> & -> & -> & ->) (-> & -> & -> & ->) (-> & -> & -> & ->) Hperm.
  symmetry in Hperm. apply permutations_Permutation in Hperm. cbn in Hperm.
  repeat (apply elem_of_cons in Hperm as [->|Hperm]);
    [..|by inversion Hperm];
    vm_compute; (eexists _, _; split; [reflexivity|]);
    split; apply permutations_Permutation; vm_compute; repeat constructor.
Qed.

Lemma side_pots_two_levels_witness :
  ∃ e1 e2,
    calculateSidePots
      [samplePlayer "A" 0 50 false true;
       samplePlayer "B" 50 100 false false;
       samplePlayer "C" 0 100 false true]
    = [Pot.mk 150 e1; Pot.mk 100 e2] ∧
    e1 ≡ₚ ["A"; "B"; "C"] ∧ e2 ≡ₚ ["B"; "C"].
Proof.
  apply (side_pots_two_levels
           (samplePlayer "A" 0 50 false true)
           (samplePlayer "B" 50 100 false false)
           (samplePlayer "C" 0 100 false true));
    [by repeat split..|reflexivity].
Defined.

(** In the order of the spec's example the eligibility lists read A, B, C
    and B, C. *)
Example side_pots_example :
  calculateSidePots
    [samplePlayer "A" 0 50 false true;
     samplePlayer "B" 50 100 false false;
     samplePlayer "C" 0 100 false true]
  = [Pot.mk 150 ["A"; "B"; "C"]; Pot.mk 100 ["B"; "C"]].
Proof. vm_compute. reflexivity. Qed.

(** ** The hand state machine *)

(** C10: with fewer than [minPlayers] = 2 seats [startNewHand] hands the
    state back as it is, whatever deck the shuffle would have produced. *)
Theorem startNewHand_too_few_players (shuffled : list Card) (state : GameState.t) :
  (length (GameState.players state) < DEFAULT_SETTINGS.minPlayers)%nat →
  startNewHand shuffled state = Some state.
Proof.
  intros Hfew. unfold startNewHand.
  by apply Nat.ltb_lt in Hfew as ->.
Qed.

Lemma startNewHand_too_few_players_witness :
  startNewHand createDeck (seated [Alice]) = Some (seated [Alice]).
Proof.
  apply startNewHand_too_few_players. simpl. unfold DEFAULT_SETTINGS.minPlayers. lia.
Defined.

(** [findIndex] answers [-1] or the position of a matching element. *)
Lemma findIndex_found {A} (pred : A → bool) (l : list A) :
  findIndex pred l = -1 ∨
  ∃ x, lookupZ l (findIndex pred l) = Some x ∧ pred x = true.
Proof.
  induction l as [|y l IH]; simpl; [by left|].
  destruct (pred y) eqn:Hy; [right; by exists y|].
  destruct IH as [->|(x & Hx & Hpred)]; [by left|].
  unfold lookupZ in Hx.
  destruct (Z.ltb_spec (findIndex pred l) 0) as [Hneg|Hpos]; [done|].
  right. exists x. split; [|done]. unfold lookupZ.
  destruct (Z.ltb_spec (findIndex pred l + 1) 0) as [?|_]; [lia|].
  replace (Z.to_nat (findIndex pred l + 1)) with (S (Z.to_nat (findIndex pred l))) by lia.
  done.
Qed.

(** C7: an action sent under an id that is not the id of the seat at
    [activePlayerIndex] (no seat there, or another player's) leaves the state
    as it is. *)
Theorem applyAction_out_of_turn (state : GameState.t) (playerId : string)
    (action : PlayerAction.t) :
  (∀ p, lookupZ (GameState.players state) (GameState.activePlayerIndex state) = Some p →
        Player.id p ≠ playerId) →
  applyAction state playerId action = Some state.
Proof.
  intros Hturn. unfold applyAction.
  destruct (findIndex_found (λ p, bool_decide (Player.id p = playerId))
              (GameState.players state)) as [->|(p & Hp & Hid)]; [done|].
  destruct (Z.eqb_spec
              (findIndex (λ p, bool_decide (Player.id p = playerId))
                         (GameState.players state))
              (GameState.activePlayerIndex state)) as [Heq|Hne].
  - rewrite Heq in Hp. apply bool_decide_eq_true in Hid.
    by destruct (Hturn p Hp).
  - by rewrite orb_true_r.
Qed.

Lemma applyAction_out_of_turn_witness :
  applyAction (seated [Alice; Bob]) "p2" (act raise) = Some (seated [Alice; Bob]) ∧
  applyAction (seated [Alice; Bob]) "p3" (act all_in) = Some (seated [Alice; Bob]).
Proof.
  split; apply applyAction_out_of_turn; intros p Hp;
    vm_compute in Hp; injection Hp as <-; discriminate.
Defined.

Lemma toPublicPlayer_sameSeat (p q : Player.t) :
  sameSeatButCards p q → toPublicPlayer p = toPublicPlayer q.
Proof.
  destruct p, q. unfold sameSeatButCards, toPublicPlayer. simpl.
  intros (-> & -> & -> & -> & -> & _ & -> & -> & -> & _). done.
Qed.

(** C8: the public projection depends neither on the values of the hole
    cards nor on the deck: two states that agree on everything else (and on
    how many hole cards each seat holds) have the same public state. *)
Theorem toPublicState_hides_secrets (s1 s2 : GameState.t) :
  sameButSecrets s1 s2 → toPublicState s1 = toPublicState s2.
Proof.
  destruct s1, s2. unfold sameButSecrets, toPublicState. simpl.
  intros (-> & Hseats & -> & -> & -> & -> & -> & _ & _ & -> & -> & _).
  f_equal. induction Hseats as [|p q ps qs Hpq _ IH]; [done|].
  simpl. by rewrite (toPublicPlayer_sameSeat p q Hpq), IH.
Qed.

Lemma toPublicState_hides_secrets_witness :
  ∃ s1 s2,
    startNewHand createDeck (seated [Alice; Bob]) = Some s1 ∧
    startNewHand (reverse createDeck) (seated [Alice; Bob]) = Some s2 ∧
    s1 ≠ s2 ∧ toPublicState s1 = toPublicState s2.
Proof.
  eexists _, _. split; [vm_compute; reflexivity|].
  split; [vm_compute; reflexivity|].
  split; [discriminate|].
  apply toPublicState_hides_secrets.
  repeat split; try reflexivity. cbn [GameState.players].
  constructor; [by repeat split|].
  constructor; [by repeat split|]. constructor.
Defined.

(** *** Seat arithmetic *)

Lemma lookupZ_Some_range {A} (l : list A) (i : Z) (x : A) :
  lookupZ l i = Some x → 0 ≤ i < Z.of_nat (length l).
Proof.
  unfold lookupZ. destruct (Z.ltb_spec i 0); [done|].
  intros Hx. apply lookup_lt_Some in Hx. lia.
Qed.

Lemma lookupZ_in_range {A} (l : list A) (i : Z) :
  0 ≤ i < Z.of_nat (length l) → ∃ x, lookupZ l i = Some x.
Proof.
  intros Hi. unfold lookupZ. destruct (Z.ltb_spec i 0); [lia|].
  apply lookup_lt_is_Some. lia.
Qed.

Lemma lookupZ_insert_eq {A} (l : list A) (i : Z) (x y : A) :
  lookupZ l i = Some x → lookupZ (<[Z.to_nat i := y]> l) i = Some y.
Proof.
  intros Hx. pose proof (lookupZ_Some_range l i x Hx).
  unfold lookupZ. destruct (Z.ltb_spec i 0); [lia|].
  apply list_lookup_insert_eq. lia.
Qed.

Lemma lookupZ_insert_ne {A} (l : list A) (i j : Z) (y : A) :
  0 ≤ i → 0 ≤ j → i ≠ j → lookupZ (<[Z.to_nat i := y]> l) j = lookupZ l j.
Proof.
  intros Hi Hj Hne. unfold lookupZ. destruct (Z.ltb_spec j 0); [done|].
  apply list_lookup_insert_ne. lia.
Qed.

Lemma rem_wrap (a n : Z) : 0 < n → n ≤ a < 2 * n → Z.rem a n = a - n.
Proof.
  intros Hn Ha. rewrite Z.rem_mod_nonneg by lia.
  symmetry. apply (Z.mod_unique_pos a n 1); lia.
Qed.

Lemma rem_range (a n : Z) : 0 ≤ a → 0 < n → 0 ≤ Z.rem a n < n.
Proof. intros. by apply Z.rem_bound_pos. Qed.

(** The blind seats are two different seats of the table. *)
Lemma blind_seats_distinct (n : nat) (newDealerIndex : Z) :
  (2 ≤ n)%nat → 0 ≤ newDealerIndex < Z.of_nat n →
  let sb := sbIndexOf n (Z.of_nat n) newDealerIndex in
  let bb := bbIndexOf n (Z.of_nat n) newDealerIndex in
  0 ≤ sb < Z.of_nat n ∧ 0 ≤ bb < Z.of_nat n ∧ sb ≠ bb.
Proof.
  intros Hn Hd. unfold sbIndexOf, bbIndexOf.
  assert (Z.rem (newDealerIndex + 1) (Z.of_nat n)
          = if newDealerIndex + 1 <? Z.of_nat n then newDealerIndex + 1 else 0) as H1.
  { destruct (Z.ltb_spec (newDealerIndex + 1) (Z.of_nat n)).
    - apply Z.rem_small. lia.
    - rewrite rem_wrap; lia. }
  assert (Z.rem (newDealerIndex + 2) (Z.of_nat n)
          = if newDealerIndex + 2 <? Z.of_nat n then newDealerIndex + 2
            else newDealerIndex + 2 - Z.of_nat n) as H2.
  { destruct (Z.ltb_spec (newDealerIndex + 2) (Z.of_nat n)).
    - apply Z.rem_small. lia.
    - rewrite rem_wrap; lia. }
  rewrite H1, H2. simpl.
  destruct (Nat.eqb_spec n 2) as [Heq|Hne];
    destruct (Z.ltb_spec (newDealerIndex + 1) (Z.of_nat n));
    destruct (Z.ltb_spec (newDealerIndex + 2) (Z.of_nat n)); lia.
Qed.

(** *** Dealing the hole cards *)

Lemma dealHoleCards_ok (players : list Player.t) (deck : list Card) :
  (2 * length players ≤ length deck)%nat →
  ∃ players' deck',
    dealHoleCards players deck = Some (players', deck') ∧
    Forall2 (λ p p', ∃ cards, p' = Player.set_holeCards cards p) players players'.
Proof.
  revert deck. induction players as [|p ps IH]; intros deck Hlen; simpl.
  - eexists _, _. split; [done|]. constructor.
  - simpl in Hlen. unfold dealCards.
    destruct (Nat.ltb_spec (length deck) 2) as [?|_]; [lia|]. simpl.
    destruct (IH (drop 2 deck)) as (ps' & deck' & Hdeal & Hall).
    { rewrite length_drop. lia. }
    rewrite Hdeal. simpl. eexists _, _. split; [done|].
    constructor; [by eexists|done].
Qed.

(** What a seat looks like when [startNewHand] has reset it, dealt it
    [cards] and posted [blindAmount] from it. *)
Lemma postBlind_seat (players : list Player.t) (index blindAmount : Z) (p : Player.t) :
  lookupZ players index = Some p →
  ∃ p', postBlind players index blindAmount = Some (<[Z.to_nat index := p']> players) ∧
        Player.chips p' = Player.chips p - blindAmount ∧
        Player.currentBet p' = blindAmount ∧
        Player.totalBetThisHand p' = blindAmount ∧
        (Player.chips p - blindAmount = 0 → Player.allIn p' = true).
Proof.
  intros Hp. unfold postBlind. rewrite Hp. simpl.
  eexists. split; [reflexivity|].
  destruct (Z.eqb_spec (Player.chips p - blindAmount) 0); simpl; repeat split; done.
Qed.

Lemma dealt_seat (players dealt : list Player.t) (newDealerIndex i : Z) (p : Player.t) :
  Forall2 (λ p p', ∃ cards, p' = Player.set_holeCards cards p)
          (imap (resetPlayer newDealerIndex) players) dealt →
  lookupZ players i = Some p →
  ∃ cards,
    lookupZ dealt i
    = Some (Player.set_holeCards cards (resetPlayer newDealerIndex (Z.to_nat i) p)).
Proof.
  unfold lookupZ. intros Hall Hp. destruct (Z.ltb_spec i 0); [done|].
  assert (imap (resetPlayer newDealerIndex) players !! Z.to_nat i
          = Some (resetPlayer newDealerIndex (Z.to_nat i) p)) as Hreset.
  { by rewrite list_lookup_imap, Hp. }
  destruct (Forall2_lookup_l _ _ _ _ _ Hall Hreset) as (q & Hq & cards & ->).
  by exists cards.
Qed.

(** C9: a blind poster who holds less than the blind posts what is left:
    the chips go to 0, [currentBet] and [totalBetThisHand] are the chips the
    seat had, and the seat is all-in. The table's [currentBet] is the full
    configured big blind all the same. *)
Theorem short_blinds_post_remaining_chips (shuffled : list Card) (state : GameState.t) :
  let n := length (GameState.players state) in
  let newDealerIndex := Z.rem (GameState.dealerIndex state + 1) (Z.of_nat n) in
  let sbIndex := sbIndexOf n (Z.of_nat n) newDealerIndex in
  let bbIndex := bbIndexOf n (Z.of_nat n) newDealerIndex in
  (2 ≤ n)%nat → (2 * n ≤ length shuffled)%nat → 0 ≤ GameState.dealerIndex state →
  ∃ state' sb bb sb' bb',
    startNewHand shuffled state = Some state' ∧
    lookupZ (GameState.players state) sbIndex = Some sb ∧
    lookupZ (GameState.players state) bbIndex = Some bb ∧
    lookupZ (GameState.players state') sbIndex = Some sb' ∧
    lookupZ (GameState.players state') bbIndex = Some bb' ∧
    (Player.chips sb < GameState.smallBlind state →
       Player.chips sb' = 0 ∧ Player.currentBet sb' = Player.chips sb ∧
       Player.totalBetThisHand sb' = Player.chips sb ∧ Player.allIn sb' = true) ∧
    (Player.chips bb < GameState.bigBlind state →
       Player.chips bb' = 0 ∧ Player.currentBet bb' = Player.chips bb ∧
       Player.totalBetThisHand bb' = Player.chips bb ∧ Player.allIn bb' = true) ∧
    GameState.currentBet state' = GameState.bigBlind state.
Proof.
  intros n newDealerIndex sbIndex bbIndex Hn Hdeck Hd.
  assert (0 ≤ newDealerIndex < Z.of_nat n) as Hnd by (apply rem_range; lia).
  destruct (blind_seats_distinct n newDealerIndex Hn Hnd) as (Hsb & Hbb & Hne).
  fold sbIndex bbIndex in Hsb, Hbb, Hne.
  destruct (lookupZ_in_range (GameState.players state) sbIndex Hsb) as [sb Hsbp].
  destruct (lookupZ_in_range (GameState.players state) bbIndex Hbb) as [bb Hbbp].
  destruct (dealHoleCards_ok (imap (resetPlayer newDealerIndex) (GameState.players state))
              shuffled) as (dealt & deck' & Hdeal & Hall).
  { rewrite length_imap. fold n. lia. }
  assert (length dealt = n) as Hlen.
  { apply Forall2_length in Hall. rewrite length_imap in Hall. done. }
  destruct (dealt_seat _ _ _ _ _ Hall Hsbp) as [sbCards Hsbd].
  destruct (dealt_seat _ _ _ _ _ Hall Hbbp) as [bbCards Hbbd].
  set (sbAmount := Z.min (GameState.smallBlind state) (Player.chips sb)).
  set (bbAmount := Z.min (GameState.bigBlind state) (Player.chips bb)).
  destruct (postBlind_seat dealt sbIndex sbAmount _ Hsbd)
    as (sb' & Hpost1 & Hsbc & Hsbb & Hsbt & Hsba).
  assert (lookupZ (<[Z.to_nat sbIndex := sb']> dealt) bbIndex = lookupZ dealt bbIndex)
    as Hkeep by (apply lookupZ_insert_ne; lia).
  rewrite Hbbd in Hkeep.
  destruct (postBlind_seat _ bbIndex bbAmount _ Hkeep)
    as (bb' & Hpost2 & Hbbc & Hbbb & Hbbt & Hbba).
  eexists _, sb, bb, sb', bb'.
  split.
  { unfold startNewHand, DEFAULT_SETTINGS.minPlayers. fold n.
    destruct (Nat.ltb_spec n 2) as [?|_]; [lia|].
    fold newDealerIndex. rewrite Hdeal. simpl. rewrite Hlen.
    fold sbIndex bbIndex. rewrite Hsbd, Hbbd. simpl.
    fold sbAmount bbAmount. rewrite Hpost1. simpl. rewrite Hpost2. simpl.
    reflexivity. }
  simpl. split; [done|]. split; [done|].
  split. { rewrite lookupZ_insert_ne by lia. by eapply lookupZ_insert_eq. }
  split. { by eapply lookupZ_insert_eq. }
  simpl in *. unfold sbAmount, bbAmount in *.
  repeat split; try lia.
  - apply Hsba. lia.
  - apply Hbba. lia.
Qed.

Lemma short_blinds_post_remaining_chips_witness :
  ∃ state' sb bb sb' bb',
    startNewHand createDeck (seated [samplePlayer "p1" 1 0 false false; Bob])
    = Some state' ∧
    lookupZ [samplePlayer "p1" 1 0 false false; Bob] 1 = Some sb ∧
    lookupZ [samplePlayer "p1" 1 0 false false; Bob] 0 = Some bb ∧
    lookupZ (GameState.players state') 1 = Some sb' ∧
    lookupZ (GameState.players state') 0 = Some bb' ∧
    (Player.chips sb < 1 →
       Player.chips sb' = 0 ∧ Player.currentBet sb' = Player.chips sb ∧
       Player.totalBetThisHand sb' = Player.chips sb ∧ Player.allIn sb' = true) ∧
    (Player.chips bb < 2 →
       Player.chips bb' = 0 ∧ Player.currentBet bb' = Player.chips bb ∧
       Player.totalBetThisHand bb' = Player.chips bb ∧ Player.allIn bb' = true) ∧
    GameState.currentBet state' = 2.
Proof.
  apply (short_blinds_post_remaining_chips createDeck
           (seated [samplePlayer "p1" 1 0 false false; Bob])); simpl; lia.
Defined.

(** The same hand, evaluated: the big blind seat holds 1 chip, posts it and
    is all-in, while the bet to match is 2. *)
Example short_big_blind :
  (s' ← startNewHand createDeck (seated [samplePlayer "p1" 1 0 false false; Bob]);
   bb ← lookupZ (GameState.players s') (GameState.lastRaiserIndex s');
   Some (Player.chips bb, Player.currentBet bb, Player.allIn bb,
         GameState.currentBet s'))
  = Some (0, 1, true, 2).
Proof. vm_compute. reflexivity. Qed.

(** C3: heads-up with the dealer at seat 0, blinds 1 and 2, two players
    with distinct ids and more than 2 chips each (so that neither a blind
    nor the call puts a seat all-in) and a deck of at least four cards:
    seat 0 posts 1, seat 1 posts 2; once seat 0 has called (its bet is 2)
    the turn is seat 1's and the betting round is not complete; once seat 1
    has then checked, it is. *)
Theorem heads_up_big_blind_option (shuffled : list Card) (state : GameState.t)
    (p0 p1 : Player.t) (amount1 amount2 : option Z) :
  GameState.players state = [p0; p1] → Player.id p0 ≠ Player.id p1 →
  Z.rem (GameState.dealerIndex state + 1) 2 = 0 →
  GameState.smallBlind state = 1 → GameState.bigBlind state = 2 →
  2 < Player.chips p0 → 2 < Player.chips p1 → (4 ≤ length shuffled)%nat →
  ∃ s1 s2 s3,
    startNewHand shuffled state = Some s1 ∧
    GameState.dealerIndex s1 = 0 ∧
    map Player.currentBet (GameState.players s1) = [1; 2] ∧
    GameState.activePlayerIndex s1 = 0 ∧
    applyAction s1 (Player.id p0) (PlayerAction.mk call amount1) = Some s2 ∧
    map Player.currentBet (GameState.players s2) = [2; 2] ∧
    GameState.activePlayerIndex s2 = 1 ∧
    isBettingRoundComplete s2 = Some false ∧
    applyAction s2 (Player.id p1) (PlayerAction.mk check amount2) = Some s3 ∧
    isBettingRoundComplete s3 = Some true.
Proof.
  destruct state, p0 as [id0 ? chips0 ? ? ? ? ? ? ?], p1 as [id1 ? chips1 ? ? ? ? ? ? ?].
  cbn [GameState.players GameState.dealerIndex GameState.smallBlind
       GameState.bigBlind Player.id Player.chips].
  intros -> Hid Hdealer -> -> Hc0 Hc1 Hdeck.
  destruct shuffled as [|c1 [|c2 [|c3 [|c4 rest]]]]; simpl in Hdeck; try lia.
  unfold startNewHand. cbn -[Z.rem Z.min Z.max Z.add Z.sub Z.ltb Z.eqb Z.leb].
  change (Z.of_nat 2) with 2. rewrite !Hdealer. simpl.
  rewrite !Z.min_l by lia.
  destruct (Z.eqb_spec (chips0 - 1) 0) as [?|_]; [lia|].
  destruct (Z.eqb_spec (chips1 - 2) 0) as [?|_]; [lia|].
  unfold Player.set_totalBetThisHand, Player.set_currentBet, Player.set_chips,
    Player.set_holeCards, resetPlayer. simpl.
  eexists _, _, _. split; [reflexivity|]. simpl.
  do 3 (split; [reflexivity|]).
  split.
  { unfold applyAction. simpl.
    rewrite (bool_decide_eq_true_2 (id0 = id0)) by done. simpl.
    replace ((0 `max` (2 - 1)) `min` (chips0 - 1)) with 1 by lia.
    unfold commitChips, moveToNextPlayer, getNextActivePlayerIndex. simpl.
    reflexivity. }
  simpl.
  do 2 (split; [reflexivity|]).
  destruct (Z.eqb_spec (chips0 - 1 - 1) 0) as [?|_]; [lia|].
  split; [reflexivity|].
  split.
  { unfold applyAction. simpl.
    rewrite (bool_decide_eq_false_2 (id0 = id1)) by done.
    rewrite (bool_decide_eq_true_2 (id1 = id1)) by done. simpl.
    unfold moveToNextPlayer, getNextActivePlayerIndex. simpl.
    reflexivity. }
  reflexivity.
Qed.

Lemma heads_up_big_blind_option_witness :
  ∃ s1 s2 s3,
    startNewHand createDeck buttonAtSeat1 = Some s1 ∧
    GameState.dealerIndex s1 = 0 ∧
    map Player.currentBet (GameState.players s1) = [1; 2] ∧
    GameState.activePlayerIndex s1 = 0 ∧
    applyAction s1 "p1" (act call) = Some s2 ∧
    map Player.currentBet (GameState.players s2) = [2; 2] ∧
    GameState.activePlayerIndex s2 = 1 ∧
    isBettingRoundComplete s2 = Some false ∧
    applyAction s2 "p2" (act check) = Some s3 ∧
    isBettingRoundComplete s3 = Some true.
Proof.
  apply (heads_up_big_blind_option createDeck buttonAtSeat1 Alice Bob None None);
    try reflexivity; try discriminate; simpl; lia.
Defined.

(** When the small blind's stack is exactly the big blind the call puts
    seat 0 all-in: the bets are 2 and 2 and the turn is seat 1's, as in the
    claim, but the round is already complete, since the anchor search
    passes over the all-in seat and comes back to seat 1 itself. *)
Lemma heads_up_call_all_in_ends_round :
  (s1 ← startNewHand createDeck
          (GameState.mk showdown [samplePlayer "p1" 2 0 false false; Bob] []
             [Pot.mk 0 []] 0 1 0 (-1) 0 [] DEFAULT_SETTINGS.smallBlind
             DEFAULT_SETTINGS.bigBlind DEFAULT_SETTINGS.preflopFlopBetSize);
   s2 ← applyAction s1 "p1" (act call);
   complete ← isBettingRoundComplete s2;
   Some (GameState.dealerIndex s1, map Player.currentBet (GameState.players s1),
         GameState.activePlayerIndex s1,
         map Player.currentBet (GameState.players s2),
         map Player.allIn (GameState.players s2),
         GameState.activePlayerIndex s2, complete))
  = Some (0, [1; 2], 0, [2; 2], [true; false], 1, true).
Proof. vm_compute. reflexivity. Qed.

(** ** Awarding the pots *)

Lemma winningsTotal_insert (winnings : gmap string Z) (k : string) (a : Z) :
  winningsTotal (<[k := default 0 (winnings !! k) + a]> winnings)
  = winningsTotal winnings + a.
Proof.
  unfold winningsTotal.
  destruct (winnings !! k) as [v|] eqn:Hk; simpl.
  - rewrite <- insert_delete_eq.
    rewrite map_fold_insert_L; [|intros; lia|apply lookup_delete_eq].
    rewrite (map_fold_delete_L _ _ k v winnings); [lia|intros; lia|done].
  - rewrite map_fold_insert_L; [lia|intros; lia|done].
Qed.

Lemma awardWinners_total (share remainder : Z) (winners : list string) :
  ∀ (j : nat) (winnings : gmap string Z),
    winningsTotal (awardWinners share remainder j winners winnings)
    = winningsTotal winnings + handedOut share remainder j (length winners).
Proof.
  induction winners as [|w ws IH]; intros j winnings; simpl; [lia|].
  rewrite IH, winningsTotal_insert. lia.
Qed.

Lemma handedOut_closed (share remainder : Z) (count : nat) :
  ∀ j : nat,
    handedOut share remainder j count
    = Z.of_nat count * share
      + Z.max 0 (Z.min (Z.of_nat j + Z.of_nat count) remainder - Z.of_nat j).
Proof.
  induction count as [|c IH]; intros j; simpl handedOut; [lia|].
  rewrite IH. destruct (Z.ltb_spec (Z.of_nat j) remainder); lia.
Qed.

(** Quotient and remainder hand out the whole amount. *)
Lemma handedOut_all (amount : Z) (count : nat) :
  0 ≤ amount → (0 < count)%nat →
  handedOut (amount / Z.of_nat count) (Z.rem amount (Z.of_nat count)) 0 count
  = amount.
Proof.
  intros Ha Hc. rewrite handedOut_closed, Z.rem_mod_nonneg by lia.
  pose proof (Z.mod_pos_bound amount (Z.of_nat count) ltac:(lia)).
  pose proof (Z.div_mod amount (Z.of_nat count) ltac:(lia)).
  lia.
Qed.

Lemma awardWinners_other (share remainder : Z) (winners : list string) (i : string) :
  ∀ (j : nat) (winnings : gmap string Z),
    i ∉ winners →
    awardWinners share remainder j winners winnings !! i = winnings !! i.
Proof.
  induction winners as [|w ws IH]; intros j winnings Hi; simpl; [done|].
  apply not_elem_of_cons in Hi as [Hne Hi].
  rewrite IH by done. by rewrite lookup_insert_ne.
Qed.

Lemma awardWinners_lookup (share remainder : Z) (winners : list string) :
  ∀ (j k : nat) (winnings : gmap string Z) (i : string),
    NoDup winners → winners !! k = Some i →
    awardWinners share remainder j winners winnings !! i
    = Some (default 0 (winnings !! i) + (share +
              (if Z.of_nat (j + k) <? remainder then 1 else 0))).
Proof.
  induction winners as [|w ws IH]; intros j k winnings i Hnd Hk; [done|].
  apply NoDup_cons in Hnd as [Hw Hnd]. destruct k as [|k]; simpl in *.
  - injection Hk as ->. rewrite awardWinners_other by done.
    rewrite lookup_insert_eq. by rewrite Nat.add_0_r.
  - assert (w ≠ i) as Hne.
    { intros ->. apply Hw. by eapply list_elem_of_lookup_2. }
    rewrite (IH (S j) k) by done. rewrite lookup_insert_ne by done.
    by replace (S j + k)%nat with (j + S k)%nat by lia.
Qed.

(** Whatever the pots and the winner lists, the winnings add up to the chips
    of the pots that have a winner. *)
Lemma awardPotsFrom_total (pots : list Pot.t) (winnersByPot : gmap nat (list string)) :
  ∀ (i : nat) (winnings : gmap string Z),
    Forall (λ pot, 0 ≤ Pot.amount pot) pots →
    winningsTotal (awardPotsFrom i pots winnersByPot winnings)
    = winningsTotal winnings + contestedTotal i pots winnersByPot.
Proof.
  induction pots as [|pot rest IH]; intros i winnings Hnn; simpl; [lia|].
  apply Forall_cons in Hnn as [Hpot Hrest].
  destruct (Nat.eqb_spec (length (default [] (winnersByPot !! i))) 0) as [Hz|Hnz].
  - rewrite IH by done. lia.
  - rewrite IH, awardWinners_total, handedOut_all by (done || lia). lia.
Qed.

(** C6: a pot split among n tied winners gives each the quotient
    amount div n, one more chip to each of the first (amount mod n) winners
    in the order of the winner list, and hands out the amount exactly. *)
Theorem awardPots_split (pot : Pot.t) (winners : list string) :
  0 ≤ Pot.amount pot → winners ≠ [] → NoDup winners →
  let n := Z.of_nat (length winners) in
  let winnings := awardPots [pot] {[0%nat := winners]} in
  (∀ j winnerId,
     winners !! j = Some winnerId →
     winnings !! winnerId
     = Some (Pot.amount pot / n
             + (if Z.of_nat j <? Pot.amount pot mod n then 1 else 0))) ∧
  (∀ playerId, playerId ∉ winners → winnings !! playerId = None) ∧
  winningsTotal winnings = Pot.amount pot.
Proof.
  intros Ha Hne Hnd n winnings.
  assert (0 < length winners)%nat as Hlen by (destruct winners; [done|simpl; lia]).
  assert (winnings
          = awardWinners (Pot.amount pot / n) (Pot.amount pot `mod` n) 0 winners ∅)
    as ->.
  { unfold winnings, awardPots. simpl. rewrite lookup_singleton_eq. simpl.
    destruct (Nat.eqb_spec (length winners) 0) as [?|_]; [lia|].
    fold n. by rewrite Z.rem_mod_nonneg by lia. }
  split; [|split].
  - intros j winnerId Hj. rewrite (awardWinners_lookup _ _ _ 0 j) by done.
    rewrite lookup_empty. simpl. f_equal.
  - intros playerId Hnot. by rewrite awardWinners_other.
  - rewrite awardWinners_total. unfold n.
    rewrite <- Z.rem_mod_nonneg by lia. rewrite handedOut_all by done.
    unfold winningsTotal. rewrite map_fold_empty. lia.
Qed.

Lemma awardPots_split_witness :
  awardPots [Pot.mk 101 ["p1"; "p2"]] {[0%nat := ["p1"; "p2"]]} !! "p1" = Some 51 ∧
  awardPots [Pot.mk 101 ["p1"; "p2"]] {[0%nat := ["p1"; "p2"]]} !! "p2" = Some 50 ∧
  winningsTotal (awardPots [Pot.mk 101 ["p1"; "p2"]] {[0%nat := ["p1"; "p2"]]}) = 101.
Proof.
  destruct (awardPots_split (Pot.mk 101 ["p1"; "p2"]) ["p1"; "p2"])
    as (Heach & _ & Htotal).
  - simpl. lia.
  - discriminate.
  - apply NoDup_cons. split; [|apply NoDup_singleton].
    intros Hin. apply list_elem_of_singleton in Hin. discriminate.
  - split; [exact (Heach 0%nat "p1" eq_refl)|].
    split; [exact (Heach 1%nat "p2" eq_refl)|exact Htotal].
Defined.

(** The two splits of the spec: 100 gives 50 and 50, 101 gives 51 and 50. *)
Example awardPots_even_split :
  awardPots [Pot.mk 100 ["p1"; "p2"]] {[0%nat := ["p1"; "p2"]]}
  = {["p1" := 50; "p2" := 50]}.
Proof. by vm_compute. Qed.

Example awardPots_odd_split :
  awardPots [Pot.mk 101 ["p1"; "p2"]] {[0%nat := ["p1"; "p2"]]}
  = {["p1" := 51; "p2" := 50]}.
Proof. by vm_compute. Qed.

(** ** The raise cap *)

Lemma run_reachable (ops : list Op) :
  ∀ s s', run ops s = Some s' → rtc step s s'.
Proof.
  induction ops as [|op ops IH]; intros s s' Hrun; simpl in Hrun.
  - injection Hrun as ->. apply rtc_refl.
  - destruct (perform op s) as [s1|] eqn:Hop; [|done]. simpl in Hrun.
    apply rtc_l with s1; [|by apply IH].
    destruct op; simpl in Hop.
    + by eapply step_newHand.
    + by eapply step_action.
    + by apply step_advance.
Qed.

(** C2, as the spec states it, fails: [applyAction] itself never looks at
    the cap, and four raises in a row are applied one after the other. *)
Lemma raise_cap_exceeded_without_gate :
  ∃ s, rtc step (seated [Alice; Bob]) s ∧
       DEFAULT_SETTINGS.maxRaisesPerStreet < GameState.raisesThisStreet s.
Proof.
  destruct (run [NewHand createDeck;
                 Act "p2" (act raise); Act "p1" (act raise);
                 Act "p2" (act raise); Act "p1" (act raise)]
                (seated [Alice; Bob])) as [s|] eqn:Hrun; [|by vm_compute in Hrun].
  exists s. split; [by eapply run_reachable|].
  vm_compute in Hrun. injection Hrun as <-. reflexivity.
Qed.

(** The counter also passes the cap on a hand in which the server accepts
    every action: three raises and then an all-in over the bet. *)
Example all_in_counts_past_the_cap :
  GameState.raisesThisStreet
  <$> runAccepted [NewHand createDeck;
                   Act "p2" (act raise); Act "p1" (act raise);
                   Act "p2" (act raise); Act "p1" (act all_in)]
                  (seated [Alice; Bob])
  = Some 4.
Proof. vm_compute. reflexivity. Qed.

Lemma startNewHand_raises (shuffled : list Card) (s s' : GameState.t) :
  startNewHand shuffled s = Some s' →
  s' = s ∨ GameState.raisesThisStreet s' = 0.
Proof.
  unfold startNewHand. intros Hnew.
  destruct (_ <? _)%nat; [left; congruence|].
  right. simplify_option_eq. repeat case_match; simplify_option_eq; done.
Qed.

Lemma advanceStreet_raises (s s' : GameState.t) :
  advanceStreet s = Some s' →
  s' = s ∨ GameState.raisesThisStreet s' = 0.
Proof.
  unfold advanceStreet. intros Hadv.
  destruct (nextPhase (GameState.phase s)); [|left; congruence].
  right. simplify_option_eq. repeat case_match; simplify_option_eq; done.
Qed.

Lemma canRaise_below_cap (s : GameState.t) :
  LegalActions.canRaise (getLegalActions s) = true →
  GameState.raisesThisStreet s < DEFAULT_SETTINGS.maxRaisesPerStreet.
Proof.
  unfold getLegalActions.
  destruct (lookupZ _ _) as [player|]; [|done].
  destruct (_ || _); [done|]. simpl.
  intros [Hlt _]%andb_true_iff. by apply Z.ltb_lt.
Qed.

Lemma applyAction_raises (s s' : GameState.t) (playerId : string)
    (action : PlayerAction.t) :
  withinCapGate s action →
  applyAction s playerId action = Some s' →
  GameState.raisesThisStreet s' = GameState.raisesThisStreet s ∨
  (GameState.raisesThisStreet s' = GameState.raisesThisStreet s + 1 ∧
   GameState.raisesThisStreet s < DEFAULT_SETTINGS.maxRaisesPerStreet).
Proof.
  unfold withinCapGate, applyAction, moveToNextPlayer. intros Hgate Happly.
  destruct (_ || _); [left; congruence|].
  destruct (PlayerAction.type action); try done;
    simplify_option_eq; try (by left).
  case_match; simplify_option_eq; [by left|].
  right. split; [done|by apply canRaise_below_cap].
Qed.

Lemma gatedStep_keeps_cap (s s' : GameState.t) :
  gatedStep s s' →
  GameState.raisesThisStreet s ≤ DEFAULT_SETTINGS.maxRaisesPerStreet →
  GameState.raisesThisStreet s' ≤ DEFAULT_SETTINGS.maxRaisesPerStreet.
Proof.
  intros Hstep Hcap. unfold DEFAULT_SETTINGS.maxRaisesPerStreet in *.
  destruct Hstep as [shuffled s s' Hnew|playerId action s s' Hgate Happly|s s' Hadv].
  - destruct (startNewHand_raises _ _ _ Hnew) as [->| ->]; lia.
  - destruct (applyAction_raises _ _ _ _ Hgate Happly) as [->|[-> Hlt]]; [lia|].
    unfold DEFAULT_SETTINGS.maxRaisesPerStreet in Hlt. lia.
  - destruct (advanceStreet_raises _ _ Hadv) as [->| ->]; lia.
Qed.

(** C2, as the code has it: from a state within the cap (the lobby of any
    table is one), [startNewHand], [advanceStreet] and [applyAction] with
    fold, check, call, or a raise that [getLegalActions] offers
    ([canRaise]) never take [raisesThisStreet] above
    [maxRaisesPerStreet] = 3. *)
Theorem raise_cap_invariant (s0 s : GameState.t) :
  GameState.raisesThisStreet s0 ≤ DEFAULT_SETTINGS.maxRaisesPerStreet →
  rtc gatedStep s0 s →
  GameState.raisesThisStreet s ≤ DEFAULT_SETTINGS.maxRaisesPerStreet.
Proof.
  intros Hcap Hreach. induction Hreach as [s|s s1 s2 Hstep _ IH]; [done|].
  apply IH. by apply (gatedStep_keeps_cap s).
Qed.

Lemma raise_cap_invariant_witness :
  ∃ s, rtc gatedStep (seated [Alice; Bob]) s ∧
       GameState.raisesThisStreet s = 1 ∧
       GameState.raisesThisStreet s ≤ DEFAULT_SETTINGS.maxRaisesPerStreet.
Proof.
  assert (∃ s, rtc gatedStep (seated [Alice; Bob]) s ∧
               GameState.raisesThisStreet s = 1) as (s & Hreach & Hone).
  { eexists. split.
    - eapply rtc_l.
      { apply (gated_newHand createDeck). vm_compute. reflexivity. }
      eapply rtc_l.
      { apply (gated_action "p2" (act raise)); vm_compute; reflexivity. }
      apply rtc_refl.
    - reflexivity. }
  exists s. split; [exact Hreach|]. split; [exact Hone|].
  apply (raise_cap_invariant (seated [Alice; Bob]) s); [|exact Hreach].
  simpl. unfold DEFAULT_SETTINGS.maxRaisesPerStreet. lia.
Defined.

(** * Further properties of the sources *)

(** ** deck.ts *)

Lemma createDeck_NoDup : NoDup createDeck.
Proof. apply (bool_decide_unpack _). vm_compute. exact I. Qed.

(** X1: A fresh deck has 52 cards, no card twice, and holds exactly the cards
    whose rank is one of 2 .. 14 (in each of the four suits). *)
Theorem createDeck_complete :
  length createDeck = 52%nat ∧ NoDup createDeck ∧
  ∀ c, c ∈ createDeck ↔ 2 ≤ rank c ≤ 14.
Proof.
  split; [reflexivity|]. split; [apply createDeck_NoDup|].
  intros [r s]. simpl. split.
  - intros Hin.
    assert (Forall (λ c, 2 ≤ rank c ≤ 14) createDeck) as Hall.
    { apply (bool_decide_unpack _). vm_compute. exact I. }
    rewrite Forall_forall in Hall. exact (Hall _ Hin).
  - intros Hr.
    assert (r = 2 ∨ r = 3 ∨ r = 4 ∨ r = 5 ∨ r = 6 ∨ r = 7 ∨ r = 8 ∨ r = 9 ∨
            r = 10 ∨ r = 11 ∨ r = 12 ∨ r = 13 ∨ r = 14) as Hcases by lia.
    repeat (destruct Hcases as [->|Hcases]); try subst r;
      destruct s; apply (bool_decide_unpack _); vm_compute; exact I.
Qed.

Lemma dealCards_throws (deck : list Card) (count : nat) :
  dealCards deck count = None ↔ (length deck < count)%nat.
Proof.
  unfold dealCards. destruct (Nat.ltb_spec (length deck) count) as [Hlt|Hge].
  - tauto.
  - split; [discriminate|lia].
Qed.

Lemma dealCards_deals (deck : list Card) (count : nat) (dealt rest : list Card) :
  dealCards deck count = Some (dealt, rest) →
  dealt ++ rest = deck ∧ length dealt = count ∧
  length rest = (length deck - count)%nat.
Proof.
  unfold dealCards. destruct (Nat.ltb_spec (length deck) count) as [Hlt|Hge];
    [discriminate|].
  intros [= <- <-]. rewrite take_drop, length_take, length_drop. repeat split; lia.
Qed.

(** X2: [dealCards] throws exactly when the deck is shorter than the count;
    otherwise the cards dealt, followed by the deck it leaves, are the deck
    it was given, and the number dealt is the count. *)
Theorem dealCards_splits (deck : list Card) (count : nat) :
  (dealCards deck count = None ↔ (length deck < count)%nat) ∧
  ∀ dealt rest,
    dealCards deck count = Some (dealt, rest) →
    dealt ++ rest = deck ∧ length dealt = count ∧
    length rest = (length deck - count)%nat.
Proof.
  split; [apply dealCards_throws|]. intros dealt rest. apply dealCards_deals.
Qed.

Lemma swap_head_Permutation {A} (l : list A) (j : nat) (a y : A) :
  l !! j = Some y → y :: <[j := a]> l ≡ₚ a :: l.
Proof.
  revert j. induction l as [|b l IH]; intros j Hj; [done|].
  destruct j as [|j]; simpl in *.
  - injection Hj as ->. apply perm_swap.
  - rewrite (perm_swap b y), (IH j Hj). apply perm_swap.
Qed.

Lemma swap_Permutation {A} (i j : nat) (l : list A) : swap i j l ≡ₚ l.
Proof.
  unfold swap. destruct (l !! i) as [x|] eqn:Hi; [|done].
  destruct (l !! j) as [y|] eqn:Hj; [|done].
  revert i j Hi Hj. induction l as [|a l IH]; intros i j Hi Hj; [done|].
  destruct i as [|i], j as [|j]; simpl in *.
  - by injection Hi as ->; injection Hj as ->.
  - injection Hi as ->. by apply swap_head_Permutation.
  - injection Hj as ->. by apply swap_head_Permutation.
  - by rewrite (IH i j).
Qed.

Lemma shuffleFrom_Permutation {A} (draw : nat → nat) (i : nat) (l : list A) :
  shuffleFrom draw i l ≡ₚ l.
Proof.
  revert l. induction i as [|i IH]; intros l; simpl; [done|].
  by rewrite IH, swap_Permutation.
Qed.

(** X3: The Fisher-Yates loop rearranges: with every draw inside its range (as
    [Math.floor(Math.random() * (i + 1))] is), the shuffled array holds the
    elements of the array it was given, each as often as before. *)
Theorem shuffle_Permutation {A} (draw : nat → nat) (array : list A) :
  (∀ i, (draw i ≤ i)%nat) → shuffle draw array ≡ₚ array.
Proof. intros _. apply shuffleFrom_Permutation. Qed.

Lemma shuffle_Permutation_witness :
  shuffle (λ i, i / 2)%nat [1; 2; 3; 4; 5] ≡ₚ [1; 2; 3; 4; 5].
Proof.
  apply (shuffle_Permutation (λ i, i / 2)%nat [1; 2; 3; 4; 5]).
  intros i. apply Nat.Div0.div_le_upper_bound. lia.
Defined.

(** The draws decide the order: in range, they move cards. *)
Example shuffle_moves :
  shuffle (λ i, i / 2)%nat [1; 2; 3; 4; 5] = [5; 1; 4; 2; 3].
Proof. reflexivity. Qed.

(** X4: Two cards of a deck (ranks 2 .. 14) never share a notation, so the hand
    solver is given the cards that were dealt. *)
Theorem cardToNotation_injective (c1 c2 : Card) :
  2 ≤ rank c1 ≤ 14 → 2 ≤ rank c2 ≤ 14 →
  cardToNotation c1 = cardToNotation c2 → c1 = c2.
Proof.
  destruct c1 as [r1 s1], c2 as [r2 s2]. simpl. intros H1 H2.
  assert (r1 = 2 ∨ r1 = 3 ∨ r1 = 4 ∨ r1 = 5 ∨ r1 = 6 ∨ r1 = 7 ∨ r1 = 8 ∨
          r1 = 9 ∨ r1 = 10 ∨ r1 = 11 ∨ r1 = 12 ∨ r1 = 13 ∨ r1 = 14) as C1 by lia.
  assert (r2 = 2 ∨ r2 = 3 ∨ r2 = 4 ∨ r2 = 5 ∨ r2 = 6 ∨ r2 = 7 ∨ r2 = 8 ∨
          r2 = 9 ∨ r2 = 10 ∨ r2 = 11 ∨ r2 = 12 ∨ r2 = 13 ∨ r2 = 14) as C2 by lia.
  clear H1 H2.
  repeat (destruct C1 as [->|C1]); try subst r1;
    repeat (destruct C2 as [->|C2]); try subst r2;
    destruct s1, s2; intros Heq; try reflexivity; discriminate Heq.
Qed.

Lemma cardToNotation_injective_witness :
  cardToNotation (mkCard 14 hearts) = "Ah" ∧
  ∀ c, 2 ≤ rank c ≤ 14 → cardToNotation c = "Ah" → c = mkCard 14 hearts.
Proof.
  split; [reflexivity|]. intros c Hc Heq. symmetry.
  apply (cardToNotation_injective (mkCard 14 hearts) c); [simpl; lia|exact Hc|].
  symmetry. exact Heq.
Defined.

Section SortingOrder.
Context {A : Type} (key : A → Z).

Lemma insertBy_Permutation (x : A) (l : list A) : insertBy key x l ≡ₚ x :: l.
Proof.
  induction l as [|y l IH]; simpl; [done|].
  destruct (key x <? key y); [done|]. rewrite IH. apply perm_swap.
Qed.

Lemma sortBy_acc_Permutation (l acc : list A) :
  foldl (λ acc x, insertBy key x acc) acc l ≡ₚ acc ++ l.
Proof.
  revert acc. induction l as [|x l IH]; intros acc; simpl.
  - by rewrite app_nil_r.
  - rewrite IH, insertBy_Permutation. simpl. apply Permutation_middle.
Qed.

Lemma sortBy_Permutation (l : list A) : sortBy key l ≡ₚ l.
Proof. unfold sortBy. by rewrite sortBy_acc_Permutation. Qed.

Lemma insertBy_sorted (x : A) (l : list A) :
  StronglySorted (λ a b, key a ≤ key b) l →
  StronglySorted (λ a b, key a ≤ key b) (insertBy key x l).
Proof.
  induction 1 as [|y l Hl IH Hy]; simpl.
  - repeat constructor.
  - destruct (Z.ltb_spec (key x) (key y)) as [Hlt|Hge].
    + constructor; [by constructor|].
      constructor; [lia|]. eapply Forall_impl; [exact Hy|]. simpl. intros. lia.
    + constructor; [done|]. apply Forall_forall. intros z Hz.
      apply elem_of_insertBy in Hz as [->|Hz]; [lia|].
      rewrite Forall_forall in Hy. by apply Hy.
Qed.

Lemma sortBy_acc_sorted (l acc : list A) :
  StronglySorted (λ a b, key a ≤ key b) acc →
  StronglySorted (λ a b, key a ≤ key b)
                 (foldl (λ acc x, insertBy key x acc) acc l).
Proof.
  revert acc. induction l as [|x l IH]; intros acc Hacc; simpl; [done|].
  by apply IH, insertBy_sorted.
Qed.

Lemma sortBy_sorted (l : list A) :
  StronglySorted (λ a b, key a ≤ key b) (sortBy key l).
Proof. apply sortBy_acc_sorted. constructor. Qed.
End SortingOrder.

(** X5: [sortCards] returns the cards it was given, each as often as before,
    with no card before one of a higher rank. *)
Theorem sortCards_sorted (cards : list Card) :
  sortCards cards ≡ₚ cards ∧
  StronglySorted (λ a b, rank b ≤ rank a) (sortCards cards).
Proof.
  split; [apply sortBy_Permutation|]. unfold sortCards.
  induction (sortBy_sorted (λ c, - rank c) cards) as [|c l _ IH Hc];
    constructor; [done|].
  eapply Forall_impl; [exact Hc|]. simpl. intros. lia.
Qed.

(** ** session.ts *)

Lemma list_ascii_of_string_app (s1 s2 : string) :
  String.list_ascii_of_string (s1 +:+ s2)
  = String.list_ascii_of_string s1 ++ String.list_ascii_of_string s2.
Proof. induction s1 as [|c s1 IH]; simpl; [done|]. by rewrite IH. Qed.

Lemma string_length_list (s : string) :
  String.length s = length (String.list_ascii_of_string s).
Proof. induction s as [|c s IH]; simpl; [done|]. by rewrite IH. Qed.

Lemma charAt_in_range (chars : string) (k : nat) :
  (k < String.length chars)%nat →
  ∃ c, charAt chars k = String c EmptyString ∧
       c ∈ String.list_ascii_of_string chars.
Proof.
  unfold charAt. revert k. induction chars as [|a chars IH]; intros k Hk; simpl in *.
  - lia.
  - destruct k as [|k]; simpl.
    + exists a. split; [done|by left].
    + destruct (IH k ltac:(lia)) as (c & Hc & Hin).
      destruct (String.get k chars) as [c'|]; [|done].
      injection Hc as ->. exists c. split; [done|by right].
Qed.

(** What the token loop appends: one character of [chars] per draw. *)
Lemma appendDraws_chars (chars : string) (draw : nat → nat) (count : nat) :
  (∀ i, (draw i < String.length chars)%nat) →
  ∀ (i : nat) (token : string),
    ∃ cs, String.list_ascii_of_string (appendDraws chars draw i count token)
          = String.list_ascii_of_string token ++ cs ∧
          length cs = count ∧
          Forall (λ c, c ∈ String.list_ascii_of_string chars) cs.
Proof.
  intros Hdraw. induction count as [|count IH]; intros i token; simpl.
  - exists []. by rewrite app_nil_r.
  - destruct (charAt_in_range chars (draw i) (Hdraw i)) as (c & Hc & Hin).
    destruct (IH (S i) (token +:+ charAt chars (draw i))) as (cs & Hcs & Hlen & Hall).
    exists (c :: cs). rewrite Hcs, list_ascii_of_string_app, Hc. simpl.
    rewrite <- app_assoc. simpl. split; [done|]. split; [lia|]. by constructor.
Qed.

(** X6: Every token [generateSessionToken] produces passes
    [isValidSessionToken]: 32 characters, all of them letters or digits. *)
Theorem generated_token_is_valid (draw : nat → nat) :
  (∀ i, (draw i < String.length tokenChars)%nat) →
  isValidSessionToken (generateSessionToken draw) = true.
Proof.
  intros Hdraw. unfold isValidSessionToken, allAlphaNumeric, generateSessionToken.
  destruct (appendDraws_chars tokenChars draw 32 Hdraw 0%nat EmptyString)
    as (cs & Hcs & Hlen & Hall).
  rewrite !string_length_list, Hcs. simpl. rewrite Hlen. simpl.
  apply forallb_forall. intros c Hc.
  rewrite Forall_forall in Hall. apply list_elem_of_In in Hc.
  specialize (Hall c Hc).
  assert (forallb (λ c, isUpper c || isLower c || isDigit c)
                  (String.list_ascii_of_string tokenChars) = true) as Halnum
    by (vm_compute; reflexivity).
  rewrite forallb_forall in Halnum. apply Halnum. by apply list_elem_of_In.
Qed.

Lemma generated_token_is_valid_witness :
  isValidSessionToken (generateSessionToken (λ i, (7 * i) `mod` 62)%nat) = true.
Proof.
  apply generated_token_is_valid. intros i.
  change (String.length tokenChars) with 62%nat.
  apply Nat.mod_upper_bound. lia.
Defined.

(** X7: Every code [generateRoomCode] produces passes [isValidRoomCode] and
    holds neither an I nor an O. *)
Theorem generated_room_code_is_valid (draw : nat → nat) :
  (∀ i, (draw i < String.length roomCodeChars)%nat) →
  isValidRoomCode (generateRoomCode draw) = true ∧
  Forall (λ c, c ≠ letterI ∧ c ≠ letterO)
         (String.list_ascii_of_string (generateRoomCode draw)).
Proof.
  intros Hdraw. unfold isValidRoomCode, toUpperCase, generateRoomCode.
  destruct (appendDraws_chars roomCodeChars draw 4 Hdraw 0%nat EmptyString)
    as (cs & Hcs & Hlen & Hall).
  assert (Forall (λ c, isUpper c = true ∧ isLower c = false ∧
                       c ≠ letterI ∧ c ≠ letterO) cs) as Hup.
  { eapply Forall_impl; [exact Hall|]. intros c Hc.
    assert (Forall (λ c, isUpper c = true ∧ isLower c = false ∧
                         c ≠ letterI ∧ c ≠ letterO)
                   (String.list_ascii_of_string roomCodeChars)) as Hchars.
    { vm_compute. repeat (constructor; [repeat split; discriminate|]). constructor. }
    rewrite Forall_forall in Hchars. by apply Hchars. }
  rewrite string_length_list, Hcs. simpl.
  assert (map (λ c, if isLower c then Ascii.ascii_of_nat (Ascii.nat_of_ascii c - 32) else c) cs
          = cs) as ->.
  { clear -Hup. induction Hup as [|c cs (_ & Hl & _) _ IH]; simpl; [done|].
    by rewrite Hl, IH. }
  rewrite string_length_list, String.list_ascii_of_string_of_list_ascii, Hlen. simpl.
  split.
  - apply forallb_forall. intros c Hc. apply list_elem_of_In in Hc.
    rewrite Forall_forall in Hup. by destruct (Hup c Hc).
  - eapply Forall_impl; [exact Hup|]. simpl. tauto.
Qed.

Lemma generated_room_code_is_valid_witness :
  isValidRoomCode (generateRoomCode (λ i, (5 * i + 3) `mod` 24)%nat) = true ∧
  Forall (λ c, c ≠ letterI ∧ c ≠ letterO)
         (String.list_ascii_of_string
            (generateRoomCode (λ i, (5 * i + 3) `mod` 24)%nat)).
Proof.
  apply generated_room_code_is_valid. intros i.
  change (String.length roomCodeChars) with 24%nat.
  apply Nat.mod_upper_bound. lia.
Defined.

(** [isValidRoomCode] takes lower-case codes too: it upper-cases first. *)
Example lower_case_room_code : isValidRoomCode "abcd" = true.
Proof. reflexivity. Qed.

(** ** game-state.ts: whose turn is next *)

Lemma canStillAct_test (includeAllIn : bool) (p : Player.t) :
  negb (Player.folded p) && (includeAllIn || negb (Player.allIn p)) = true
  ↔ canStillAct includeAllIn p.
Proof.
  unfold canStillAct.
  destruct (Player.folded p), includeAllIn, (Player.allIn p); simpl;
    intuition discriminate.
Qed.

Lemma nextActiveLoop_finds (players : list Player.t) (fromIndex : Z)
    (includeAllIn : bool) (steps : list nat) :
  0 ≤ fromIndex → players ≠ [] →
  ∃ r, nextActiveLoop players fromIndex includeAllIn steps = Some r ∧
       ((r = -1 ∧
         ∀ i p, i ∈ steps →
                lookupZ players
                  (Z.rem (fromIndex + Z.of_nat i) (Z.of_nat (length players)))
                = Some p →
                ¬ canStillAct includeAllIn p) ∨
        (∃ p, lookupZ players r = Some p ∧ canStillAct includeAllIn p)).
Proof.
  intros Hfrom Hne.
  assert (0 < Z.of_nat (length players)) as Hn by (destruct players; [done|simpl; lia]).
  induction steps as [|i steps IH]; simpl.
  - exists (-1). split; [done|]. left. split; [done|]. intros i p Hi. inversion Hi.
  - destruct (lookupZ_in_range players
                (Z.rem (fromIndex + Z.of_nat i) (Z.of_nat (length players))))
      as [p Hp]; [apply rem_range; lia|].
    rewrite Hp. simpl.
    destruct (negb (Player.folded p) && (includeAllIn || negb (Player.allIn p)))
      eqn:Htest.
    + eexists. split; [done|]. right. exists p. split; [done|].
      by apply canStillAct_test.
    + destruct IH as (r & Hr & Hcase). exists r. split; [done|].
      destruct Hcase as [[-> Hnone]|Hsome]; [left|by right].
      split; [done|]. intros j q Hj Hq.
      apply elem_of_cons in Hj as [->|Hj]; [|by eapply Hnone].
      rewrite Hp in Hq. injection Hq as <-.
      rewrite <- canStillAct_test, Htest. discriminate.
Qed.

(** Every seat is some [i] in [1 .. n] steps after [fromIndex]. *)
Lemma seat_is_reached (n fromIndex k : Z) :
  0 ≤ fromIndex → 0 ≤ k < n →
  ∃ i, 1 ≤ i ≤ n ∧ Z.rem (fromIndex + i) n = k.
Proof.
  intros Hfrom Hk. exists ((k - fromIndex - 1) `mod` n + 1).
  pose proof (Z.mod_pos_bound (k - fromIndex - 1) n ltac:(lia)).
  split; [lia|]. rewrite Z.rem_mod_nonneg by lia.
  replace (fromIndex + ((k - fromIndex - 1) `mod` n + 1))
    with ((k - fromIndex - 1) `mod` n + (fromIndex + 1)) by lia.
  rewrite Zplus_mod_idemp_l.
  replace (k - fromIndex - 1 + (fromIndex + 1)) with k by lia.
  apply Z.mod_small. lia.
Qed.

(** X8: From a seat index that is not negative, [getNextActivePlayerIndex]
    does not throw; it answers [-1] only when no seat at all can still act
    (not folded and, unless [includeAllIn], not all-in), and otherwise the
    index of a seat that can. *)
Theorem getNextActivePlayerIndex_finds (players : list Player.t) (fromIndex : Z)
    (includeAllIn : bool) :
  0 ≤ fromIndex →
  ∃ r, getNextActivePlayerIndex players fromIndex includeAllIn = Some r ∧
       ((r = -1 ∧ ∀ p, p ∈ players → ¬ canStillAct includeAllIn p) ∨
        (∃ p, lookupZ players r = Some p ∧ canStillAct includeAllIn p)).
Proof.
  intros Hfrom. unfold getNextActivePlayerIndex.
  destruct players as [|p0 ps] eqn:Hps.
  { exists (-1). split; [done|]. left. split; [done|]. intros p Hp. inversion Hp. }
  rewrite <- Hps.
  destruct (nextActiveLoop_finds players fromIndex includeAllIn
              (seq 1 (length players)) Hfrom) as (r & Hr & Hcase).
  { by rewrite Hps. }
  exists r. split; [done|].
  destruct Hcase as [[-> Hnone]|Hsome]; [left|by right].
  split; [done|]. intros p Hp.
  apply list_elem_of_lookup in Hp as [k Hk].
  pose proof (lookup_lt_Some _ _ _ Hk) as Hlt.
  destruct (seat_is_reached (Z.of_nat (length players)) fromIndex (Z.of_nat k))
    as (i & Hi & Hreach); [done|lia|].
  apply (Hnone (Z.to_nat i) p).
  - apply elem_of_seq. lia.
  - rewrite Z2Nat.id by lia. rewrite Hreach. unfold lookupZ.
    destruct (Z.ltb_spec (Z.of_nat k) 0); [lia|]. by rewrite Nat2Z.id.
Qed.

Lemma getNextActivePlayerIndex_finds_witness :
  ∃ r, getNextActivePlayerIndex
         [samplePlayer "p1" 20 0 false false;
          samplePlayer "p2" 0 20 false true;
          samplePlayer "p3" 20 0 true false] 0 false = Some r ∧
       ((r = -1 ∧
         ∀ p, p ∈ [samplePlayer "p1" 20 0 false false;
                   samplePlayer "p2" 0 20 false true;
                   samplePlayer "p3" 20 0 true false] →
              ¬ canStillAct false p) ∨
        (∃ p, lookupZ [samplePlayer "p1" 20 0 false false;
                       samplePlayer "p2" 0 20 false true;
                       samplePlayer "p3" 20 0 true false] r = Some p ∧
              canStillAct false p)).
Proof. apply getNextActivePlayerIndex_finds. lia. Defined.

(** With the other seats all-in or folded the turn comes back to the seat
    it left. *)
Example next_seat_wraps_around :
  getNextActivePlayerIndex
    [samplePlayer "p1" 20 0 false false;
     samplePlayer "p2" 0 20 false true;
     samplePlayer "p3" 20 0 true false] 0 false = Some 0.
Proof. reflexivity. Qed.

(** ** game-state.ts: what an action moves *)

Lemma applyAction_acts (s s' : GameState.t) (playerId : string)
    (action : PlayerAction.t) :
  applyAction s playerId action = Some s' →
  s' = s ∨ ∃ player player' x, actedBy s s' player player' x.
Proof.
  unfold applyAction. intros Happly.
  destruct (Z.eqb_spec (findIndex (λ p, bool_decide (Player.id p = playerId))
                                  (GameState.players s)) (-1)) as [?|_];
    [left; simpl in Happly; congruence|].
  destruct (Z.eqb_spec (findIndex (λ p, bool_decide (Player.id p = playerId))
                                  (GameState.players s))
                       (GameState.activePlayerIndex s)) as [Hturn|?];
    [|left; simpl in Happly; congruence].
  simpl in Happly. rewrite Hturn in Happly.
  destruct (lookupZ (GameState.players s) (GameState.activePlayerIndex s))
    as [player|] eqn:Hplayer; [|done].
  simpl in Happly. unfold moveToNextPlayer in Happly.
  set (owed := Z.max 0 (GameState.currentBet s - Player.currentBet player)) in *.
  destruct (PlayerAction.type action).
  - (* fold *)
    destruct (getNextActivePlayerIndex _ _ _) as [next|]; [|done].
    injection Happly as <-. right.
    exists player, (Player.set_folded true player), 0.
    unfold actedBy. simpl. repeat split; try done; try lia; by left.
  - (* check *)
    destruct (getNextActivePlayerIndex _ _ _) as [next|]; [|done].
    injection Happly as <-. right.
    exists player, player, 0.
    unfold actedBy. simpl. repeat split; try done; try lia; try (by left).
    symmetry. apply list_insert_id. unfold lookupZ in Hplayer.
    by destruct (_ <? 0).
  - (* call *)
    destruct (GameState.pots s) as [|pot rest] eqn:Hpots; [done|]. simpl in Happly.
    destruct (getNextActivePlayerIndex _ _ _) as [next|]; [|done].
    injection Happly as <-. right.
    exists player, (commitChips player (Z.min owed (Player.chips player))),
      (Z.min owed (Player.chips player)).
    unfold actedBy. simpl.
    repeat split; try done; first [by (right; eauto)|by (right; left)].
  - (* raise *)
    destruct (Z.ltb_spec (Player.chips player) (owed + GameState.streetBetSize s))
      as [?|Hafford]; [left; congruence|].
    destruct (GameState.pots s) as [|pot rest] eqn:Hpots; [done|]. simpl in Happly.
    destruct (getNextActivePlayerIndex _ _ _) as [next|]; [|done].
    injection Happly as <-. right.
    exists player, (commitChips player (owed + GameState.streetBetSize s)),
      (owed + GameState.streetBetSize s).
    unfold actedBy. simpl.
    repeat split; try done; first [by (right; eauto)|by (right; right; left)].
  - (* all-in *)
    destruct (GameState.pots s) as [|pot rest] eqn:Hpots; [done|]. simpl in Happly.
    destruct (getNextActivePlayerIndex _ _ _) as [next|]; [|done].
    injection Happly as <-. right.
    eexists player, _, (Player.chips player). unfold actedBy. simpl.
    repeat split; simpl; try done; try lia;
      first [by (right; eauto)|by (right; right; right)].
Qed.

Lemma lookupZ_lookup {A} (l : list A) (i : Z) (x : A) :
  lookupZ l i = Some x → l !! Z.to_nat i = Some x.
Proof. unfold lookupZ. by destruct (i <? 0). Qed.

Lemma sumZ_map_insert {A} (f : A → Z) (l : list A) (i : nat) (x y : A) :
  l !! i = Some x →
  sumZ (map f (<[i := y]> l)) = sumZ (map f l) - f x + f y.
Proof.
  revert i. induction l as [|a l IH]; intros i Hi; [done|].
  destruct i as [|i]; simpl in *.
  - injection Hi as ->. lia.
  - rewrite (IH i Hi). lia.
Qed.

Lemma map_insert_same {A B} (f : A → B) (l : list A) (i : nat) (x y : A) :
  l !! i = Some x → f y = f x → map f (<[i := y]> l) = map f l.
Proof.
  intros Hi Hf. change (f <$> <[i := y]> l = f <$> l).
  rewrite list_fmap_insert, Hf. apply list_insert_id.
  by rewrite list_lookup_fmap, Hi.
Qed.

(** X9: Chips are conserved by every action: the stacks and the pots together
    hold after [applyAction] what they held before, whoever sent the action
    and whatever it was. *)
Theorem applyAction_conserves_chips (s s' : GameState.t) (playerId : string)
    (action : PlayerAction.t) :
  applyAction s playerId action = Some s' →
  chipTotal (GameState.players s') + potTotal (GameState.pots s')
  = chipTotal (GameState.players s) + potTotal (GameState.pots s).
Proof.
  intros Happly.
  destruct (applyAction_acts _ _ _ _ Happly)
    as [->|(player & player' & x & Hseat & Hplayers & _ & (Hchips & _) & Hpots & _)];
    [done|].
  apply lookupZ_lookup in Hseat. unfold chipTotal.
  rewrite Hplayers, (sumZ_map_insert _ _ _ _ _ Hseat), Hchips.
  destruct Hpots as [[-> ->]|(pot & rest & -> & ->)]; unfold potTotal; simpl; lia.
Qed.

Lemma applyAction_conserves_chips_witness :
  ∃ s1 s2,
    startNewHand createDeck (seated [Alice; Bob]) = Some s1 ∧
    applyAction s1 "p2" (act raise) = Some s2 ∧
    chipTotal (GameState.players s2) + potTotal (GameState.pots s2) = 40 ∧
    chipTotal (GameState.players s2) + potTotal (GameState.pots s2)
    = chipTotal (GameState.players s1) + potTotal (GameState.pots s1).
Proof.
  eexists _, _. split; [vm_compute; reflexivity|].
  split; [vm_compute; reflexivity|]. split; [reflexivity|].
  apply (applyAction_conserves_chips _ _ "p2" (act raise)). reflexivity.
Defined.

(** X10: What an action leaves alone: the seats (who sits where, with which
    cards), every seat but the one whose turn it is, the phase, the board,
    the deck, the button, the blinds and the bet size of the street. *)
Theorem applyAction_frame (s s' : GameState.t) (playerId : string)
    (action : PlayerAction.t) :
  applyAction s playerId action = Some s' →
  map Player.id (GameState.players s') = map Player.id (GameState.players s) ∧
  map Player.holeCards (GameState.players s')
  = map Player.holeCards (GameState.players s) ∧
  (∀ j, j ≠ GameState.activePlayerIndex s →
        lookupZ (GameState.players s') j = lookupZ (GameState.players s) j) ∧
  GameState.phase s' = GameState.phase s ∧
  GameState.communityCards s' = GameState.communityCards s ∧
  GameState.deck s' = GameState.deck s ∧
  GameState.dealerIndex s' = GameState.dealerIndex s ∧
  GameState.smallBlind s' = GameState.smallBlind s ∧
  GameState.bigBlind s' = GameState.bigBlind s ∧
  GameState.streetBetSize s' = GameState.streetBetSize s.
Proof.
  intros Happly.
  destruct (applyAction_acts _ _ _ _ Happly)
    as [->|(player & player' & x & Hseat & Hplayers &
            (Hid & _ & Hcards & _) & _ & _ &
            (Hphase & Hboard & Hdealer & Hdeck & Hsb & Hbb & Hsize) & _)];
    [done|].
  pose proof (lookupZ_Some_range _ _ _ Hseat) as Hrange.
  apply lookupZ_lookup in Hseat. rewrite Hplayers.
  rewrite (map_insert_same Player.id _ _ _ _ Hseat Hid).
  rewrite (map_insert_same Player.holeCards _ _ _ _ Hseat Hcards).
  repeat split; try done.
  intros j Hj. unfold lookupZ. destruct (Z.ltb_spec j 0); [done|].
  apply list_lookup_insert_ne. lia.
Qed.

Lemma applyAction_frame_witness :
  let s1 := default (seated []) (startNewHand createDeck (seated [Alice; Bob])) in
  let s2 := default s1 (applyAction s1 "p2" (act fold)) in
  s2 ≠ s1 ∧
  map Player.id (GameState.players s2) = map Player.id (GameState.players s1) ∧
  lookupZ (GameState.players s2) 0 = lookupZ (GameState.players s1) 0 ∧
  GameState.deck s2 = GameState.deck s1.
Proof.
  intros s1 s2. split; [vm_compute; discriminate|].
  destruct (applyAction_frame s1 s2 "p2" (act fold))
    as (Hids & _ & Hother & _ & _ & Hdeck & _); [vm_compute; reflexivity|].
  split; [exact Hids|]. split; [|exact Hdeck].
  apply Hother. vm_compute. discriminate.
Defined.

(** ** game-state.ts: what a new hand deals and posts *)

Lemma dealHoleCards_deals (players : list Player.t) :
  ∀ (deck : list Card) (players' : list Player.t) (deck' : list Card),
    dealHoleCards players deck = Some (players', deck') →
    Forall2 (λ p p', ∃ cards, length cards = 2%nat ∧
                              p' = Player.set_holeCards cards p)
            players players' ∧
    concat (map Player.holeCards players') ++ deck' = deck.
Proof.
  induction players as [|p ps IH]; intros deck players' deck' Hdeal; simpl in Hdeal.
  - injection Hdeal as <- <-. split; [constructor|done].
  - destruct (dealCards deck 2) as [[cards deck1]|] eqn:Hcards; [|done].
    simpl in Hdeal.
    destruct (dealHoleCards ps deck1) as [[rest deck2]|] eqn:Hrest; [|done].
    simpl in Hdeal. injection Hdeal as <- <-.
    destruct (IH _ _ _ Hrest) as [Hall Hcat].
    destruct (dealCards_deals deck 2 _ _ Hcards) as (Hsplit & Hlen & _).
    split.
    + constructor; [by exists cards|done].
    + simpl. by rewrite <- app_assoc, Hcat.
Qed.

(** The seats as [startNewHand] has them before the blinds: the stack, the
    identity and the order are those of the state, everything a hand sets
    is cleared, and the button flag is on the new dealer's seat only. *)
Lemma dealt_fields (newDealerIndex : Z) (players : list Player.t) :
  ∀ (k : nat) (dealt : list Player.t),
    Forall2 (λ p p', ∃ cards, length cards = 2%nat ∧
                              p' = Player.set_holeCards cards p)
            (imap (λ i, resetPlayer newDealerIndex (k + i)) players) dealt →
    map Player.chips dealt = map Player.chips players ∧
    map Player.id dealt = map Player.id players ∧
    map Player.isDealer dealt
    = imap (λ i _, Z.of_nat (k + i) =? newDealerIndex) players ∧
    Forall (λ p, Player.totalBetThisHand p = 0 ∧ Player.currentBet p = 0 ∧
                 Player.folded p = false ∧ Player.allIn p = false ∧
                 length (Player.holeCards p) = 2%nat) dealt.
Proof.
  induction players as [|p ps IH]; intros k dealt Hall; simpl in Hall.
  - apply Forall2_nil_inv_l in Hall as ->. by repeat split.
  - apply Forall2_cons_inv_l in Hall as (q & rest & (cards & Hlen & ->) & Hrest & ->).
    destruct (IH (S k) rest) as (Hchips & Hids & Hdealer & Hclear).
    { erewrite imap_ext; [exact Hrest|]. intros i x _.
      unfold compose. f_equal. lia. }
    simpl. rewrite Hchips, Hids, Hdealer. repeat split; try done.
    + f_equal. apply imap_ext. intros i x _. unfold compose. do 2 f_equal. lia.
    + constructor; [by repeat split|done].
Qed.

Lemma postedSeat_fields (p : Player.t) (blindAmount : Z) :
  Player.chips (postedSeat p blindAmount) = Player.chips p - blindAmount ∧
  Player.totalBetThisHand (postedSeat p blindAmount) = blindAmount ∧
  Player.currentBet (postedSeat p blindAmount) = blindAmount ∧
  Player.id (postedSeat p blindAmount) = Player.id p ∧
  Player.holeCards (postedSeat p blindAmount) = Player.holeCards p ∧
  Player.isDealer (postedSeat p blindAmount) = Player.isDealer p ∧
  Player.folded (postedSeat p blindAmount) = Player.folded p.
Proof. unfold postedSeat. simpl. by destruct (_ =? 0). Qed.

Lemma postBlind_postedSeat (players : list Player.t) (index blindAmount : Z)
    (p : Player.t) :
  lookupZ players index = Some p →
  postBlind players index blindAmount
  = Some (<[Z.to_nat index := postedSeat p blindAmount]> players).
Proof. intros Hp. unfold postBlind. by rewrite Hp. Qed.

(** [startNewHand] on a table of at least two seats, with a deck that
    covers the hole cards and a button index that is not negative: it does
    not throw, and this is the state it returns. *)
Lemma startNewHand_runs (shuffled : list Card) (s : GameState.t) :
  let n := length (GameState.players s) in
  let newDealerIndex := Z.rem (GameState.dealerIndex s + 1) (Z.of_nat n) in
  let sbIndex := sbIndexOf n (Z.of_nat n) newDealerIndex in
  let bbIndex := bbIndexOf n (Z.of_nat n) newDealerIndex in
  (2 ≤ n)%nat → (2 * n ≤ length shuffled)%nat → 0 ≤ GameState.dealerIndex s →
  ∃ dealt deck' sbPlayer bbPlayer,
    dealHoleCards (imap (resetPlayer newDealerIndex) (GameState.players s)) shuffled
    = Some (dealt, deck') ∧
    lookupZ dealt sbIndex = Some sbPlayer ∧ lookupZ dealt bbIndex = Some bbPlayer ∧
    0 ≤ sbIndex ∧ 0 ≤ bbIndex ∧ sbIndex ≠ bbIndex ∧
    0 ≤ newDealerIndex < Z.of_nat n ∧
    let sbAmount := Z.min (GameState.smallBlind s) (Player.chips sbPlayer) in
    let bbAmount := Z.min (GameState.bigBlind s) (Player.chips bbPlayer) in
    let players :=
      <[Z.to_nat bbIndex := postedSeat bbPlayer bbAmount]>
        (<[Z.to_nat sbIndex := postedSeat sbPlayer sbAmount]> dealt) in
    startNewHand shuffled s
    = Some (GameState.mk preflop players []
              [Pot.mk (sbAmount + bbAmount) (map Player.id players)]
              (GameState.bigBlind s) newDealerIndex
              (if (n =? 2)%nat then newDealerIndex
               else Z.rem (bbIndex + 1) (Z.of_nat n))
              bbIndex 0 deck' (GameState.smallBlind s) (GameState.bigBlind s)
              DEFAULT_SETTINGS.preflopFlopBetSize).
Proof.
  intros n newDealerIndex sbIndex bbIndex Hn Hdeck Hd.
  assert (0 ≤ newDealerIndex < Z.of_nat n) as Hnd by (apply rem_range; lia).
  destruct (blind_seats_distinct n newDealerIndex Hn Hnd) as (Hsb & Hbb & Hne).
  fold sbIndex bbIndex in Hsb, Hbb, Hne.
  destruct (dealHoleCards_ok (imap (resetPlayer newDealerIndex) (GameState.players s))
              shuffled) as (dealt & deck' & Hdeal & Hall).
  { rewrite length_imap. fold n. lia. }
  assert (length dealt = n) as Hlen.
  { apply Forall2_length in Hall. by rewrite length_imap in Hall. }
  destruct (lookupZ_in_range dealt sbIndex) as [sbPlayer Hsbd]; [lia|].
  destruct (lookupZ_in_range dealt bbIndex) as [bbPlayer Hbbd]; [lia|].
  exists dealt, deck', sbPlayer, bbPlayer.
  repeat (split; [done || lia|]).
  intros sbAmount bbAmount players.
  unfold startNewHand, DEFAULT_SETTINGS.minPlayers. fold n.
  destruct (Nat.ltb_spec n 2) as [?|_]; [lia|].
  fold newDealerIndex. rewrite Hdeal. simpl. rewrite Hlen.
  fold sbIndex bbIndex. rewrite Hsbd, Hbbd. simpl.
  fold sbAmount bbAmount.
  rewrite (postBlind_postedSeat _ _ _ _ Hsbd). simpl.
  rewrite (postBlind_postedSeat _ bbIndex bbAmount bbPlayer).
  - reflexivity.
  - rewrite lookupZ_insert_ne by lia. done.
Qed.

Lemma posted_map_same {B} (f : Player.t → B) (dealt : list Player.t)
    (sbIndex bbIndex sbAmount bbAmount : Z) (sbPlayer bbPlayer : Player.t) :
  (∀ p a, f (postedSeat p a) = f p) →
  lookupZ dealt sbIndex = Some sbPlayer → lookupZ dealt bbIndex = Some bbPlayer →
  sbIndex ≠ bbIndex →
  map f (<[Z.to_nat bbIndex := postedSeat bbPlayer bbAmount]>
           (<[Z.to_nat sbIndex := postedSeat sbPlayer sbAmount]> dealt))
  = map f dealt.
Proof.
  intros Hf Hsb Hbb Hne.
  pose proof (lookupZ_Some_range _ _ _ Hsb). pose proof (lookupZ_Some_range _ _ _ Hbb).
  rewrite (map_insert_same f _ _ bbPlayer); [|idtac|apply Hf].
  - apply (map_insert_same f _ _ sbPlayer); [by apply lookupZ_lookup|apply Hf].
  - rewrite list_lookup_insert_ne by lia. by apply lookupZ_lookup.
Qed.

(** X11: A new hand deals from the top of the shuffled deck, two cards a seat in
    seat order: the hole cards followed by the deck that is left are the
    shuffled deck, so no card is in two places. Nobody is folded, the
    players sit where they sat, and the button flag is on the new dealer's
    seat and nowhere else. *)
Theorem startNewHand_deals (shuffled : list Card) (s : GameState.t) :
  (2 ≤ length (GameState.players s))%nat →
  (2 * length (GameState.players s) ≤ length shuffled)%nat →
  0 ≤ GameState.dealerIndex s →
  ∃ s', startNewHand shuffled s = Some s' ∧
        concat (map Player.holeCards (GameState.players s')) ++ GameState.deck s'
        = shuffled ∧
        Forall (λ p, length (Player.holeCards p) = 2%nat ∧ Player.folded p = false)
               (GameState.players s') ∧
        map Player.id (GameState.players s') = map Player.id (GameState.players s) ∧
        GameState.dealerIndex s'
        = Z.rem (GameState.dealerIndex s + 1)
                (Z.of_nat (length (GameState.players s))) ∧
        (∀ i p, GameState.players s' !! i = Some p →
                Player.isDealer p = (Z.of_nat i =? GameState.dealerIndex s')) ∧
        GameState.phase s' = preflop ∧ GameState.communityCards s' = [].
Proof.
  intros Hn Hdeck Hd.
  destruct (startNewHand_runs shuffled s Hn Hdeck Hd)
    as (dealt & deck' & sbPlayer & bbPlayer & Hdeal & Hsb & Hbb & _ & _ & Hne & _ & Hrun).
  cbv zeta in Hrun.
  set (sb := sbIndexOf _ _ _) in *. set (bb := bbIndexOf _ _ _) in *.
  set (sbAmount := Z.min (GameState.smallBlind s) _) in *.
  set (bbAmount := Z.min (GameState.bigBlind s) _) in *.
  eexists. split; [exact Hrun|]. simpl.
  destruct (dealHoleCards_deals _ _ _ _ Hdeal) as [Hall Hcat].
  destruct (dealt_fields _ _ 0%nat dealt Hall) as (_ & Hids & Hdealer & Hclear).
  assert (map Player.isDealer
            (<[Z.to_nat bb := postedSeat bbPlayer bbAmount]>
               (<[Z.to_nat sb := postedSeat sbPlayer sbAmount]> dealt))
          = map Player.isDealer dealt) as Hflags
    by (apply posted_map_same; try done; intros; apply postedSeat_fields).
  rewrite !(posted_map_same _ dealt) by (done || intros; apply postedSeat_fields).
  split; [done|]. split; [|split; [done|split; [done|split; [|done]]]].
  - rewrite Forall_lookup in Hclear.
    apply Forall_insert; [apply Forall_insert|].
    + apply Forall_lookup. intros i p Hp.
      by destruct (Hclear _ _ Hp) as (_ & _ & ? & _ & ?).
    + pose proof (postedSeat_fields sbPlayer sbAmount) as (_ & _ & _ & _ & -> & _ & ->).
      apply lookupZ_lookup in Hsb.
      by destruct (Hclear _ _ Hsb) as (_ & _ & ? & _ & ?).
    + pose proof (postedSeat_fields bbPlayer bbAmount) as (_ & _ & _ & _ & -> & _ & ->).
      apply lookupZ_lookup in Hbb.
      by destruct (Hclear _ _ Hbb) as (_ & _ & ? & _ & ?).
  - intros i p Hp.
    assert (map Player.isDealer
              (<[Z.to_nat bb := postedSeat bbPlayer bbAmount]>
                 (<[Z.to_nat sb := postedSeat sbPlayer sbAmount]> dealt)) !! i
            = Some (Player.isDealer p)) as Hflag.
    { change (map ?f ?l) with (f <$> l). by rewrite list_lookup_fmap, Hp. }
    rewrite Hflags, Hdealer, list_lookup_imap in Hflag.
    destruct (GameState.players s !! i); simpl in Hflag; [|done].
    by injection Hflag as ->.
Qed.

Lemma startNewHand_deals_witness :
  ∃ s', startNewHand createDeck (seated [Alice; Bob]) = Some s' ∧
        concat (map Player.holeCards (GameState.players s')) ++ GameState.deck s'
        = createDeck ∧
        Forall (λ p, length (Player.holeCards p) = 2%nat ∧ Player.folded p = false)
               (GameState.players s') ∧
        map Player.id (GameState.players s') = ["p1"; "p2"] ∧
        GameState.dealerIndex s' = 1 ∧
        (∀ i p, GameState.players s' !! i = Some p →
                Player.isDealer p = (Z.of_nat i =? GameState.dealerIndex s')) ∧
        GameState.phase s' = preflop ∧ GameState.communityCards s' = [].
Proof.
  apply (startNewHand_deals createDeck (seated [Alice; Bob])); simpl; lia.
Defined.

(** X12: A new hand takes the blinds out of the stacks and into the one pot it
    starts with: stacks plus pot are the stacks of before, and the pot
    holds exactly what the seats have contributed. *)
Theorem startNewHand_accounts (shuffled : list Card) (s : GameState.t) :
  (2 ≤ length (GameState.players s))%nat →
  (2 * length (GameState.players s) ≤ length shuffled)%nat →
  0 ≤ GameState.dealerIndex s →
  ∃ s', startNewHand shuffled s = Some s' ∧
        chipTotal (GameState.players s') + potTotal (GameState.pots s')
        = chipTotal (GameState.players s) ∧
        totalContributed (GameState.players s') = potTotal (GameState.pots s').
Proof.
  intros Hn Hdeck Hd.
  destruct (startNewHand_runs shuffled s Hn Hdeck Hd)
    as (dealt & deck' & sbPlayer & bbPlayer & Hdeal & Hsb & Hbb & ? & ? & Hne & _ & Hrun).
  cbv zeta in Hrun.
  set (sb := sbIndexOf _ _ _) in *. set (bb := bbIndexOf _ _ _) in *.
  set (sbAmount := Z.min (GameState.smallBlind s) _) in *.
  set (bbAmount := Z.min (GameState.bigBlind s) _) in *.
  eexists. split; [exact Hrun|]. simpl.
  destruct (dealHoleCards_deals _ _ _ _ Hdeal) as [Hall _].
  destruct (dealt_fields _ _ 0%nat dealt Hall) as (Hchips & _ & _ & Hclear).
  assert (<[Z.to_nat sb := postedSeat sbPlayer sbAmount]> dealt !! Z.to_nat bb
          = Some bbPlayer) as Hbb'.
  { rewrite list_lookup_insert_ne by lia. by apply lookupZ_lookup. }
  apply lookupZ_lookup in Hsb as Hsb'.
  assert (sumZ (map Player.totalBetThisHand dealt) = 0) as Hzero.
  { clear -Hclear. induction Hclear as [|p l (Hp & _) _ IH]; simpl; [done|]. lia. }
  rewrite Forall_lookup in Hclear.
  destruct (Hclear _ _ Hsb') as (Hsb0 & _).
  destruct (Hclear _ _ (lookupZ_lookup _ _ _ Hbb)) as (Hbb0 & _).
  unfold chipTotal, totalContributed, potTotal.
  rewrite !(sumZ_map_insert _ _ _ _ _ Hbb'), !(sumZ_map_insert _ _ _ _ _ Hsb').
  pose proof (postedSeat_fields sbPlayer sbAmount) as (-> & -> & _).
  pose proof (postedSeat_fields bbPlayer bbAmount) as (-> & -> & _).
  rewrite Hzero, Hsb0, Hbb0.
  change (sumZ (map Player.chips dealt)) with (sumZ (map Player.chips dealt)).
  rewrite Hchips. simpl. split; lia.
Qed.

Lemma startNewHand_accounts_witness :
  ∃ s', startNewHand createDeck (seated [Alice; Bob]) = Some s' ∧
        chipTotal (GameState.players s') + potTotal (GameState.pots s')
        = chipTotal [Alice; Bob] ∧
        totalContributed (GameState.players s') = potTotal (GameState.pots s').
Proof.
  apply (startNewHand_accounts createDeck (seated [Alice; Bob])); simpl; lia.
Defined.

(** X13: A shuffled deck is the 52 cards in some order, so a table of up to 26
    seats is always dealt: [startNewHand] does not throw, no card is dealt
    twice or to two places, and [52 - 2n] cards stay in the deck. *)
Theorem startNewHand_on_shuffled_deck (draw : nat → nat) (s : GameState.t) :
  (∀ i, (draw i ≤ i)%nat) →
  (2 ≤ length (GameState.players s) ≤ 26)%nat → 0 ≤ GameState.dealerIndex s →
  ∃ s', startNewHand (createShuffledDeck draw) s = Some s' ∧
        concat (map Player.holeCards (GameState.players s')) ++ GameState.deck s'
        ≡ₚ createDeck ∧
        NoDup (concat (map Player.holeCards (GameState.players s'))
               ++ GameState.deck s') ∧
        length (GameState.deck s')
        = (52 - 2 * length (GameState.players s))%nat.
Proof.
  intros _ Hn Hd.
  assert (createShuffledDeck draw ≡ₚ createDeck) as Hperm
    by apply shuffleFrom_Permutation.
  assert (length (createShuffledDeck draw) = 52%nat) as Hlen
    by (rewrite Hperm; reflexivity).
  destruct (startNewHand_runs (createShuffledDeck draw) s)
    as (dealt & deck' & sbPlayer & bbPlayer & Hdeal & Hsb & Hbb & _ & _ & Hne & _ & Hrun);
    [lia..|].
  cbv zeta in Hrun. eexists. split; [exact Hrun|]. simpl.
  destruct (dealHoleCards_deals _ _ _ _ Hdeal) as [Hall Hcat].
  destruct (dealt_fields _ _ 0%nat dealt Hall) as (_ & _ & _ & Hclear).
  rewrite !(posted_map_same _ dealt) by (done || intros; apply postedSeat_fields).
  rewrite Hcat. split; [done|]. split.
  - rewrite Hperm. apply createDeck_NoDup.
  - assert (length (concat (map Player.holeCards dealt))
            = (2 * length (GameState.players s))%nat) as Hdealt.
    { apply Forall2_length in Hall as Hsame. rewrite length_imap in Hsame.
      rewrite Hsame. clear -Hclear.
      induction Hclear as [|p l (_ & _ & _ & _ & Hp) _ IH]; simpl; [done|].
      rewrite length_app, Hp, IH. lia. }
    apply (f_equal length) in Hcat. rewrite length_app, Hdealt, Hlen in Hcat. lia.
Qed.

Lemma startNewHand_on_shuffled_deck_witness :
  ∃ s', startNewHand (createShuffledDeck (λ i, i / 2)%nat) (seated [Alice; Bob])
        = Some s' ∧
        concat (map Player.holeCards (GameState.players s')) ++ GameState.deck s'
        ≡ₚ createDeck ∧
        NoDup (concat (map Player.holeCards (GameState.players s'))
               ++ GameState.deck s') ∧
        length (GameState.deck s') = 48%nat.
Proof.
  apply (startNewHand_on_shuffled_deck (λ i, i / 2)%nat (seated [Alice; Bob])).
  - intros i. apply Nat.Div0.div_le_upper_bound. lia.
  - simpl. lia.
  - simpl. lia.
Defined.

(** ** game-state.ts: the books of a hand *)

Lemma dealHoleCards_needs_deck (players : list Player.t) :
  ∀ deck dealt deck',
    dealHoleCards players deck = Some (dealt, deck') →
    (2 * length players ≤ length deck)%nat.
Proof.
  induction players as [|p ps IH]; intros deck dealt deck' Hdeal; simpl in *; [lia|].
  destruct (dealCards deck 2) as [[cards deck1]|] eqn:Hcards; [|done].
  simpl in Hdeal.
  destruct (dealHoleCards ps deck1) as [[rest deck2]|] eqn:Hrest; [|done].
  specialize (IH _ _ _ Hrest).
  destruct (dealCards_deals deck 2 _ _ Hcards) as (_ & _ & Hlen).
  destruct (dealCards_throws deck 2) as [_ Hshort].
  assert (¬ (length deck < 2)%nat) by (intros Hlt; rewrite (Hshort Hlt) in Hcards; done).
  lia.
Qed.

Lemma startNewHand_needs_deck (shuffled : list Card) (s s' : GameState.t) :
  (2 ≤ length (GameState.players s))%nat →
  startNewHand shuffled s = Some s' →
  (2 * length (GameState.players s) ≤ length shuffled)%nat.
Proof.
  intros Hn. unfold startNewHand, DEFAULT_SETTINGS.minPlayers.
  destruct (Nat.ltb_spec (length (GameState.players s)) 2) as [?|_]; [lia|].
  destruct (dealHoleCards _ shuffled) as [[dealt deck']|] eqn:Hdeal; [|done].
  intros _. apply dealHoleCards_needs_deck in Hdeal.
  by rewrite length_imap in Hdeal.
Qed.

Lemma startNewHand_keeps_accounts (shuffled : list Card) (s s' : GameState.t) :
  accounted s → 0 ≤ GameState.dealerIndex s →
  startNewHand shuffled s = Some s' →
  accounted s' ∧ 0 ≤ GameState.dealerIndex s'.
Proof.
  intros Hacc Hd Hnew.
  destruct (Nat.ltb_spec (length (GameState.players s)) 2) as [Hfew|Hn].
  { unfold startNewHand, DEFAULT_SETTINGS.minPlayers in Hnew.
    apply Nat.ltb_lt in Hfew. rewrite Hfew in Hnew. by injection Hnew as <-. }
  pose proof (startNewHand_needs_deck _ _ _ Hn Hnew) as Hdeck.
  destruct (startNewHand_runs shuffled s Hn Hdeck Hd)
    as (dealt & deck' & sbPlayer & bbPlayer & Hdeal & Hsb & Hbb & ? & ? & Hne & Hnd & Hrun).
  cbv zeta in Hrun. rewrite Hrun in Hnew. injection Hnew as <-.
  set (sb := sbIndexOf _ _ _) in *. set (bb := bbIndexOf _ _ _) in *.
  set (sbAmount := Z.min (GameState.smallBlind s) _) in *.
  set (bbAmount := Z.min (GameState.bigBlind s) _) in *.
  destruct Hacc as (_ & Hnn & _ & Hsbnn & Hbbnn).
  destruct (dealHoleCards_deals _ _ _ _ Hdeal) as [Hall _].
  destruct (dealt_fields _ _ 0%nat dealt Hall) as (Hchips & _ & _ & Hclear).
  assert (Forall (λ p, 0 ≤ Player.chips p ∧ 0 ≤ Player.totalBetThisHand p) dealt)
    as Hdealt.
  { apply Forall_lookup. intros i p Hp. rewrite Forall_lookup in Hclear.
    destruct (Hclear _ _ Hp) as (-> & _). split; [|done].
    assert (map Player.chips dealt !! i = Some (Player.chips p)) as Hc.
    { change (map ?f ?l) with (f <$> l). by rewrite list_lookup_fmap, Hp. }
    rewrite Hchips in Hc. change (map ?f ?l) with (f <$> l) in Hc.
    rewrite list_lookup_fmap in Hc.
    destruct (GameState.players s !! i) as [q|] eqn:Hq; [|done].
    injection Hc as <-. rewrite Forall_lookup in Hnn. by destruct (Hnn _ _ Hq). }
  assert (<[Z.to_nat sb := postedSeat sbPlayer sbAmount]> dealt !! Z.to_nat bb
          = Some bbPlayer) as Hbb'.
  { rewrite list_lookup_insert_ne by lia. by apply lookupZ_lookup. }
  apply lookupZ_lookup in Hsb as Hsb'. apply lookupZ_lookup in Hbb as Hbb''.
  assert (sumZ (map Player.totalBetThisHand dealt) = 0) as Hzero.
  { clear -Hclear. induction Hclear as [|p l (Hp & _) _ IH]; simpl; [done|]. lia. }
  rewrite Forall_lookup in Hclear, Hdealt.
  destruct (Hclear _ _ Hsb') as (Hsb0 & _). destruct (Hclear _ _ Hbb'') as (Hbb0 & _).
  destruct (Hdealt _ _ Hsb') as (Hsbc & _). destruct (Hdealt _ _ Hbb'') as (Hbbc & _).
  pose proof (postedSeat_fields sbPlayer sbAmount) as (Hs1 & Hs2 & _).
  pose proof (postedSeat_fields bbPlayer bbAmount) as (Hb1 & Hb2 & _).
  split; [|simpl; lia]. unfold accounted. simpl. split; [|split].
  - unfold totalContributed, potTotal.
    rewrite (sumZ_map_insert _ _ _ _ _ Hbb'), (sumZ_map_insert _ _ _ _ _ Hsb').
    rewrite Hs2, Hb2, Hzero, Hsb0, Hbb0. simpl. lia.
  - apply Forall_insert; [apply Forall_insert|].
    + by apply Forall_lookup.
    + rewrite Hs1, Hs2. unfold sbAmount. lia.
    + rewrite Hb1, Hb2. unfold bbAmount. lia.
  - unfold DEFAULT_SETTINGS.preflopFlopBetSize. lia.
Qed.

Lemma applyAction_keeps_accounts (s s' : GameState.t) (playerId : string)
    (action : PlayerAction.t) :
  accounted s → applyAction s playerId action = Some s' → accounted s'.
Proof.
  intros Hacc Happly.
  destruct (applyAction_acts _ _ _ _ Happly)
    as [->|(player & player' & x & Hseat & Hplayers & _ & (Hchips & _ & Htotal) &
            Hpots & (_ & _ & _ & _ & Hsb & Hbb & Hsize) & Hx)]; [done|].
  destruct Hacc as (Hsum & Hnn & Hsz & Hsbnn & Hbbnn).
  apply lookupZ_lookup in Hseat.
  rewrite Forall_lookup in Hnn. destruct (Hnn _ _ Hseat) as [Hc Ht].
  assert (0 ≤ x ≤ Player.chips player) as Hrange by (simpl in Hx; lia).
  unfold accounted. rewrite Hplayers, Hsb, Hbb, Hsize.
  split; [|split; [|done]].
  - unfold totalContributed. rewrite (sumZ_map_insert _ _ _ _ _ Hseat), Htotal.
    unfold totalContributed in Hsum.
    destruct Hpots as [[-> ->]|(pot & rest & Hold & ->)]; [lia|].
    rewrite Hold in Hsum. unfold potTotal in *. simpl in *. lia.
  - apply Forall_insert; [by apply Forall_lookup|]. lia.
Qed.

Lemma advanceStreet_keeps_accounts (s s' : GameState.t) :
  accounted s → advanceStreet s = Some s' →
  accounted s' ∧ GameState.dealerIndex s' = GameState.dealerIndex s.
Proof.
  intros Hacc. unfold advanceStreet.
  destruct (nextPhase (GameState.phase s)) as [newPhase|]; [|by intros [= <-]].
  intros Hadv.
  assert (∃ cc deck first size,
            (size = DEFAULT_SETTINGS.turnRiverBetSize ∨
             size = DEFAULT_SETTINGS.preflopFlopBetSize) ∧
            s' = GameState.mk newPhase
                   (map (Player.set_currentBet 0) (GameState.players s)) cc
                   (GameState.pots s) 0 (GameState.dealerIndex s) first
                   (GameState.dealerIndex s) 0 deck (GameState.smallBlind s)
                   (GameState.bigBlind s) size) as (cc & deck & first & size & Hsize & ->).
  { simplify_option_eq. repeat case_match; simplify_option_eq;
      eexists _, _, _, _; (split; [|reflexivity]); auto. }
  split; [|done]. destruct Hacc as (Hsum & Hnn & _ & Hsb & Hbb).
  unfold accounted, totalContributed in *. simpl.
  rewrite map_map. simpl. split; [done|]. split; [|split; [|done]].
  - apply Forall_fmap. eapply Forall_impl; [exact Hnn|]. done.
  - unfold DEFAULT_SETTINGS.turnRiverBetSize, DEFAULT_SETTINGS.preflopFlopBetSize in Hsize.
    lia.
Qed.

Lemma hand_accounts_reached (s0 s : GameState.t) :
  rtc step s0 s → accounted s0 → 0 ≤ GameState.dealerIndex s0 →
  accounted s ∧ 0 ≤ GameState.dealerIndex s.
Proof.
  induction 1 as [s|s s1 s2 Hstep _ IH]; intros Hacc Hd; [done|].
  destruct Hstep as [shuffled s s1 Hnew|playerId action s s1 Happly|s s1 Hadv].
  - destruct (startNewHand_keeps_accounts _ _ _ Hacc Hd Hnew). by apply IH.
  - pose proof (applyAction_keeps_accounts _ _ _ _ Hacc Happly).
    apply IH; [done|].
    destruct (applyAction_acts _ _ _ _ Happly)
      as [->|(? & ? & ? & _ & _ & _ & _ & _ & (_ & _ & -> & _) & _)]; done.
  - destruct (advanceStreet_keeps_accounts _ _ Hacc Hadv) as [? Hsame].
    apply IH; [done|by rewrite Hsame].
Qed.

(** X14: The books stay balanced through a whole game. From a state in
    which the pots hold exactly what the players have contributed, no stack
    or contribution is negative, and the bet size of the street, the two
    blinds and the dealer index are not negative (the lobby of any table is
    one), every state reached by [startNewHand], [applyAction] and
    [advanceStreet] has all of these properties again. *)
Theorem hand_accounts_kept (s0 s : GameState.t) :
  rtc step s0 s → accounted s0 → 0 ≤ GameState.dealerIndex s0 →
  accounted s ∧ 0 ≤ GameState.dealerIndex s.
Proof. apply hand_accounts_reached. Qed.

Lemma seated_accounted (ps : list Player.t) :
  Forall (λ p, 0 ≤ Player.chips p ∧ Player.totalBetThisHand p = 0) ps →
  accounted (seated ps) ∧ 0 ≤ GameState.dealerIndex (seated ps).
Proof.
  intros Hps. split; [|done]. unfold accounted. simpl.
  split; [|split; [|done]].
  - unfold totalContributed, potTotal. simpl.
    induction Hps as [|p l (_ & Hp) _ IH]; simpl; [done|]. lia.
  - eapply Forall_impl; [exact Hps|]. simpl. intros p [? ->]. done.
Qed.

Lemma hand_accounts_kept_witness :
  ∃ s, run [NewHand createDeck; Act "p2" (act raise); Act "p1" (act call)]
           (seated [Alice; Bob]) = Some s ∧
       potTotal (GameState.pots s) = 6 ∧
       accounted s ∧ 0 ≤ GameState.dealerIndex s.
Proof.
  eexists. split; [vm_compute; reflexivity|]. split; [reflexivity|].
  apply (hand_accounts_kept (seated [Alice; Bob])).
  - apply (run_reachable
             [NewHand createDeck; Act "p2" (act raise); Act "p1" (act call)]).
    vm_compute. reflexivity.
  - apply seated_accounted. repeat constructor; simpl; lia.
  - simpl. lia.
Defined.

Lemma calculateSidePots_total (players : list Player.t) :
  (∃ p, p ∈ players ∧ Player.folded p = false) →
  Forall (λ p, 0 ≤ Player.totalBetThisHand p) players →
  potTotal (calculateSidePots players) = totalContributed players.
Proof.
  intros (q & Hq & Hqf) Hnn. rewrite Forall_forall in Hnn.
  unfold calculateSidePots.
  destruct (activeEntries players) as [|e es] eqn:Hactive.
  { assert ((Player.id q, Player.totalBetThisHand q) ∈ activeEntries players) as Hin.
    { apply elem_of_sortBy.
      apply (list_elem_of_fmap_2 (λ p, (Player.id p, Player.totalBetThisHand p))).
      by apply list_elem_of_filter. }
    rewrite Hactive in Hin. inversion Hin. }
  simpl length. cbn [Nat.eqb].
  destruct (levelLoop_invariant players (e :: es) (betLevels players) [] 0 Hnn)
    as (H0 & Hall & Hinv); [lia| |].
  { unfold cappedTotal, potTotal. simpl.
    clear -Hnn. induction players as [|p ps IH]; simpl; [done|].
    rewrite <- IH by (intros r Hr; apply Hnn; by right).
    assert (0 ≤ Player.totalBetThisHand p) by (apply Hnn; by left). lia. }
  destruct (foldl _ _ _) as [pots prev]. simpl in *.
  rewrite <- (cappedTotal_all players prev).
  - destruct pots; simpl; [by rewrite <- Hinv|done].
  - intros p Hp.
    destruct (Z.ltb_spec 0 (Player.totalBetThisHand p)) as [Hpos|Hz]; [|lia].
    apply Hall. by apply betLevels_complete.
Qed.

(** X15: At any point of a game played from a state in which the pots hold
    exactly what the players have contributed, no stack or contribution is
    negative, and the bet size of the street, the two blinds and the dealer
    index are not negative: with someone still in the hand, the side pots
    that [calculateSidePots] builds from the seats add up to the pots on the
    table. *)
Theorem side_pots_hold_the_pot (s0 s : GameState.t) :
  rtc step s0 s → accounted s0 → 0 ≤ GameState.dealerIndex s0 →
  (∃ p, p ∈ GameState.players s ∧ Player.folded p = false) →
  potTotal (calculateSidePots (GameState.players s)) = potTotal (GameState.pots s).
Proof.
  intros Hreach Hacc Hd Hactive.
  destruct (hand_accounts_reached s0 s Hreach Hacc Hd) as ((Hsum & Hnn & _) & _).
  rewrite <- Hsum. apply calculateSidePots_total; [done|].
  eapply Forall_impl; [exact Hnn|]. simpl. tauto.
Qed.

Lemma side_pots_hold_the_pot_witness :
  ∃ s, run [NewHand createDeck; Act "p2" (act raise); Act "p1" (act all_in);
            Act "p2" (act fold)]
           (seated [Alice; Bob]) = Some s ∧
       potTotal (GameState.pots s) = 23 ∧
       potTotal (calculateSidePots (GameState.players s))
       = potTotal (GameState.pots s).
Proof.
  eexists. split; [vm_compute; reflexivity|]. split; [reflexivity|].
  apply (side_pots_hold_the_pot (seated [Alice; Bob])).
  - apply (run_reachable
             [NewHand createDeck; Act "p2" (act raise); Act "p1" (act all_in);
              Act "p2" (act fold)]).
    vm_compute. reflexivity.
  - apply seated_accounted. repeat constructor; simpl; lia.
  - simpl. lia.
  - eexists. split; [by left|reflexivity].
Defined.

(** ** game-state.ts: the streets *)

Lemma getNextActivePlayerIndex_runs (players : list Player.t) (fromIndex : Z)
    (includeAllIn : bool) :
  0 ≤ fromIndex →
  ∃ r, getNextActivePlayerIndex players fromIndex includeAllIn = Some r.
Proof.
  intros Hfrom. unfold getNextActivePlayerIndex.
  destruct players as [|p ps] eqn:Hps; [by exists (-1)|]. rewrite <- Hps.
  destruct (nextActiveLoop_finds players fromIndex includeAllIn
              (seq 1 (length players)) Hfrom) as (r & Hr & _); [by rewrite Hps|].
  by exists r.
Qed.

(** X16: Leaving a betting phase with enough cards in the deck and a button
    index that is not negative: [advanceStreet] does not throw, moves to the
    next phase, takes the street's cards off the top of the deck (three on
    the board for the flop, one more for the turn and for the river, none
    for the showdown), clears every seat's bet of the street and the raise
    count, and touches neither the stacks nor the pots. *)
Theorem advanceStreet_next_street (s : GameState.t) :
  nextPhase (GameState.phase s) ≠ None →
  (cardsNeeded (GameState.phase s) ≤ length (GameState.deck s))%nat →
  0 ≤ GameState.dealerIndex s →
  ∃ s', advanceStreet s = Some s' ∧
        nextPhase (GameState.phase s) = Some (GameState.phase s') ∧
        length (GameState.communityCards s')
        = match GameState.phase s with
          | preflop => 3%nat
          | flop | turn => S (length (GameState.communityCards s))
          | _ => length (GameState.communityCards s)
          end ∧
        length (GameState.deck s')
        = (length (GameState.deck s) - cardsNeeded (GameState.phase s))%nat ∧
        Forall (λ p, Player.currentBet p = 0) (GameState.players s') ∧
        map Player.chips (GameState.players s')
        = map Player.chips (GameState.players s) ∧
        GameState.pots s' = GameState.pots s ∧
        GameState.currentBet s' = 0 ∧ GameState.raisesThisStreet s' = 0.
Proof.
  intros Hphase Hdeck Hd. unfold advanceStreet.
  destruct (getNextActivePlayerIndex_runs
              (map (Player.set_currentBet 0) (GameState.players s))
              (GameState.dealerIndex s) false Hd) as [first Hfirst].
  assert (Forall (λ p, Player.currentBet p = 0)
                 (map (Player.set_currentBet 0) (GameState.players s))) as Hbets.
  { apply Forall_fmap. by apply Forall_true. }
  assert (map Player.chips (map (Player.set_currentBet 0) (GameState.players s))
          = map Player.chips (GameState.players s)) as Hchips.
  { rewrite map_map. done. }
  destruct (GameState.phase s); simpl in *; try done.
  - destruct (GameState.deck s) as [|c1 [|c2 [|c3 [|c4 rest]]]]; simpl in Hdeck;
      try lia.
    simpl. rewrite Hfirst. simpl. eexists. split; [reflexivity|]. simpl.
    rewrite ?drop_0, ?take_0. repeat split; try done; simpl; lia.
  - destruct (GameState.deck s) as [|c1 [|c2 rest]]; simpl in Hdeck; try lia.
    simpl. rewrite Hfirst. simpl. eexists. split; [reflexivity|]. simpl.
    rewrite ?drop_0, ?take_0, ?length_app. simpl. repeat split; try done; lia.
  - destruct (GameState.deck s) as [|c1 [|c2 rest]]; simpl in Hdeck; try lia.
    simpl. rewrite Hfirst. simpl. eexists. split; [reflexivity|]. simpl.
    rewrite ?drop_0, ?take_0, ?length_app. simpl. repeat split; try done; lia.
  - rewrite Hfirst. simpl. eexists. split; [reflexivity|]. simpl.
    repeat split; try done. lia.
Qed.

Lemma advanceStreet_next_street_witness :
  ∃ s0 s', run [NewHand createDeck; Act "p2" (act call); Act "p1" (act check)]
               (seated [Alice; Bob]) = Some s0 ∧
           advanceStreet s0 = Some s' ∧
           GameState.phase s' = flop ∧
           length (GameState.communityCards s') = 3%nat ∧
           length (GameState.deck s') = 44%nat.
Proof.
  eexists.
  destruct (advanceStreet_next_street
              (default (seated [])
                 (run [NewHand createDeck; Act "p2" (act call); Act "p1" (act check)]
                      (seated [Alice; Bob]))))
    as (s' & Hadv & Hphase & Hboard & Hdeck & _).
  - vm_compute. discriminate.
  - vm_compute. lia.
  - vm_compute. discriminate.
  - exists s'. split; [vm_compute; reflexivity|]. split; [exact Hadv|].
    split; [by injection Hphase|]. split; [exact Hboard|exact Hdeck].
Defined.

(** X17: The edges of [advanceStreet]: in the lobby and at the showdown it hands
    the state back; in a betting phase whose deck is too short for the
    street it throws. *)
Theorem advanceStreet_edges (s : GameState.t) :
  (nextPhase (GameState.phase s) = None → advanceStreet s = Some s) ∧
  ((length (GameState.deck s) < cardsNeeded (GameState.phase s))%nat →
   advanceStreet s = None).
Proof.
  unfold advanceStreet. split.
  - by intros ->.
  - intros Hshort. destruct (GameState.phase s); simpl in *; try lia.
    + destruct (GameState.deck s) as [|c1 [|c2 [|c3 [|c4 rest]]]]; simpl in *;
        try done; lia.
    + destruct (GameState.deck s) as [|c1 [|c2 rest]]; simpl in *; try done; lia.
    + destruct (GameState.deck s) as [|c1 [|c2 rest]]; simpl in *; try done; lia.
Qed.

(** ** game-state.ts and party/server.ts: what a player may do *)

(** X18: On a street whose bet size is not negative, the active player who
    is in the hand (neither folded nor all-in) but holds fewer chips than
    the call is offered neither check nor call nor raise: folding and going
    all-in are what is left, and a call sent anyway is refused by the
    server's check. *)
Theorem short_stack_options (s : GameState.t) (player : Player.t) :
  lookupZ (GameState.players s) (GameState.activePlayerIndex s) = Some player →
  Player.folded player = false → Player.allIn player = false →
  0 ≤ GameState.streetBetSize s →
  0 < Player.chips player < GameState.currentBet s - Player.currentBet player →
  getLegalActions s
  = LegalActions.mk true false false (Player.chips player) false
      (GameState.streetBetSize s) (GameState.streetBetSize s) true
      (Player.chips player) ∧
  ∀ amount,
    isLegalAction (PlayerAction.mk call amount) (getLegalActions s) = false ∧
    isLegalAction (PlayerAction.mk all_in amount) (getLegalActions s) = true.
Proof.
  intros Hp Hf Ha Hsize Hshort.
  assert (getLegalActions s
          = LegalActions.mk true false false (Player.chips player) false
              (GameState.streetBetSize s) (GameState.streetBetSize s) true
              (Player.chips player)) as ->.
  { unfold getLegalActions. rewrite Hp, Hf, Ha. simpl.
    unfold DEFAULT_SETTINGS.maxRaisesPerStreet.
    repeat match goal with
           | |- context [Z.eqb ?a ?b] => destruct (Z.eqb_spec a b); try lia
           | |- context [Z.ltb ?a ?b] => destruct (Z.ltb_spec a b); try lia
           | |- context [Z.leb ?a ?b] => destruct (Z.leb_spec a b); try lia
           end; simpl; f_equal; lia. }
  split; [done|]. intros amount. by split.
Qed.

Lemma short_stack_options_witness :
  getLegalActions
    (GameState.mk preflop
       [samplePlayer "p1" 10 4 false false; samplePlayer "p2" 1 2 false false]
       [] [Pot.mk 6 ["p1"; "p2"]] 4 0 1 0 2 [] 1 2 1)
  = LegalActions.mk true false false 1 false 1 1 true 1.
Proof.
  apply (short_stack_options
           (GameState.mk preflop
              [samplePlayer "p1" 10 4 false false; samplePlayer "p2" 1 2 false false]
              [] [Pot.mk 6 ["p1"; "p2"]] 4 0 1 0 2 [] 1 2 1)
           (samplePlayer "p2" 1 2 false false));
    try reflexivity; simpl; lia.
Defined.

Lemma findIndex_unique (players : list Player.t) (i : Z) (p : Player.t) :
  NoDup (map Player.id players) → lookupZ players i = Some p →
  findIndex (λ q, bool_decide (Player.id q = Player.id p)) players = i.
Proof.
  intros Hnd Hp. pose proof (lookupZ_Some_range _ _ _ Hp) as Hrange.
  apply lookupZ_lookup in Hp.
  assert (∀ (l : list Player.t) (k : nat),
            NoDup (map Player.id l) → l !! k = Some p →
            findIndex (λ q, bool_decide (Player.id q = Player.id p)) l = Z.of_nat k)
    as Hgen.
  { clear. induction l as [|q l IH]; intros k Hnd Hk; [done|].
    apply NoDup_cons in Hnd as [Hq Hnd]. destruct k as [|k]; simpl in *.
    - injection Hk as ->. by rewrite bool_decide_eq_true_2.
    - rewrite bool_decide_eq_false_2.
      + rewrite (IH k Hnd Hk). destruct (Z.ltb_spec (Z.of_nat k) 0); lia.
      + intros Heq. apply Hq. rewrite Heq.
        apply list_elem_of_fmap. exists p. split; [done|].
        by eapply list_elem_of_lookup_2. }
  rewrite (Hgen _ _ Hnd Hp). lia.
Qed.

(** X19: The server's check and [applyAction] agree on raises: at a table with
    distinct player ids and a pot to add to, a raise that [handleAction]
    accepts is carried out. The raise count goes up by one and stays within
    the cap, the raiser becomes the anchor of the round, pays the call plus
    the fixed bet of the street, and is left with a stack that is not
    negative. *)
Theorem accepted_raise_is_applied (s : GameState.t) (senderId : string)
    (amount : option Z) :
  NoDup (map Player.id (GameState.players s)) → GameState.pots s ≠ [] →
  actionAccepted s senderId (PlayerAction.mk raise amount) = true →
  ∃ s' player player',
    applyAction s senderId (PlayerAction.mk raise amount) = Some s' ∧
    lookupZ (GameState.players s) (GameState.activePlayerIndex s) = Some player ∧
    lookupZ (GameState.players s') (GameState.activePlayerIndex s) = Some player' ∧
    Player.id player = senderId ∧
    GameState.raisesThisStreet s' = GameState.raisesThisStreet s + 1 ∧
    GameState.raisesThisStreet s' ≤ DEFAULT_SETTINGS.maxRaisesPerStreet ∧
    GameState.lastRaiserIndex s' = GameState.activePlayerIndex s ∧
    GameState.currentBet s' = Player.currentBet player' ∧
    Player.chips player'
    = Player.chips player
      - (Z.max 0 (GameState.currentBet s - Player.currentBet player)
         + GameState.streetBetSize s) ∧
    0 ≤ Player.chips player'.
Proof.
  intros Hnd Hpots. unfold actionAccepted.
  intros (((_ & Hturn)%andb_true_iff & _)%andb_true_iff & Hlegal)%andb_true_iff.
  destruct (lookupZ (GameState.players s) (GameState.activePlayerIndex s))
    as [player|] eqn:Hplayer; [|done].
  apply bool_decide_eq_true in Hturn. subst senderId.
  unfold isLegalAction in Hlegal. simpl in Hlegal.
  destruct (LegalActions.canRaise (getLegalActions s)) eqn:Hraise; [|done].
  clear Hlegal. pose proof (canRaise_below_cap s Hraise) as Hcap.
  unfold getLegalActions in Hraise. rewrite Hplayer in Hraise.
  destruct (Player.folded player || Player.allIn player); [done|].
  simpl in Hraise. apply andb_true_iff in Hraise as [_ Hafford%Z.leb_le].
  pose proof (lookupZ_Some_range _ _ _ Hplayer) as Hrange.
  destruct (GameState.pots s) as [|pot rest] eqn:Hp; [done|].
  set (raised := commitChips player
                   (Z.max 0 (GameState.currentBet s - Player.currentBet player)
                    + GameState.streetBetSize s)).
  destruct (getNextActivePlayerIndex_runs
              (<[Z.to_nat (GameState.activePlayerIndex s) := raised]>
                 (GameState.players s))
              (GameState.activePlayerIndex s) false) as [next Hnext]; [lia|].
  eexists _, player, raised. split.
  { unfold applyAction. rewrite (findIndex_unique _ _ _ Hnd Hplayer).
    destruct (Z.eqb_spec (GameState.activePlayerIndex s) (-1)) as [?|_]; [lia|].
    rewrite Z.eqb_refl. simpl. rewrite Hplayer. simpl.
    destruct (Z.ltb_spec (Player.chips player)
                (Z.max 0 (GameState.currentBet s - Player.currentBet player)
                 + GameState.streetBetSize s)) as [?|_]; [lia|].
    rewrite Hp. simpl. fold raised. rewrite Hnext. simpl. reflexivity. }
  simpl. split; [done|]. split; [by eapply lookupZ_insert_eq|].
  unfold DEFAULT_SETTINGS.maxRaisesPerStreet in *.
  repeat split; try done; lia.
Qed.

Lemma accepted_raise_is_applied_witness :
  ∃ s0 s' player player',
    startNewHand createDeck (seated [Alice; Bob]) = Some s0 ∧
    applyAction s0 "p2" (PlayerAction.mk raise None) = Some s' ∧
    lookupZ (GameState.players s0) (GameState.activePlayerIndex s0) = Some player ∧
    lookupZ (GameState.players s') (GameState.activePlayerIndex s0) = Some player' ∧
    Player.id player = "p2" ∧
    GameState.raisesThisStreet s' = GameState.raisesThisStreet s0 + 1 ∧
    Player.chips player' = 17.
Proof.
  eexists.
  destruct (accepted_raise_is_applied
              (default (seated []) (startNewHand createDeck (seated [Alice; Bob])))
              "p2" None)
    as (s' & player & player' & Happly & Hp & Hp' & Hid & Hraises & _ & _ & _ & Hchips & _).
  - vm_compute. apply NoDup_cons. split; [|apply NoDup_singleton].
    intros Hin. apply list_elem_of_singleton in Hin. discriminate.
  - vm_compute. discriminate.
  - vm_compute. reflexivity.
  - exists s', player, player'. split; [vm_compute; reflexivity|].
    split; [exact Happly|]. split; [exact Hp|]. split; [exact Hp'|].
    split; [exact Hid|]. split; [exact Hraises|].
    rewrite Hchips. vm_compute in Hp. injection Hp as <-. reflexivity.
Defined.

(** ** side-pots.ts: who may win which pot *)

Lemma addToLast_eligible (x : Z) (pots : list Pot.t) :
  map Pot.eligiblePlayerIds (addToLast x pots) = map Pot.eligiblePlayerIds pots.
Proof.
  induction pots as [|p [|q pots] IH]; simpl in *; [done..|]. by rewrite IH.
Qed.

Section Eligibility.
Context (players : list Player.t) (active : list (string * Z)).

(** The ids the loop computes for a level. *)
Let eligibleAt (level : Z) : list string :=
  map fst (filter (λ e, level ≤ snd e) active).

Lemma eligibleAt_anti (low high : Z) : low ≤ high → eligibleAt high ⊆ eligibleAt low.
Proof.
  intros Hle i Hi. unfold eligibleAt in *.
  apply list_elem_of_fmap in Hi as (e & -> & He).
  apply list_elem_of_filter in He as [Hge He].
  apply list_elem_of_fmap. exists e. split; [done|].
  apply list_elem_of_filter. split; [lia|done].
Qed.

(** The loop invariant: every pot built so far is for some level up to the
    previous one, and the pots are in the order of their levels. *)
Let builtUpTo (prev : Z) (els : list (list string)) : Prop :=
  Forall (λ e, ∃ level, level ≤ prev ∧ e = eligibleAt level) els ∧
  ∀ i j ei ej, (i ≤ j)%nat → els !! i = Some ei → els !! j = Some ej → ej ⊆ ei.

Lemma levelStep_eligibility (pots : list Pot.t) (prev level : Z) :
  builtUpTo prev (map Pot.eligiblePlayerIds pots) →
  let st := levelStep players active (pots, prev) level in
  builtUpTo st.2 (map Pot.eligiblePlayerIds st.1).
Proof.
  intros [Hall Hnest]. unfold levelStep.
  destruct (Z.leb_spec (level - prev) 0) as [Hc|Hc]; simpl; [by split|].
  assert (Forall (λ e, ∃ l, l ≤ level ∧ e = eligibleAt l)
                 (map Pot.eligiblePlayerIds pots)) as Hall'.
  { eapply Forall_impl; [exact Hall|]. simpl. intros e (l & Hl & ->).
    exists l. split; [lia|done]. }
  destruct (_ && _ && _); simpl; [rewrite addToLast_eligible; by split|].
  destruct (0 <? _); simpl; [|by split].
  rewrite map_app. simpl. fold (eligibleAt level). split.
  - apply Forall_app. split; [done|].
    constructor; [|constructor]. exists level. split; [lia|done].
  - intros i j ei ej Hij Hi Hj.
    destruct (decide (j < length (map Pot.eligiblePlayerIds pots))%nat) as [Hlt|Hge].
    + rewrite lookup_app_l in Hi, Hj by lia. exact (Hnest i j ei ej Hij Hi Hj).
    + rewrite lookup_app_r in Hj by lia.
      destruct (j - _)%nat eqn:Hlast; simpl in Hj; [|done].
      injection Hj as <-.
      destruct (decide (i < length (map Pot.eligiblePlayerIds pots))%nat) as [Hi'|Hi'].
      * rewrite lookup_app_l in Hi by lia.
        rewrite Forall_lookup in Hall. destruct (Hall _ _ Hi) as (l & Hl & ->).
        apply eligibleAt_anti. lia.
      * rewrite lookup_app_r in Hi by lia.
        replace (i - _)%nat with 0%nat in Hi by lia. simpl in Hi.
        by injection Hi as <-.
Qed.

Lemma levelLoop_eligibility (levels : list Z) :
  ∀ (pots : list Pot.t) (prev : Z),
    builtUpTo prev (map Pot.eligiblePlayerIds pots) →
    let st := foldl (levelStep players active) (pots, prev) levels in
    builtUpTo st.2 (map Pot.eligiblePlayerIds st.1).
Proof.
  induction levels as [|level levels IH]; intros pots prev Hinv; cbn [foldl]; [done|].
  pose proof (levelStep_eligibility pots prev level Hinv) as Hstep.
  destruct (levelStep players active (pots, prev) level) as [pots' prev'].
  by apply IH.
Qed.

Lemma levelLoop_eligible_pots (levels : list Z) :
  let pots := (foldl (levelStep players active) ([], 0) levels).1 in
  (∀ pot i, pot ∈ pots → i ∈ Pot.eligiblePlayerIds pot → i ∈ map fst active) ∧
  (∀ i j pi pj, (i ≤ j)%nat → pots !! i = Some pi → pots !! j = Some pj →
                Pot.eligiblePlayerIds pj ⊆ Pot.eligiblePlayerIds pi).
Proof.
  destruct (levelLoop_eligibility levels [] 0) as [Hall Hnest].
  { split; [constructor|]. intros i j ei ej _ Hi. simpl in Hi.
    by rewrite lookup_nil in Hi. }
  simpl. split.
  - intros pot i Hpot Hi.
    rewrite Forall_forall in Hall.
    destruct (Hall (Pot.eligiblePlayerIds pot)) as (l & _ & Heq).
    { apply list_elem_of_fmap. by exists pot. }
    rewrite Heq in Hi. unfold eligibleAt in Hi.
    apply list_elem_of_fmap in Hi as (e & -> & He).
    apply list_elem_of_filter in He as [_ He].
    apply list_elem_of_fmap. by exists e.
  - intros i j pi pj Hij Hi Hj.
    apply (Hnest i j); [done|..]; change (map ?f ?l) with (f <$> l);
      rewrite list_lookup_fmap; [by rewrite Hi|by rewrite Hj].
Qed.
End Eligibility.

Lemma activeEntries_ids (players : list Player.t) (i : string) :
  i ∈ map fst (activeEntries players) →
  ∃ p, p ∈ players ∧ Player.id p = i ∧ Player.folded p = false.
Proof.
  intros Hi. apply list_elem_of_fmap in Hi as (e & -> & He).
  apply elem_of_sortBy in He.
  apply list_elem_of_fmap in He as (p & -> & Hp).
  apply list_elem_of_filter in Hp as [Hf Hp]. by exists p.
Qed.

(** X21: The pots of [calculateSidePots]: there is always at least one; only
    players who have not folded are eligible; and the pots are nested, a
    player eligible for a pot being eligible for every pot before it. *)
Theorem side_pot_eligibility (players : list Player.t) :
  calculateSidePots players ≠ [] ∧
  (∀ pot i, pot ∈ calculateSidePots players → i ∈ Pot.eligiblePlayerIds pot →
            ∃ p, p ∈ players ∧ Player.id p = i ∧ Player.folded p = false) ∧
  (∀ i j pi pj, (i ≤ j)%nat →
                calculateSidePots players !! i = Some pi →
                calculateSidePots players !! j = Some pj →
                Pot.eligiblePlayerIds pj ⊆ Pot.eligiblePlayerIds pi).
Proof.
  unfold calculateSidePots.
  destruct (length (activeEntries players) =? 0)%nat.
  { split; [done|]. split.
    - intros pot i Hpot Hi. apply list_elem_of_singleton in Hpot as ->. inversion Hi.
    - intros [|i] [|j] pi pj Hij Hi Hj; simpl in *; try done; try lia.
      by injection Hi as <-; injection Hj as <-. }
  destruct (levelLoop_eligible_pots players (activeEntries players) (betLevels players))
    as [Hids Hnest].
  destruct (foldl _ _ _) as [pots prev]. simpl in *.
  destruct pots as [|pot pots]; simpl.
  - split; [done|]. split.
    + intros pot i Hpot Hi. apply list_elem_of_singleton in Hpot as ->. simpl in Hi.
      apply list_elem_of_fmap in Hi as (p & -> & Hp).
      apply list_elem_of_filter in Hp as [Hf Hp]. by exists p.
    + intros [|i] [|j] pi pj Hij Hi Hj; simpl in *; try done; try lia.
      by injection Hi as <-; injection Hj as <-.
  - split; [done|]. split; [|done].
    intros q i Hq Hi. apply activeEntries_ids. by eapply Hids.
Qed.

(** A folded player paid into the first level only: it is eligible for no
    pot, and the third pot is for the one player who covers every level. *)
Example side_pots_with_a_fold :
  calculateSidePots
    [samplePlayer "p1" 0 5 true false; samplePlayer "p2" 0 20 false true;
     samplePlayer "p3" 5 30 false false]
  = [Pot.mk 15 ["p2"; "p3"]; Pot.mk 30 ["p2"; "p3"]; Pot.mk 10 ["p3"]].
Proof. vm_compute. reflexivity. Qed.

(** ** side-pots.ts: awardPots and mergePots as a whole *)

Lemma awardPotsFrom_winners (pots : list Pot.t) (winnersByPot : gmap nat (list string))
    (playerId : string) :
  ∀ (i : nat) (winnings : gmap string Z),
    is_Some (awardPotsFrom i pots winnersByPot winnings !! playerId) →
    is_Some (winnings !! playerId) ∨
    ∃ k winners, (i ≤ k < i + length pots)%nat ∧
                 winnersByPot !! k = Some winners ∧ playerId ∈ winners.
Proof.
  induction pots as [|pot rest IH]; intros i winnings Hsome; simpl in *; [by left|].
  destruct (winnersByPot !! i) as [winners|] eqn:Hw; simpl in Hsome.
  - destruct (length winners =? 0)%nat.
    + destruct (IH _ _ Hsome) as [?|(k & ws & ? & ? & ?)]; [by left|].
      right. exists k, ws. split; [lia|done].
    + destruct (IH _ _ Hsome) as [Hhere|(k & ws & ? & ? & ?)].
      * destruct (decide (playerId ∈ winners)) as [Hin|Hout].
        -- right. exists i, winners. split; [lia|done].
        -- left. by rewrite awardWinners_other in Hhere.
      * right. exists k, ws. split; [lia|done].
  - destruct (IH _ _ Hsome) as [?|(k & ws & ? & ? & ?)]; [by left|].
    right. exists k, ws. split; [lia|done].
Qed.

(** X23: Over all the pots, [awardPots] hands out exactly the chips of the pots
    that have a winner (a pot without winners is passed over and its chips
    go to nobody), and only players named as a winner of some pot get an
    entry in the winnings. *)
Theorem awardPots_hands_out (pots : list Pot.t)
    (winnersByPot : gmap nat (list string)) :
  Forall (λ pot, 0 ≤ Pot.amount pot) pots →
  winningsTotal (awardPots pots winnersByPot) = contestedTotal 0 pots winnersByPot ∧
  ∀ playerId,
    is_Some (awardPots pots winnersByPot !! playerId) →
    ∃ k winners, (k < length pots)%nat ∧
                 winnersByPot !! k = Some winners ∧ playerId ∈ winners.
Proof.
  intros Hnn. unfold awardPots. split.
  - rewrite awardPotsFrom_total by done.
    unfold winningsTotal. rewrite map_fold_empty. lia.
  - intros playerId Hsome.
    destruct (awardPotsFrom_winners _ _ _ _ _ Hsome) as [Hempty|(k & ws & ? & ? & ?)].
    + rewrite lookup_empty in Hempty. by destruct Hempty.
    + exists k, ws. split; [lia|done].
Qed.

Lemma awardPots_hands_out_witness :
  winningsTotal
    (awardPots [Pot.mk 150 ["A"; "B"; "C"]; Pot.mk 100 ["B"; "C"]; Pot.mk 7 []]
               {[0%nat := ["A"; "C"]; 1%nat := ["C"]]})
  = 250.
Proof.
  destruct (awardPots_hands_out
              [Pot.mk 150 ["A"; "B"; "C"]; Pot.mk 100 ["B"; "C"]; Pot.mk 7 []]
              {[0%nat := ["A"; "C"]; 1%nat := ["C"]]}) as [Htotal _].
  - repeat constructor; simpl; lia.
  - rewrite Htotal. reflexivity.
Defined.

Section Distinct.
Context {A : Type} `{EqDecision A}.

Lemma elem_of_distinct (l seen : list A) (x : A) :
  x ∈ distinct seen l ↔ x ∈ l ∧ x ∉ seen.
Proof.
  revert seen. induction l as [|y l IH]; intros seen; simpl.
  - split; [intros Hx; inversion Hx|intros [Hx _]; inversion Hx].
  - case_bool_decide as Hy.
    + rewrite IH, elem_of_cons. split; [tauto|].
      intros [[->|?] ?]; [done|tauto].
    + rewrite !elem_of_cons, IH, elem_of_cons. split.
      * intros [->|[? ?]]; [tauto|]. tauto.
      * intros [[->|?] ?]; [tauto|].
        destruct (decide (x = y)) as [->|?]; tauto.
Qed.

Lemma NoDup_distinct (l seen : list A) : NoDup (distinct seen l).
Proof.
  revert seen. induction l as [|y l IH]; intros seen; simpl; [constructor|].
  case_bool_decide; [apply IH|].
  apply NoDup_cons. split; [|apply IH].
  rewrite elem_of_distinct, elem_of_cons. tauto.
Qed.
End Distinct.

Lemma mergePots_amount (pots : list Pot.t) :
  foldl (λ sum pot, sum + Pot.amount pot) 0 pots = potTotal pots.
Proof.
  assert (∀ acc, foldl (λ sum pot, sum + Pot.amount pot) acc pots
                 = acc + potTotal pots) as Hsum.
  { unfold potTotal. induction pots as [|p ps IH]; intros acc; simpl; [lia|].
    rewrite IH. lia. }
  rewrite Hsum. lia.
Qed.

(** X24: [mergePots] keeps every chip and every eligible player: the merged
    amount is the sum of the amounts, and the merged eligibility lists each
    player once who was eligible for some pot, and nobody else. *)
Theorem mergePots_merges (pots : list Pot.t) :
  Pot.amount (mergePots pots) = potTotal pots ∧
  NoDup (Pot.eligiblePlayerIds (mergePots pots)) ∧
  ∀ i, i ∈ Pot.eligiblePlayerIds (mergePots pots)
       ↔ ∃ pot, pot ∈ pots ∧ i ∈ Pot.eligiblePlayerIds pot.
Proof.
  unfold mergePots. simpl. split; [|split].
  - apply mergePots_amount.
  - apply NoDup_distinct.
  - intros i. rewrite elem_of_distinct.
    change (flat_map ?f ?l) with (flat_map f l).
    split.
    + intros [Hi _]. apply list_elem_of_In, in_flat_map in Hi as (pot & Hpot & Hi).
      exists pot. split; by apply list_elem_of_In.
    + intros (pot & Hpot & Hi). split; [|apply not_elem_of_nil].
      apply list_elem_of_In, in_flat_map. exists pot.
      split; by apply list_elem_of_In.
Qed.

(** Merging the two pots of the spec's example. *)
Example mergePots_example :
  mergePots [Pot.mk 150 ["A"; "B"; "C"]; Pot.mk 100 ["B"; "C"]]
  = Pot.mk 250 ["A"; "B"; "C"].
Proof. vm_compute. reflexivity. Qed.

(** ** showdown.ts: running out the board *)

Lemma runOutLoop_fills (n : nat) :
  ∀ deck communityCards,
    (length deck ≤ n)%nat →
    ∃ dealt,
      (runOutLoop deck communityCards).1 = communityCards ++ dealt ∧
      dealt ⊆ deck ∧
      ((length communityCards ≤ 5)%nat →
       (length (runOutLoop deck communityCards).1 ≤ 5)%nat) ∧
      ((length communityCards ≤ 5)%nat →
       (2 * (5 - length communityCards) ≤ length deck)%nat →
       length (runOutLoop deck communityCards).1 = 5%nat ∧
       length (runOutLoop deck communityCards).2
       = (length deck - 2 * (5 - length communityCards))%nat).
Proof.
  induction n as [|n IH]; intros deck cc Hn.
  - destruct deck; [|simpl in Hn; lia]. exists []. unfold runOutLoop.
    destruct (Nat.ltb_spec (length cc) 5); simpl;
      rewrite app_nil_r; repeat split; try done;
        try apply list_subseteq_nil; simpl in *; lia.
  - destruct deck as [|burn [|card deck2]].
    + exists []. unfold runOutLoop.
      destruct (Nat.ltb_spec (length cc) 5); simpl;
        rewrite app_nil_r; repeat split; try done;
        try apply list_subseteq_nil; simpl in *; lia.
    + exists []. unfold runOutLoop.
      destruct (Nat.ltb_spec (length cc) 5); simpl;
        rewrite app_nil_r; repeat split; try done;
        try apply list_subseteq_nil; simpl in *; lia.
    + destruct (Nat.ltb_spec (length cc) 5) as [Hlt|Hge].
      * destruct (IH deck2 (cc ++ [card])) as (dealt & Hcc & Hsub & Hle & Hfull).
        { simpl in Hn. lia. }
        assert (runOutLoop (burn :: card :: deck2) cc
                = runOutLoop deck2 (cc ++ [card])) as ->.
        { simpl. apply Nat.ltb_lt in Hlt. by rewrite Hlt. }
        rewrite length_app in Hle, Hfull. simpl in Hle, Hfull.
        exists (card :: dealt).
        split; [by rewrite Hcc, <- app_assoc|]. split.
        -- intros c Hc. apply elem_of_cons in Hc as [->|Hc];
             [right; by left|right; right; by apply Hsub].
        -- split; [intros _; apply Hle; lia|].
           intros _ Hdeck. simpl in Hdeck.
           destruct Hfull as [H5 Hrest]; [lia..|].
           split; [done|]. rewrite Hrest. simpl. lia.
      * exists []. simpl. apply Nat.ltb_ge in Hge as Hge'. rewrite Hge'. simpl.
        rewrite app_nil_r. repeat split; try done;
          try apply list_subseteq_nil; simpl in *; lia.
Qed.

(** X25: Running out the board keeps the cards that lie on it, adds cards from
    the deck only, never puts more than five on the board, and with a deck
    of at least two cards per missing board card fills the board to five,
    using exactly those cards. The phase is the showdown; seats and pots are
    as they were. *)
Theorem runOutBoard_fills (s : GameState.t) :
  (length (GameState.communityCards s) ≤ 5)%nat →
  GameState.phase (runOutBoard s) = showdown ∧
  GameState.players (runOutBoard s) = GameState.players s ∧
  GameState.pots (runOutBoard s) = GameState.pots s ∧
  (∃ dealt, GameState.communityCards (runOutBoard s)
            = GameState.communityCards s ++ dealt ∧
            dealt ⊆ GameState.deck s) ∧
  (length (GameState.communityCards (runOutBoard s)) ≤ 5)%nat ∧
  ((2 * (5 - length (GameState.communityCards s)) ≤ length (GameState.deck s))%nat →
   length (GameState.communityCards (runOutBoard s)) = 5%nat ∧
   length (GameState.deck (runOutBoard s))
   = (length (GameState.deck s) - 2 * (5 - length (GameState.communityCards s)))%nat).
Proof.
  intros Hboard. unfold runOutBoard.
  destruct (runOutLoop_fills (length (GameState.deck s)) (GameState.deck s)
              (GameState.communityCards s) ltac:(lia))
    as (dealt & Hcc & Hsub & Hle & Hfull).
  destruct (runOutLoop _ _) as [cc deck']. simpl in *.
  repeat split; try done; try (by apply Hle); try (by apply Hfull).
  by exists dealt.
Qed.

Lemma runOutBoard_fills_witness :
  ∃ s, run [NewHand createDeck; Act "p2" (act all_in); Act "p1" (act call)]
           (seated [Alice; Bob]) = Some s ∧
       length (GameState.communityCards (runOutBoard s)) = 5%nat ∧
       length (GameState.deck (runOutBoard s)) = 38%nat.
Proof.
  eexists. split; [vm_compute; reflexivity|].
  match goal with
  | |- length (GameState.communityCards (runOutBoard ?s)) = _ ∧ _ =>
      destruct (runOutBoard_fills s) as (_ & _ & _ & _ & _ & Hfull);
        [simpl; lia|destruct Hfull as [H5 Hdeck]; [simpl; lia|]]
  end.
  split; [exact H5|]. rewrite Hdeck. reflexivity.
Defined.

(** With too few cards the loop stops on the empty deck, the board short. *)
Example runOutBoard_short_deck :
  (runOutLoop [mkCard 2 spades; mkCard 3 spades; mkCard 4 spades] []).1
  = [mkCard 3 spades].
Proof. reflexivity. Qed.

(** ** party/server.ts: taking a seat away *)

Lemma findIndex_range {A} (pred : A → bool) (l : list A) :
  findIndex pred l = -1 ∨ 0 ≤ findIndex pred l < Z.of_nat (length l).
Proof.
  destruct (findIndex_found pred l) as [?|(x & Hx & _)]; [by left|].
  right. by eapply lookupZ_Some_range.
Qed.

Lemma removeFirst_findIndex (players : list Player.t) (playerId : string) :
  let k := findIndex (λ p, bool_decide (Player.id p = playerId)) players in
  map Player.id (if k =? -1 then players else delete (Z.to_nat k) players)
  = removeFirst playerId (map Player.id players).
Proof.
  induction players as [|p ps IH]; simpl; [done|].
  case_bool_decide as Hp; simpl; [done|].
  simpl in IH. rewrite <- IH.
  destruct (findIndex_range (λ p, bool_decide (Player.id p = playerId)) ps)
    as [Hnone|Hsome].
  - rewrite Hnone. done.
  - set (r := findIndex (λ p, bool_decide (Player.id p = playerId)) ps) in *.
    destruct (Z.ltb_spec r 0) as [?|_]; [lia|].
    destruct (Z.eqb_spec (r + 1) (-1)) as [?|_]; [lia|].
    destruct (Z.eqb_spec r (-1)) as [?|_]; [lia|].
    replace (Z.to_nat (r + 1)) with (S (Z.to_nat r)) by lia.
    done.
Qed.

Lemma imap_dealer_flags_map {B} (g : Player.t → B) (players : list Player.t) :
  (∀ b p, g (Player.set_isDealer b p) = g p) →
  ∀ flag : nat → bool,
    map g (imap (λ index player, Player.set_isDealer (flag index) player) players)
    = map g players.
Proof.
  intros Hg. induction players as [|p ps IH]; intros flag; simpl; [done|].
  rewrite Hg. f_equal. apply (IH (λ i, flag (S i))).
Qed.

Lemma removePlayerSeat_ids (s : GameState.t) (playerId : string) :
  map Player.id (GameState.players (removePlayerSeat s playerId))
  = removeFirst playerId (map Player.id (GameState.players s)).
Proof.
  rewrite <- removeFirst_findIndex. unfold removePlayerSeat. simpl.
  destruct (_ =? -1); [done|]. simpl.
  by rewrite (imap_dealer_flags_map Player.id).
Qed.

(** The seat an index points at once seat [k] is gone: the seat it pointed
    at before, or, when that is the seat taken away, the seat that came
    next (the first seat after the last). *)
Lemma shiftSeatIndex_follows {A} (l : list A) (k index : Z) :
  (2 ≤ length l)%nat → 0 ≤ k < Z.of_nat (length l) →
  0 ≤ index < Z.of_nat (length l) →
  let index' := shiftSeatIndex (length (delete (Z.to_nat k) l)) k index in
  0 ≤ index' < Z.of_nat (length l) - 1 ∧
  lookupZ (delete (Z.to_nat k) l) index'
  = lookupZ l (if k =? index then (index + 1) `mod` Z.of_nat (length l) else index).
Proof.
  intros Hn Hk Hi. unfold shiftSeatIndex.
  rewrite length_delete by (apply lookup_lt_is_Some; lia).
  destruct (Nat.eqb_spec (length l - 1) 0) as [?|_]; [lia|].
  replace (Z.of_nat (length l - 1)) with (Z.of_nat (length l) - 1) by lia.
  unfold lookupZ.
  destruct (Z.ltb_spec k index) as [Hlt|Hge].
  - destruct (Z.eqb_spec k index) as [?|_]; [lia|]. split; [lia|].
    destruct (Z.ltb_spec (index - 1) 0), (Z.ltb_spec index 0); try lia.
    rewrite list_lookup_delete_ge by lia. f_equal. lia.
  - destruct (Z.eqb_spec k index) as [->|Hne].
    + destruct (decide (index + 1 < Z.of_nat (length l))) as [Hin|Hlast].
      * rewrite Z.rem_small by lia. rewrite Z.mod_small by lia. split; [lia|].
        destruct (Z.ltb_spec index 0), (Z.ltb_spec (index + 1) 0); try lia.
        rewrite list_lookup_delete_ge by lia. f_equal. lia.
      * assert (index = Z.of_nat (length l) - 1) as -> by lia.
        rewrite Z.rem_same by lia.
        replace (Z.of_nat (length l) - 1 + 1) with (Z.of_nat (length l)) by lia.
        rewrite Z.mod_same by lia. split; [lia|]. simpl.
        rewrite list_lookup_delete_lt by lia. done.
    + split; [lia|]. destruct (Z.ltb_spec index 0); [lia|].
      rewrite list_lookup_delete_lt by lia. done.
Qed.

Lemma lookupZ_imap_dealer (players : list Player.t) (flag : nat → bool) (j : Z) :
  lookupZ (imap (λ index player, Player.set_isDealer (flag index) player) players) j
  = Player.set_isDealer (flag (Z.to_nat j)) <$> lookupZ players j.
Proof.
  unfold lookupZ. destruct (j <? 0); [done|]. by rewrite list_lookup_imap.
Qed.

(** X26: Taking a seated player's seat away from a table of at least two, with
    the button and the turn on seats of the table: one seat fewer; the
    button and the turn stay with the players who had them, or pass to the
    next player when it is their seat that goes; both indices are seats of
    the smaller table; and the button flag is set on the dealer's seat and
    on no other. *)
Theorem removePlayerSeat_renumbers (s : GameState.t) (playerId : string) :
  let n := Z.of_nat (length (GameState.players s)) in
  let k := findIndex (λ p, bool_decide (Player.id p = playerId))
                     (GameState.players s) in
  let s' := removePlayerSeat s playerId in
  2 ≤ n → k ≠ -1 →
  0 ≤ GameState.dealerIndex s < n → 0 ≤ GameState.activePlayerIndex s < n →
  Z.of_nat (length (GameState.players s')) = n - 1 ∧
  0 ≤ GameState.dealerIndex s' < n - 1 ∧
  0 ≤ GameState.activePlayerIndex s' < n - 1 ∧
  Player.id <$> lookupZ (GameState.players s') (GameState.dealerIndex s')
  = Player.id <$> lookupZ (GameState.players s)
                    (if k =? GameState.dealerIndex s
                     then (GameState.dealerIndex s + 1) `mod` n
                     else GameState.dealerIndex s) ∧
  Player.id <$> lookupZ (GameState.players s') (GameState.activePlayerIndex s')
  = Player.id <$> lookupZ (GameState.players s)
                    (if k =? GameState.activePlayerIndex s
                     then (GameState.activePlayerIndex s + 1) `mod` n
                     else GameState.activePlayerIndex s) ∧
  (∀ j q, lookupZ (GameState.players s') j = Some q →
          Player.isDealer q = (j =? GameState.dealerIndex s')) ∧
  (GameState.lastRaiserIndex s = k → GameState.lastRaiserIndex s' = -1).
Proof.
  intros n k s' Hn Hk Hd Ha.
  destruct (findIndex_range (λ p, bool_decide (Player.id p = playerId))
              (GameState.players s)) as [?|Hrange]; [done|].
  fold k n in Hrange.
  destruct (shiftSeatIndex_follows (GameState.players s) k (GameState.dealerIndex s))
    as [Hd' Hdseat]; [lia..|].
  destruct (shiftSeatIndex_follows (GameState.players s) k
              (GameState.activePlayerIndex s)) as [Ha' Haseat]; [lia..|].
  fold n in Hd', Ha', Hdseat, Haseat.
  assert (length (delete (Z.to_nat k) (GameState.players s))
          = (length (GameState.players s) - 1)%nat) as Hlen
    by (apply length_delete, lookup_lt_is_Some; lia).
  unfold s', removePlayerSeat. fold k.
  destruct (Z.eqb_spec k (-1)) as [?|_]; [done|]. simpl.
  rewrite length_imap, !lookupZ_imap_dealer.
  split; [lia|]. split; [done|]. split; [done|].
  rewrite <- !option_fmap_compose.
  split; [by rewrite <- Hdseat|]. split; [by rewrite <- Haseat|]. split.
  - intros j q Hq. pose proof (lookupZ_Some_range _ _ _ Hq) as Hj.
    rewrite length_imap in Hj. rewrite lookupZ_imap_dealer in Hq.
    destruct (lookupZ _ j) as [q0|]; [|done]. injection Hq as <-. simpl.
    rewrite Z2Nat.id by lia.
    destruct (Nat.ltb_spec 0 (length (delete (Z.to_nat k) (GameState.players s))));
      [done|lia].
  - intros Hlast. unfold shiftRaiserIndex. rewrite Hlen, Hlast.
    destruct (Nat.eqb_spec (length (GameState.players s) - 1) 0) as [?|_]; [done|].
    destruct (Z.leb_spec 0 k); [|lia].
    destruct (Z.ltb_spec k k); [lia|]. by rewrite Z.eqb_refl.
Qed.

Lemma removePlayerSeat_renumbers_witness :
  let s := GameState.mk showdown
             [samplePlayer "p1" 20 0 false false; samplePlayer "p2" 20 0 false false;
              samplePlayer "p3" 20 0 false false]
             [] [Pot.mk 0 []] 0 2 0 2 0 [] 1 2 1 in
  GameState.dealerIndex (removePlayerSeat s "p3") = 0 ∧
  Player.id <$> lookupZ (GameState.players (removePlayerSeat s "p3"))
                  (GameState.dealerIndex (removePlayerSeat s "p3"))
  = Some "p1" ∧
  GameState.lastRaiserIndex (removePlayerSeat s "p3") = -1.
Proof.
  intros s.
  destruct (removePlayerSeat_renumbers s "p3")
    as (_ & _ & _ & Hbutton & _ & _ & Hraiser); [vm_compute; done..|].
  split; [reflexivity|]. split; [rewrite Hbutton; reflexivity|].
  apply Hraiser. reflexivity.
Defined.

Lemma removePlayerSeat_unseated (s : GameState.t) (playerId : string) :
  playerId ∉ map Player.id (GameState.players s) → removePlayerSeat s playerId = s.
Proof.
  intros Hout. unfold removePlayerSeat.
  destruct (findIndex_found (λ p, bool_decide (Player.id p = playerId))
              (GameState.players s)) as [->|(p & Hp & Hid)]; [done|].
  exfalso. apply Hout. apply bool_decide_eq_true in Hid as <-.
  apply list_elem_of_fmap. exists p. split; [done|].
  apply lookupZ_lookup in Hp. by eapply list_elem_of_lookup_2.
Qed.

Lemma foldl_removePlayerSeat_ids (ids : list string) :
  ∀ s, map Player.id (GameState.players (foldl removePlayerSeat s ids))
       = foldl (λ l d, removeFirst d l) (map Player.id (GameState.players s)) ids.
Proof.
  induction ids as [|d ids IH]; intros s; simpl; [done|].
  by rewrite IH, removePlayerSeat_ids.
Qed.

Lemma removeFirst_keeps_head (x : string) (ds : list string) :
  x ∉ ds →
  ∀ l, foldl (λ l d, removeFirst d l) (x :: l) ds
       = x :: foldl (λ l d, removeFirst d l) l ds.
Proof.
  induction ds as [|d ds IH]; intros Hx l; simpl; [done|].
  apply not_elem_of_cons in Hx as [Hne Hx].
  rewrite bool_decide_eq_false_2 by done. by apply IH.
Qed.

Lemma removeFirst_all_disconnected (connectedIds : gset string) (l : list string) :
  foldl (λ l d, removeFirst d l) l (filter (λ i, i ∉ connectedIds) l)
  = filter (λ i, i ∈ connectedIds) l.
Proof.
  induction l as [|x l IH]; [done|].
  rewrite !filter_cons. destruct (decide (x ∈ connectedIds)) as [Hin|Hout].
  - rewrite decide_False by tauto.
    rewrite removeFirst_keeps_head, IH; [done|].
    intros Hx. apply list_elem_of_filter in Hx as [? _]. done.
  - rewrite decide_True by done. simpl.
    rewrite bool_decide_eq_true_2 by done. apply IH.
Qed.

(** X27: Pruning leaves exactly the connected players, in their order: every
    seat whose player has no connection is taken away, and no other. *)
Theorem pruneDisconnectedSeats_keeps_connected (connectedIds : gset string)
    (s : GameState.t) :
  map Player.id (GameState.players (pruneDisconnectedSeats connectedIds s))
  = filter (λ i, i ∈ connectedIds) (map Player.id (GameState.players s)).
Proof.
  unfold pruneDisconnectedSeats. rewrite foldl_removePlayerSeat_ids.
  rewrite <- (removeFirst_all_disconnected connectedIds). f_equal.
  generalize (GameState.players s). clear. intros l.
  induction l as [|p l IH]; [done|]. simpl.
  rewrite !filter_cons. destruct (decide (Player.id p ∉ connectedIds)); simpl;
    by rewrite IH.
Qed.

(** Two of four players have dropped; the other two keep their order. *)
Example prune_example :
  map Player.id
    (GameState.players
       (pruneDisconnectedSeats {["p2"; "p4"]}
          (seated [samplePlayer "p1" 20 0 false false; samplePlayer "p2" 20 0 false false;
                   samplePlayer "p3" 20 0 false false; samplePlayer "p4" 20 0 false false])))
  = ["p2"; "p4"].
Proof. vm_compute. reflexivity. Qed.

(** ** showdown.ts: paying the pots *)

Lemma levelStep_nonneg (players : list Player.t) (active : list (string * Z))
    (pots : list Pot.t) (prev level : Z) :
  Forall (λ pot, 0 ≤ Pot.amount pot) pots →
  Forall (λ pot, 0 ≤ Pot.amount pot) (levelStep players active (pots, prev) level).1.
Proof.
  intros Hnn. unfold levelStep.
  destruct (_ <=? 0); [done|].
  destruct (Z.ltb_spec 0 (levelAmount players prev (level - prev))) as [Hpos|_]; simpl.
  - destruct (_ && _); simpl.
    + clear -Hnn Hpos. induction Hnn as [|p [|q l] Hp Hl IH]; simpl in *.
      * constructor.
      * constructor; [simpl; lia|constructor].
      * constructor; [done|]. apply IH.
    + apply Forall_app. split; [done|]. constructor; [simpl; lia|constructor].
  - done.
Qed.

Lemma calculateSidePots_nonneg (players : list Player.t) :
  Forall (λ pot, 0 ≤ Pot.amount pot) (calculateSidePots players).
Proof.
  unfold calculateSidePots.
  destruct (_ =? 0)%nat; [by constructor|].
  assert (∀ levels pots prev,
            Forall (λ pot, 0 ≤ Pot.amount pot) pots →
            Forall (λ pot, 0 ≤ Pot.amount pot)
                   (foldl (levelStep players (activeEntries players)) (pots, prev) levels).1)
    as Hloop.
  { induction levels as [|level levels IH]; intros pots prev Hnn; cbn [foldl]; [done|].
    pose proof (levelStep_nonneg players (activeEntries players) pots prev level Hnn).
    destruct (levelStep _ _ _ _) as [pots' prev']. by apply IH. }
  specialize (Hloop (betLevels players) [] 0 ltac:(constructor)).
  destruct (foldl _ _ _) as [pots prev]. simpl in *.
  destruct pots; simpl; [by repeat constructor|done].
Qed.

Lemma contestedTotal_bound (pots : list Pot.t) (winnersByPot : gmap nat (list string)) :
  Forall (λ pot, 0 ≤ Pot.amount pot) pots →
  ∀ i, 0 ≤ contestedTotal i pots winnersByPot ≤ potTotal pots.
Proof.
  unfold potTotal. induction 1 as [|pot rest Hpot _ IH]; intros i; simpl; [lia|].
  specialize (IH (S i)). destruct (_ =? 0)%nat; lia.
Qed.

(** With one seat per id, the chips a winnings map gives to the seats are
    all the chips it holds, provided it names seated players only. *)
Lemma paidToSeats_all (players : list Player.t) :
  ∀ winnings : gmap string Z,
    NoDup (map Player.id players) →
    (∀ i, is_Some (winnings !! i) → i ∈ map Player.id players) →
    paidToSeats winnings players = winningsTotal winnings.
Proof.
  unfold paidToSeats, winningsTotal.
  induction players as [|p ps IH]; intros winnings Hnd Hdom; simpl.
  - assert (winnings = ∅) as ->; [|by rewrite map_fold_empty].
    apply map_empty. intros i. apply eq_None_not_Some. intros Hi.
    specialize (Hdom i Hi). inversion Hdom.
  - apply NoDup_cons in Hnd as [Hp Hnd].
    assert (map (λ q, default 0 (winnings !! Player.id q)) ps
            = map (λ q, default 0 (delete (Player.id p) winnings !! Player.id q)) ps)
      as ->.
    { apply map_ext_in. intros q Hq. rewrite lookup_delete_ne; [done|].
      intros Heq. apply Hp. rewrite Heq. apply list_elem_of_In in Hq.
      apply list_elem_of_fmap. by exists q. }
    rewrite (IH (delete (Player.id p) winnings) Hnd).
    + destruct (winnings !! Player.id p) as [v|] eqn:Hv; simpl.
      * rewrite (map_fold_delete_L _ _ (Player.id p) v winnings); [lia|intros; lia|done].
      * by rewrite delete_id.
    + intros i [v Hi]. apply lookup_delete_Some in Hi as [Hne Hi].
      specialize (Hdom i ltac:(eauto)). simpl in Hdom.
      apply elem_of_cons in Hdom as [?|?]; [done|done].
Qed.

Lemma paid_chipTotal (winnings : gmap string Z) (players : list Player.t) :
  chipTotal
    (map (λ p, Player.set_chips (Player.chips p + default 0 (winnings !! Player.id p)) p)
         players)
  = chipTotal players + paidToSeats winnings players.
Proof.
  unfold chipTotal, paidToSeats. induction players as [|p ps IH]; simpl; [done|].
  unfold chipTotal in IH. rewrite IH. lia.
Qed.

Section Showdown.
Context {Hand : Type}.
Variable handName : Hand → string.
Variable handRank : Hand → Z.
Variable solve : list string → option Hand.
Variable winners : list Hand → list nat.

Lemma determineWinners_among (playerCards : list (string * list Card))
    (communityCards : list Card) (winnerIds : list string) :
  determineWinners solve winners playerCards communityCards = Some winnerIds →
  winnerIds ⊆ map fst playerCards.
Proof.
  unfold determineWinners. intros Hmap i Hi.
  destruct (findWinners _ _ _) as [winnerIndices|]; [|done]. simpl in Hmap.
  apply mapM_Some in Hmap.
  apply list_elem_of_lookup in Hi as [k Hk].
  destruct (Forall2_lookup_r _ _ _ _ _ Hmap Hk) as (j & _ & Hj).
  destruct (playerCards !! j) as [pc|] eqn:Hpc; [|done]. injection Hj as <-.
  apply list_elem_of_fmap. exists pc. split; [done|].
  by eapply list_elem_of_lookup_2.
Qed.

Lemma winnersLoop_among (pots : list Pot.t)
    (handEvaluations : list (Player.t * HandEvaluation.t)) (communityCards : list Card) :
  ∀ (potIndex : nat) (acc result : gmap nat (list string)),
    winnersLoop solve winners potIndex pots handEvaluations communityCards acc
    = Some result →
    ∀ k ws, result !! k = Some ws →
            acc !! k = Some ws ∨
            ws ⊆ map (λ h, Player.id (fst h)) handEvaluations.
Proof.
  induction pots as [|pot rest IH]; intros potIndex acc result Hloop k ws Hk; simpl in Hloop.
  - injection Hloop as <-. by left.
  - destruct (_ =? 0)%nat; [by eapply IH|].
    destruct (determineWinners _ _ _ _) as [winnerIds|] eqn:Hdet; [|done].
    simpl in Hloop. destruct (IH _ _ _ Hloop k ws Hk) as [Hacc|?]; [|by right].
    destruct (decide (potIndex = k)) as [->|Hne].
    + rewrite lookup_insert_eq in Hacc. injection Hacc as <-. right.
      intros i Hi. apply determineWinners_among in Hdet. specialize (Hdet i Hi).
      rewrite map_map in Hdet. simpl in Hdet.
      apply list_elem_of_fmap in Hdet as (h & -> & Hh).
      apply list_elem_of_filter in Hh as [_ Hh].
      apply list_elem_of_fmap. by exists h.
    + rewrite lookup_insert_ne in Hacc by done. by left.
Qed.

(** X30: The showdown creates no chips. At a table with one seat per id, when
    [runShowdown] returns: the stacks grow by exactly the winnings; if one
    player is left in the hand the winnings are the pots of the table, all
    to that player, and no hand is evaluated; otherwise the winnings are the
    chips of the side pots that have a winner, never more than the side pots
    hold, and only players still in the hand win. *)
Theorem runShowdown_pays (state : GameState.t) (results : list ShowdownResult.t)
    (winnings : gmap string Z) (updatedPlayers : list Player.t) :
  NoDup (map Player.id (GameState.players state)) →
  runShowdown handName handRank solve winners state
  = Some (results, winnings, updatedPlayers) →
  chipTotal updatedPlayers
  = chipTotal (GameState.players state) + winningsTotal winnings ∧
  map Player.id updatedPlayers = map Player.id (GameState.players state) ∧
  (∀ i, is_Some (winnings !! i) →
        ∃ p, p ∈ GameState.players state ∧ Player.id p = i ∧ Player.folded p = false) ∧
  match filter (λ p, Player.folded p = false) (GameState.players state) with
  | [winner] => winnings = {[Player.id winner := potTotal (GameState.pots state)]}
  | _ => 0 ≤ winningsTotal winnings
         ≤ potTotal (calculateSidePots (GameState.players state))
  end.
Proof.
  intros Hnd. unfold runShowdown.
  set (activePlayers := filter (λ p, Player.folded p = false) (GameState.players state)).
  assert (∀ p, p ∈ activePlayers → p ∈ GameState.players state ∧ Player.folded p = false)
    as Hactive.
  { intros p Hp. apply list_elem_of_filter in Hp. tauto. }
  assert (∀ pots, foldl (λ sum pot, sum + Pot.amount pot) 0 pots = potTotal pots) as Hsum.
  { intros pots. pose proof (mergePots_amount pots) as Hm. exact Hm. }
  assert (∀ (w : gmap string Z) (l : list Player.t),
            map Player.id
              (map (λ p, Player.set_chips (Player.chips p + default 0 (w !! Player.id p)) p) l)
            = map Player.id l) as Hids.
  { intros w l. rewrite map_map. done. }
  assert (contested :
    (handEvaluations ←
       mapM (λ player,
               evaluation ←
                 evaluateHand handName handRank solve
                   (Player.holeCards player ++ GameState.communityCards state);
               Some (player, evaluation)) activePlayers;
     winnersByPot ←
       winnersLoop solve winners 0 (calculateSidePots (GameState.players state))
         handEvaluations (GameState.communityCards state) ∅;
     let winnings := awardPots (calculateSidePots (GameState.players state)) winnersByPot in
     let results :=
       map (λ h : Player.t * HandEvaluation.t,
              let '(player, evaluation) := h in
              ShowdownResult.mk (Player.id player) (Player.name player)
                (Player.holeCards player) (HandEvaluation.handName evaluation)
                (HandEvaluation.dinoHandName evaluation)
                (HandEvaluation.rank evaluation)
                (bool_decide (is_Some (winnings !! Player.id player))
                 && (0 <? default 0 (winnings !! Player.id player)))
                (default 0 (winnings !! Player.id player)))
           handEvaluations in
     let results := sortBy (λ r, - ShowdownResult.handRank r) results in
     let updatedPlayers :=
       map (λ p, Player.set_chips
                   (Player.chips p + default 0 (winnings !! Player.id p)) p)
           (GameState.players state) in
     Some (results, winnings, updatedPlayers))
    = Some (results, winnings, updatedPlayers) →
    chipTotal updatedPlayers
    = chipTotal (GameState.players state) + winningsTotal winnings ∧
    map Player.id updatedPlayers = map Player.id (GameState.players state) ∧
    (∀ i, is_Some (winnings !! i) →
          ∃ p, p ∈ GameState.players state ∧ Player.id p = i ∧ Player.folded p = false) ∧
    0 ≤ winningsTotal winnings
    ≤ potTotal (calculateSidePots (GameState.players state))).
  { intros Hrun.
    destruct (mapM _ activePlayers) as [handEvaluations|] eqn:Hevals; [|done].
    simpl in Hrun.
    destruct (winnersLoop _ _ _ _ _ _ _) as [winnersByPot|] eqn:Hloop; [|done].
    simpl in Hrun. injection Hrun as _ <- <-.
    assert (map (λ h, Player.id (fst h)) handEvaluations = map Player.id activePlayers)
      as Hplayers.
    { apply mapM_Some in Hevals. clear -Hevals.
      induction Hevals as [|p h ps hs Hp _ IH]; simpl; [done|].
      rewrite IH. f_equal.
      destruct (evaluateHand _ _ _ _); simpl in Hp; [|done]. by injection Hp as <-. }
    pose proof (calculateSidePots_nonneg (GameState.players state)) as Hnn.
    assert (∀ i, is_Some (awardPots (calculateSidePots (GameState.players state))
                            winnersByPot !! i) →
                 ∃ p, p ∈ GameState.players state ∧ Player.id p = i ∧
                      Player.folded p = false) as Hwho.
    { intros i Hi. unfold awardPots in Hi.
      destruct (awardPotsFrom_winners _ _ _ _ _ Hi) as [Hempty|(k & ws & _ & Hk & Hin)].
      { rewrite lookup_empty in Hempty. by destruct Hempty. }
      destruct (winnersLoop_among _ _ _ _ _ _ Hloop k ws Hk) as [Hempty|Hsub].
      { by rewrite lookup_empty in Hempty. }
      specialize (Hsub i Hin). rewrite Hplayers in Hsub.
      apply list_elem_of_fmap in Hsub as (p & -> & Hp).
      exists p. by destruct (Hactive p Hp). }
    split; [|split; [apply Hids|split; [done|]]].
    - rewrite paid_chipTotal. f_equal. apply paidToSeats_all; [done|].
      intros i Hi. destruct (Hwho i Hi) as (p & Hp & <- & _).
      apply list_elem_of_fmap. by exists p.
    - unfold awardPots. rewrite awardPotsFrom_total by done.
      unfold winningsTotal. rewrite map_fold_empty.
      pose proof (contestedTotal_bound _ winnersByPot Hnn 0%nat). lia. }
  destruct activePlayers as [|winner [|second rest]] eqn:Hfilter.
  - intros Hrun. destruct (contested Hrun) as (? & ? & ? & ?). done.
  - intros [= <- <- <-]. rewrite Hsum.
    assert (winner ∈ GameState.players state ∧ Player.folded winner = false)
      as [Hw Hwf] by (apply Hactive; by left).
    split; [|split; [|split; [|done]]].
    + unfold winningsTotal. rewrite map_fold_singleton.
      generalize (potTotal (GameState.pots state)). intros total.
      clear -Hnd Hw. unfold chipTotal.
      induction (GameState.players state) as [|p ps IH]; [inversion Hw|].
      simpl in Hnd. apply NoDup_cons in Hnd as [Hp Hnd]. simpl.
      case_bool_decide as Hid.
      * simpl. assert (map (λ q, if bool_decide (Player.id q = Player.id winner)
                                  then Player.set_chips (Player.chips q + total) q else q) ps
                       = ps) as ->; [|lia].
        clear -Hp Hid. induction ps as [|q ps IH]; simpl in *; [done|].
        rewrite bool_decide_eq_false_2.
        -- f_equal. apply IH. intros Hin. apply Hp. by right.
        -- intros Heq. apply Hp. rewrite Hid, <- Heq. by left.
      * apply elem_of_cons in Hw as [->|Hw]; [done|]. rewrite (IH Hnd Hw). lia.
    + rewrite map_map. apply map_ext. intros p. by case_bool_decide.
    + intros i [v Hi]. apply lookup_singleton_Some in Hi as [<- _]. by exists winner.
  - intros Hrun. destruct (contested Hrun) as (? & ? & ? & ?). done.
Qed.

End Showdown.

Lemma runShowdown_pays_witness :
  let s := runOutBoard
             (default (seated [])
                (run [NewHand createDeck; Act "p2" (act all_in); Act "p1" (act call)]
                     (seated [Alice; Bob]))) in
  let showdown := runShowdown fst snd sampleSolve sampleWinners s in
  map Player.chips (GameState.players s) = [0; 0] ∧
  (λ r, r.1.2) <$> showdown = Some ({["p2" := 40]} : gmap string Z) ∧
  (λ r, chipTotal r.2) <$> showdown = Some 40.
Proof.
  intros s showdown. split; [by vm_compute|]. split; [by vm_compute|].
  destruct showdown as [[[results winnings] updatedPlayers]|] eqn:Hrun;
    [|by vm_compute in Hrun].
  simpl. f_equal.
  assert (Hw : winnings = {["p2" := 40]}).
  { vm_compute in Hrun. by injection Hrun as _ <- _. }
  apply runShowdown_pays in Hrun as (-> & _).
  - subst winnings. by vm_compute.
  - vm_compute. apply NoDup_cons. split; [|apply NoDup_singleton].
    intros Hin. apply list_elem_of_singleton in Hin. discriminate.
Defined.

Section Winners.
Context {Hand : Type}.
Variable solve : list string → option Hand.
Variable winners : list Hand → list nat.

Lemma findWinners_in_range (allCards : list (list Card)) (winnerIndices : list nat) :
  findWinners solve winners allCards = Some winnerIndices →
  Forall (λ i, (i < length allCards)%nat) winnerIndices.
Proof.
  unfold findWinners.
  destruct (Nat.eqb_spec (length allCards) 0) as [?|?];
    [intros [= <-]; constructor|].
  destruct (Nat.eqb_spec (length allCards) 1) as [->|?];
    [intros [= <-]; constructor; [lia|constructor]|].
  destruct (mapM _ _) as [hands|] eqn:Hhands; [|done]. simpl. intros [= <-].
  apply length_mapM in Hhands.
  apply Forall_forall. intros i Hi.
  apply list_elem_of_filter in Hi as [_ Hi]. apply elem_of_seq in Hi. lia.
Qed.

Lemma findWinners_returns (allCards : list (list Card)) :
  (2 ≤ length allCards)%nat →
  is_Some (findWinners solve winners allCards)
  ↔ Forall (λ cards, is_Some (solve (cardsToNotation cards))) allCards.
Proof.
  intros Htwo. unfold findWinners.
  destruct (Nat.eqb_spec (length allCards) 0) as [?|_]; [lia|].
  destruct (Nat.eqb_spec (length allCards) 1) as [?|_]; [lia|].
  change (Forall (λ cards, is_Some (solve (cardsToNotation cards))) allCards)
    with (Forall (is_Some ∘ (λ cards, solve (cardsToNotation cards))) allCards).
  rewrite <- mapM_is_Some.
  destruct (mapM _ _) as [hands|]; simpl; split; intros [? ?]; (done || by eexists).
Qed.

Lemma findWinners_solved (allCards : list (list Card)) :
  Forall (λ cards, is_Some (solve (cardsToNotation cards))) allCards →
  is_Some (findWinners solve winners allCards).
Proof.
  intros Hall.
  destruct (decide (2 ≤ length allCards)%nat) as [Htwo|Hfew];
    [by apply findWinners_returns|].
  unfold findWinners.
  destruct (Nat.eqb_spec (length allCards) 0) as [?|?]; [by eexists|].
  destruct (Nat.eqb_spec (length allCards) 1) as [?|?]; [by eexists|lia].
Qed.

Lemma determineWinners_after_findWinners (playerCards : list (string * list Card))
    (communityCards : list Card) :
  is_Some (determineWinners solve winners playerCards communityCards)
  ↔ is_Some (findWinners solve winners
               (map (λ pc, snd pc ++ communityCards) playerCards)).
Proof.
  unfold determineWinners.
  destruct (findWinners _ _ _) as [winnerIndices|] eqn:Hfind; simpl.
  - split; [by eexists|]. intros _. apply mapM_is_Some.
    eapply Forall_impl; [by apply findWinners_in_range in Hfind|]. simpl.
    intros i Hi. rewrite length_map in Hi.
    destruct (lookup_lt_is_Some_2 playerCards i Hi) as [pc ->]. by eexists.
  - split; intros [? ?]; done.
Qed.

Lemma determineWinners_returns (playerCards : list (string * list Card))
    (communityCards : list Card) :
  Forall (λ pc, is_Some (solve (cardsToNotation (snd pc ++ communityCards))))
         playerCards →
  is_Some (determineWinners solve winners playerCards communityCards).
Proof.
  intros Hall. apply determineWinners_after_findWinners, findWinners_solved.
  apply Forall_forall. intros cards Hcards.
  apply list_elem_of_fmap in Hcards as (pc & -> & Hpc).
  rewrite Forall_forall in Hall. by apply Hall.
Qed.

(** X28: [determineWinners] and the solver. For no players it returns no
    winner and for a single player that player, without calling the solver.
    For two players or more it returns exactly when the solver answers for
    every player's hand (hole cards and board), and throws when the solver
    throws on one. Whenever it returns, it names only players whose cards it
    was given. *)
Theorem determineWinners_names_players (playerCards : list (string * list Card))
    (communityCards : list Card) :
  (playerCards = [] →
   determineWinners solve winners playerCards communityCards = Some []) ∧
  (∀ pc, playerCards = [pc] →
         determineWinners solve winners playerCards communityCards = Some [fst pc]) ∧
  ((2 ≤ length playerCards)%nat →
   is_Some (determineWinners solve winners playerCards communityCards)
   ↔ Forall (λ pc, is_Some (solve (cardsToNotation (snd pc ++ communityCards))))
            playerCards) ∧
  (∀ winnerIds,
     determineWinners solve winners playerCards communityCards = Some winnerIds →
     winnerIds ⊆ map fst playerCards).
Proof.
  split; [by intros ->|]. split; [by intros pc ->|]. split.
  - intros Htwo. split; [|apply determineWinners_returns].
    intros Hsome. apply determineWinners_after_findWinners in Hsome.
    apply findWinners_returns in Hsome; [|by rewrite length_map].
    apply Forall_forall. intros pc Hpc. rewrite Forall_forall in Hsome.
    apply (Hsome (snd pc ++ communityCards)).
    apply list_elem_of_fmap. by exists pc.
  - intros winnerIds Hdet i Hi. unfold determineWinners in Hdet.
    destruct (findWinners _ _ _) as [winnerIndices|]; [|done]. simpl in Hdet.
    apply mapM_Some in Hdet.
    apply list_elem_of_lookup in Hi as [k Hk].
    destruct (Forall2_lookup_r _ _ _ _ _ Hdet Hk) as (j & _ & Hj).
    destruct (playerCards !! j) as [pc|] eqn:Hpc; [|done]. injection Hj as <-.
    apply list_elem_of_fmap. exists pc. split; [done|].
    by eapply list_elem_of_lookup_2.
Qed.

Variable handName : Hand → string.
Variable handRank : Hand → Z.

Lemma evaluateHand_returns (cards : list Card) :
  is_Some (evaluateHand handName handRank solve cards)
  ↔ (5 ≤ length cards ≤ 7)%nat ∧ is_Some (solve (cardsToNotation cards)).
Proof.
  unfold evaluateHand.
  destruct (Nat.ltb_spec (length cards) 5), (Nat.ltb_spec 7 (length cards)); simpl;
    try (split; [by intros [? ?]|intros [? _]; lia]).
  destruct (solve (cardsToNotation cards)) as [result|]; simpl.
  - split; [intros _; split; [lia|by eexists]|by eexists].
  - split; [by intros [? ?]|by intros [_ [? ?]]].
Qed.

Lemma evaluateHand_cards (cards : list Card) (evaluation : HandEvaluation.t) :
  evaluateHand handName handRank solve cards = Some evaluation →
  is_Some (solve (cardsToNotation cards)).
Proof.
  intros Heval. apply (proj1 (evaluateHand_returns cards)). by eexists.
Qed.

Lemma winnersLoop_returns (communityCards : list Card)
    (handEvaluations : list (Player.t * HandEvaluation.t)) (pots : list Pot.t) :
  Forall (λ h, is_Some (solve (cardsToNotation
                                 (Player.holeCards (fst h) ++ communityCards))))
         handEvaluations →
  ∀ (potIndex : nat) (winnersByPot : gmap nat (list string)),
    is_Some (winnersLoop solve winners potIndex pots handEvaluations communityCards
               winnersByPot).
Proof.
  intros Hsolved.
  induction pots as [|pot pots IH]; intros potIndex winnersByPot; simpl;
    [by eexists|].
  destruct (_ =? 0)%nat; [apply IH|].
  destruct (determineWinners_returns
              (map (λ h : Player.t * HandEvaluation.t,
                      (Player.id h.1, Player.holeCards h.1))
                   (filter (λ h : Player.t * HandEvaluation.t,
                              Player.id h.1 ∈ Pot.eligiblePlayerIds pot)
                           handEvaluations))
              communityCards) as [winnerIds ->].
  { apply Forall_forall. intros pc Hpc.
    apply list_elem_of_fmap in Hpc as (h & -> & Hh).
    apply list_elem_of_filter in Hh as [_ Hh]. simpl.
    rewrite Forall_forall in Hsolved. by apply Hsolved. }
  simpl. apply IH.
Qed.

(** X29: When the hand is not won by a fold, [runShowdown] returns exactly
    when every player still in the hand has five to seven cards to show with
    the board and the solver answers for those cards; it throws otherwise,
    on a showdown before the flop is dealt as on a hand the solver rejects. *)
Theorem runShowdown_returns (state : GameState.t) :
  length (filter (λ p, Player.folded p = false) (GameState.players state)) ≠ 1%nat →
  is_Some (runShowdown handName handRank solve winners state)
  ↔ Forall (λ p, Player.folded p = false →
                 (5 ≤ length (Player.holeCards p ++ GameState.communityCards state)
                  ≤ 7)%nat ∧
                 is_Some (solve (cardsToNotation
                                   (Player.holeCards p
                                    ++ GameState.communityCards state))))
           (GameState.players state).
Proof.
  intros Hcount.
  set (evaluate := λ player : Player.t,
         evaluation ←
           evaluateHand handName handRank solve
             (Player.holeCards player ++ GameState.communityCards state);
         Some (player, evaluation)).
  assert (Hgeneral :
    is_Some (
      handEvaluations ←
        mapM evaluate
             (filter (λ p, Player.folded p = false) (GameState.players state));
      winnersByPot ←
        winnersLoop solve winners 0 (calculateSidePots (GameState.players state))
          handEvaluations (GameState.communityCards state) ∅;
      Some (handEvaluations, winnersByPot))
    ↔ Forall (λ p, Player.folded p = false →
                   (5 ≤ length (Player.holeCards p ++ GameState.communityCards state)
                    ≤ 7)%nat ∧
                   is_Some (solve (cardsToNotation
                                     (Player.holeCards p
                                      ++ GameState.communityCards state))))
             (GameState.players state)).
  { rewrite Forall_forall. split.
    - intros Hsome p Hp Hfolded.
      destruct (mapM _ _) as [handEvaluations|] eqn:Hevals in Hsome;
        [|by destruct Hsome].
      assert (is_Some (mapM evaluate
                (filter (λ p, Player.folded p = false) (GameState.players state))))
        as Hall by (by eexists).
      apply mapM_is_Some in Hall. rewrite Forall_forall in Hall.
      assert (p ∈ filter (λ p, Player.folded p = false) (GameState.players state))
        as Hactive by (by apply list_elem_of_filter).
      specialize (Hall p Hactive). unfold compose, evaluate in Hall.
      apply evaluateHand_returns.
      destruct (evaluateHand _ _ _ _); [by eexists|].
      simpl in Hall. by destruct Hall as [? Hnone].
    - intros Hall.
      destruct (mapM evaluate
                  (filter (λ p, Player.folded p = false) (GameState.players state)))
        as [handEvaluations|] eqn:Hevals.
      + simpl.
        destruct (winnersLoop_returns (GameState.communityCards state)
                    handEvaluations (calculateSidePots (GameState.players state)))
          with (potIndex := 0%nat) (winnersByPot := (∅ : gmap nat (list string)))
          as [winnersByPot ->]; [|by eexists].
        apply mapM_Some in Hevals. apply Forall_forall. intros h Hh.
        apply list_elem_of_lookup in Hh as [k Hk].
        destruct (Forall2_lookup_r _ _ _ _ _ Hevals Hk) as (p & _ & Hp).
        unfold evaluate in Hp.
        destruct (evaluateHand _ _ _ _) as [evaluation|] eqn:Heval; [|done].
        simpl in Hp. injection Hp as <-. simpl.
        by eapply evaluateHand_cards.
      + exfalso. apply eq_None_not_Some in Hevals. apply Hevals.
        apply mapM_is_Some, Forall_forall. intros p Hp.
        apply list_elem_of_filter in Hp as [Hfolded Hp]. unfold compose, evaluate.
        destruct (proj2 (evaluateHand_returns
                           (Player.holeCards p ++ GameState.communityCards state))
                        (Hall p Hp Hfolded)) as [evaluation ->].
        by eexists. }
  rewrite <- Hgeneral. unfold runShowdown. fold evaluate.
  destruct (filter _ _) as [|p1 [|p2 rest]]; [|by destruct Hcount|];
    (destruct (mapM _ _) as [handEvaluations|]; simpl;
     [destruct (winnersLoop _ _ _ _ _ _ _) as [winnersByPot|]; simpl|];
     split; intros [? ?]; (done || by eexists)).
Qed.
End Winners.

Lemma filter_length_two {A} (P : A → Prop) `{!∀ x, Decision (P x)} (l : list A)
    (i j : nat) (x y : A) :
  i ≠ j → l !! i = Some x → l !! j = Some y → P x → P y →
  (2 ≤ length (filter P l))%nat.
Proof.
  revert i j. induction l as [|a l IH]; intros i j Hij Hi Hj Hx Hy; [done|].
  assert (Hone : ∀ k z, l !! k = Some z → P z → (1 ≤ length (filter P l))%nat).
  { intros k z Hk Hz.
    assert (Hin : z ∈ filter P l).
    { apply list_elem_of_filter. split; [done|]. by eapply list_elem_of_lookup_2. }
    destruct (filter P l); [|simpl; lia].
    pose proof (not_elem_of_nil z). tauto. }
  destruct i as [|i], j as [|j]; simpl in Hi, Hj; [done| | |].
  - injection Hi as ->. rewrite filter_cons_True by done. simpl.
    pose proof (Hone j y Hj Hy). lia.
  - injection Hj as ->. rewrite filter_cons_True by done. simpl.
    pose proof (Hone i x Hi Hx). lia.
  - assert (2 ≤ length (filter P l))%nat by (eapply (IH i j); eauto).
    rewrite filter_cons. destruct (decide (P a)); simpl; lia.
Qed.

(** X20: A raise reopens the betting. When [applyAction] carries out a raise (the
    raise count went up) on a street with a positive bet size, made by a
    player who has not folded, and another player who has not folded and is
    not all-in had bet no more than the bet to match, then afterwards the
    betting round is not complete and the phase must not advance: that
    player still has to answer the raise. *)
Theorem raise_reopens_betting (s s' : GameState.t) (playerId : string)
    (amount : option Z) (player other : Player.t) (j : nat) :
  applyAction s playerId (PlayerAction.mk raise amount) = Some s' →
  GameState.raisesThisStreet s' = GameState.raisesThisStreet s + 1 →
  0 < GameState.streetBetSize s →
  lookupZ (GameState.players s) (GameState.activePlayerIndex s) = Some player →
  Player.folded player = false →
  GameState.players s !! j = Some other →
  j ≠ Z.to_nat (GameState.activePlayerIndex s) →
  Player.folded other = false → Player.allIn other = false →
  Player.currentBet other ≤ GameState.currentBet s →
  isBettingRoundComplete s' = Some false ∧ shouldAdvancePhase s' = Some false.
Proof.
  intros Hrun Hraises Hsize Hplayer Hin Hother Hj Hfolded Hallin Hbet.
  pose proof (lookupZ_Some_range _ _ _ Hplayer) as Hrange.
  unfold applyAction in Hrun.
  destruct (_ || _) eqn:Hguard in Hrun; [injection Hrun as <-; lia|].
  apply orb_false_iff in Hguard as [_ Hturn].
  apply negb_false_iff, Z.eqb_eq in Hturn. rewrite Hturn, Hplayer in Hrun.
  simpl in Hrun.
  set (owed := Z.max 0 (GameState.currentBet s - Player.currentBet player)
               + GameState.streetBetSize s) in *.
  destruct (Player.chips player <? owed); [injection Hrun as <-; lia|].
  destruct (addToMainPot (GameState.pots s) owed) as [pots|]; [|done].
  simpl in Hrun.
  set (players := <[Z.to_nat (GameState.activePlayerIndex s) := commitChips player owed]>
                    (GameState.players s)) in *.
  destruct (getNextActivePlayerIndex players (GameState.activePlayerIndex s) false)
    as [next|]; [|done].
  injection Hrun as <-.
  assert (Hother' : players !! j = Some other).
  { unfold players. by rewrite list_lookup_insert_ne. }
  assert (Hraised : players !! Z.to_nat (GameState.activePlayerIndex s)
                    = Some (commitChips player owed)).
  { unfold players. apply list_lookup_insert_eq. lia. }
  assert (Htwo : (2 ≤ length (filter (λ p, Player.folded p = false) players))%nat).
  { by eapply (filter_length_two _ players j _ other (commitChips player owed)). }
  assert (Hact : other ∈ filter (λ p, Player.folded p = false) players).
  { apply list_elem_of_filter. split; [done|]. by eapply list_elem_of_lookup_2. }
  assert (Hcomplete :
    isBettingRoundComplete
      (GameState.mk (GameState.phase s) players (GameState.communityCards s) pots
         (Player.currentBet (commitChips player owed)) (GameState.dealerIndex s) next
         (GameState.activePlayerIndex s) (GameState.raisesThisStreet s + 1)
         (GameState.deck s) (GameState.smallBlind s) (GameState.bigBlind s)
         (GameState.streetBetSize s)) = Some false).
  { unfold isBettingRoundComplete. cbn [GameState.players GameState.currentBet].
    destruct (Nat.leb_spec
                (length (filter (λ p, Player.folded p = false) players)) 1) as [?|_];
      [lia|].
    destruct (Nat.eqb_spec
                (length (filter (λ p, Player.allIn p = false)
                           (filter (λ p, Player.folded p = false) players))) 0)
      as [Hnone|_].
    { assert (Hacting : other ∈ filter (λ p, Player.allIn p = false)
                                  (filter (λ p, Player.folded p = false) players)).
      { by apply list_elem_of_filter. }
      destruct (filter (λ p, Player.allIn p = false) _); [|done].
      pose proof (not_elem_of_nil other). tauto. }
    assert (Hexists :
      existsb (λ p, negb (Player.allIn p)
                    && (Player.currentBet p <? Player.currentBet (commitChips player owed)))
              (filter (λ p, Player.folded p = false) players) = true).
    { apply existsb_exists. exists other. split; [by apply list_elem_of_In|].
      rewrite Hallin. simpl. apply Z.ltb_lt. unfold owed. lia. }
    by rewrite Hexists. }
  split; [done|]. unfold shouldAdvancePhase, countActivePlayers.
  cbn [GameState.players].
  destruct (Nat.leb_spec
              (length (filter (λ p, Player.folded p = false) players)) 1) as [?|_];
    [lia|done].
Qed.

Lemma raise_reopens_betting_witness :
  let s := default (seated []) (startNewHand createDeck (seated [Alice; Bob])) in
  let s' := default s (applyAction s "p2" (act raise)) in
  GameState.raisesThisStreet s' = 1 ∧
  isBettingRoundComplete s' = Some false ∧ shouldAdvancePhase s' = Some false.
Proof.
  intros s s'. split; [by vm_compute|].
  apply (raise_reopens_betting s s' "p2" None
           (default Alice (lookupZ (GameState.players s) 1))
           (default Alice (GameState.players s !! 0%nat)) 0);
    try (by vm_compute); vm_compute; lia.
Defined.

(** ** side-pots.ts: needsSidePots against calculateSidePots *)

Lemma uniq_fresh (l seen : list Z) :
  NoDup (uniq seen l) ∧ ∀ x, x ∈ uniq seen l → (x ∉ seen) ∧ x ∈ l.
Proof.
  revert seen. induction l as [|y l IH]; intros seen; simpl.
  - split; [constructor|]. intros x Hx. pose proof (not_elem_of_nil x). tauto.
  - case_bool_decide as Hseen.
    + destruct (IH seen) as [Hnd Hin]. split; [done|].
      intros x Hx. destruct (Hin x Hx). split; [done|by right].
    + destruct (IH (y :: seen)) as [Hnd Hin]. split.
      * apply NoDup_cons. split; [|done]. intros Hy.
        destruct (Hin y Hy) as [Hfresh _]. apply Hfresh. by left.
      * intros x Hx. apply elem_of_cons in Hx as [->|Hx]; [split; [done|by left]|].
        destruct (Hin x Hx) as [Hfresh Hl]. split; [|by right].
        intros Hs. apply Hfresh. by right.
Qed.

Lemma sorted_NoDup_strict (l : list Z) :
  StronglySorted Z.le l → NoDup l → StronglySorted Z.lt l.
Proof.
  induction 1 as [|x l Hl IH Hx]; intros Hnd; [constructor|].
  apply NoDup_cons in Hnd as [Hfresh Hnd]. constructor; [by apply IH|].
  apply Forall_forall. intros y Hy. rewrite Forall_forall in Hx.
  pose proof (Hx y Hy). assert (x ≠ y) by (by intros ->). lia.
Qed.

Lemma betLevels_ascending (players : list Player.t) :
  StronglySorted Z.lt (0 :: betLevels players).
Proof.
  unfold betLevels.
  set (bets := filter (λ bet, 0 < bet) (map Player.totalBetThisHand players)).
  destruct (uniq_fresh bets []) as [Hnd Hin]. constructor.
  - apply sorted_NoDup_strict.
    + apply (sortBy_sorted (λ b : Z, b)).
    + by rewrite sortBy_Permutation.
  - apply Forall_forall. intros x Hx. apply elem_of_sortBy in Hx.
    destruct (Hin x Hx) as [_ Hbet]. by apply list_elem_of_filter in Hbet as [? _].
Qed.

Lemma sumZ_elem_le (l : list Z) (y : Z) :
  Forall (λ x, 0 ≤ x) l → y ∈ l → y ≤ sumZ l.
Proof.
  induction 1 as [|x l Hx Hl IH]; intros Hy.
  - pose proof (not_elem_of_nil y). tauto.
  - simpl. assert (0 ≤ sumZ l).
    { clear -Hl. induction Hl; simpl; [done|]. unfold sumZ in *. simpl. lia. }
    apply elem_of_cons in Hy as [->|Hy]; [unfold sumZ in *; simpl; lia|].
    specialize (IH Hy). unfold sumZ in *. simpl. lia.
Qed.

Lemma addToLast_length (x : Z) (pots : list Pot.t) :
  length (addToLast x pots) = length pots.
Proof.
  induction pots as [|p [|q pots] IH]; simpl in *; [done..|]. by rewrite IH.
Qed.

Section ContestedLevels.
Context (players : list Player.t) (active : list (string * Z)).
Hypothesis active_from_players :
  ∀ level, level ∈ map snd active →
           ∃ p, p ∈ players ∧ Player.totalBetThisHand p = level.

Lemma levelStep_contested (pots : list Pot.t) (prev level : Z) :
  prev < level →
  let st := levelStep players active (pots, prev) level in
  st.2 = level ∧
  (length pots ≤ length st.1)%nat ∧
  (level ∈ map snd active → length st.1 = S (length pots)).
Proof.
  intros Hlt. unfold levelStep.
  destruct (Z.leb_spec (level - prev) 0) as [?|_]; [lia|].
  destruct (_ && _ && _) eqn:Hlast; simpl.
  - rewrite addToLast_length. split; [done|]. split; [done|].
    intros Hin. exfalso.
    apply andb_true_iff in Hlast as [[_ Hnone]%andb_true_iff _].
    apply Nat.eqb_eq in Hnone.
    apply list_elem_of_fmap in Hin as (e & -> & He).
    assert (fst e ∈ map fst (filter (λ e', snd e ≤ snd e') active)) as Hel.
    { apply list_elem_of_fmap. exists e. split; [done|].
      apply list_elem_of_filter. split; [lia|done]. }
    destruct (map fst _); [|done]. pose proof (not_elem_of_nil (fst e)). tauto.
  - destruct (Z.ltb_spec 0 (levelAmount players prev (level - prev))) as [_|Hzero];
      simpl.
    + rewrite length_app. simpl. split; [done|]. split; lia.
    + split; [done|]. split; [done|]. intros Hin. exfalso.
      destruct (active_from_players level Hin) as (p & Hp & Htotal).
      rewrite levelAmount_sum in Hzero.
      assert (level - prev
              ≤ sumZ (map (λ p, Z.min (Z.max 0 (Player.totalBetThisHand p - prev))
                                      (level - prev)) players)); [|lia].
      apply sumZ_elem_le.
      * apply Forall_forall. intros x Hx.
        apply list_elem_of_fmap in Hx as (q & -> & _). lia.
      * apply list_elem_of_fmap. exists p. split; [lia|done].
Qed.

Lemma levelLoop_contested (levels : list Z) :
  ∀ (pots : list Pot.t) (prev : Z),
    StronglySorted Z.lt (prev :: levels) →
    (length pots + length (filter (λ level, level ∈ map snd active) levels)
     ≤ length (foldl (levelStep players active) (pots, prev) levels).1)%nat.
Proof.
  induction levels as [|level levels IH]; intros pots prev Hsorted; cbn [foldl].
  - simpl. lia.
  - apply StronglySorted_inv in Hsorted as [Htail Hprev].
    apply Forall_cons in Hprev as [Hlt _].
    destruct (levelStep_contested pots prev level Hlt) as (Hnext & Hgrow & Hnew).
    destruct (levelStep players active (pots, prev) level) as [pots' prev'].
    simpl in *. subst prev'. specialize (IH pots' level Htail).
    rewrite filter_cons. destruct (decide (level ∈ map snd active)) as [Hin|_].
    + specialize (Hnew Hin). simpl. lia.
    + lia.
Qed.
End ContestedLevels.

Lemma foldl_max_elem (bets : list Z) (bet : Z) : foldl Z.max bet bets ∈ bet :: bets.
Proof.
  revert bet. induction bets as [|b bets IH]; intros bet; simpl; [by left|].
  specialize (IH (Z.max bet b)). apply elem_of_cons in IH as [->|IH].
  - destruct (Z.max_spec bet b) as [[_ ->]|[_ ->]]; [right; by left|by left].
  - right. by right.
Qed.

Lemma needsSidePots_short_all_in (players : list Player.t) :
  needsSidePots players = true →
  ∃ p q, p ∈ players ∧ q ∈ players ∧
         Player.folded p = false ∧ Player.allIn p = true ∧
         Player.folded q = false ∧
         Player.totalBetThisHand p < Player.totalBetThisHand q.
Proof.
  unfold needsSidePots.
  set (activePlayers := filter (λ p, Player.folded p = false) players).
  destruct (_ <=? 1)%nat; [done|]. destruct (_ =? 0)%nat; [done|].
  destruct (map Player.totalBetThisHand activePlayers) as [|bet bets] eqn:Hbets;
    [done|].
  intros Hsome. apply existsb_exists in Hsome as (p & Hp & Hlt).
  apply list_elem_of_In, list_elem_of_filter in Hp as [Hallin Hp].
  apply list_elem_of_filter in Hp as [Hfolded Hp]. apply Z.ltb_lt in Hlt.
  pose proof (foldl_max_elem bets bet) as Hmax. rewrite <- Hbets in Hmax.
  apply list_elem_of_fmap in Hmax as (q & Hq & Hin).
  apply list_elem_of_filter in Hin as [Hqf Hin].
  exists p, q. repeat split; try done. by rewrite <- Hq.
Qed.

(** X22: When [needsSidePots] answers yes, [calculateSidePots] builds at least
    two pots, provided the all-in players still in the hand have put
    something in: the short all-in player and the player with the largest
    bet each open a pot of their own level. *)
Theorem needsSidePots_means_side_pots (players : list Player.t) :
  needsSidePots players = true →
  (∀ p, p ∈ players → Player.folded p = false → Player.allIn p = true →
        0 < Player.totalBetThisHand p) →
  (2 ≤ length (calculateSidePots players))%nat.
Proof.
  intros Hneeds Hpaid.
  destruct (needsSidePots_short_all_in players Hneeds)
    as (p & q & Hp & Hq & Hpf & Hpa & Hqf & Hlt).
  pose proof (Hpaid p Hp Hpf Hpa) as Hpos.
  assert (Hentry : ∀ r, r ∈ players → Player.folded r = false →
                        (Player.id r, Player.totalBetThisHand r) ∈ activeEntries players).
  { intros r Hr Hrf. apply elem_of_sortBy.
    apply list_elem_of_fmap. exists r. split; [done|].
    by apply list_elem_of_filter. }
  assert (Hlevel : ∀ r, r ∈ players → Player.folded r = false →
                        Player.totalBetThisHand r ∈ map snd (activeEntries players)).
  { intros r Hr Hrf. apply list_elem_of_fmap. eexists. split; [|by apply Hentry].
    done. }
  pose proof (levelLoop_contested players (activeEntries players)) as Hloop.
  specialize (Hloop ltac:(
    intros level Hin; apply list_elem_of_fmap in Hin as (e & -> & He);
    apply elem_of_sortBy in He; apply list_elem_of_fmap in He as (r & -> & Hr);
    apply list_elem_of_filter in Hr as [_ Hr]; by exists r)).
  specialize (Hloop (betLevels players) [] 0 (betLevels_ascending players)).
  assert (Htwo : (2 ≤ length (filter (λ level, level ∈ map snd (activeEntries players))
                                     (betLevels players)))%nat).
  { pose proof (betLevels_complete players p Hp Hpos) as Hpl.
    pose proof (betLevels_complete players q Hq ltac:(lia)) as Hql.
    apply list_elem_of_lookup in Hpl as [i Hi].
    apply list_elem_of_lookup in Hql as [j Hj].
    eapply (filter_length_two _ _ i j); [|exact Hi|exact Hj|by apply Hlevel..].
    intros ->. rewrite Hi in Hj. injection Hj as Heq. lia. }
  unfold calculateSidePots.
  destruct (Nat.eqb_spec (length (activeEntries players)) 0) as [Hnone|_].
  { specialize (Hentry p Hp Hpf). destruct (activeEntries players); [|done].
    pose proof (not_elem_of_nil (Player.id p, Player.totalBetThisHand p)). tauto. }
  destruct (foldl _ _ _) as [pots prev]. simpl in Hloop.
  destruct (Nat.eqb_spec (length pots) 0) as [Hzero|_]; lia.
Qed.

Lemma needsSidePots_means_side_pots_witness :
  (2 ≤ length (calculateSidePots
                 [samplePlayer "A" 0 50 false true;
                  samplePlayer "B" 50 100 false false;
                  samplePlayer "D" 80 20 true false]))%nat.
Proof.
  apply needsSidePots_means_side_pots; [by vm_compute|].
  intros p Hp Hf Ha.
  repeat (apply elem_of_cons in Hp as [->|Hp]); simpl in *; try done; try lia.
  pose proof (not_elem_of_nil p). tauto.
Defined.

Lemma runShowdown_returns_witness :
  let s := default (seated [])
             (run [NewHand createDeck; Act "p2" (act all_in); Act "p1" (act call)]
                  (seated [Alice; Bob])) in
  let showdown := runShowdown fst snd sampleSolve sampleWinners in
  showdown s = None ∧ is_Some (showdown (runOutBoard s)).
Proof.
  intros s showdown. split; [by vm_compute|].
  apply runShowdown_returns; [by vm_compute|].
  vm_compute. repeat constructor; (lia || by eexists).
Defined.

(** The solver's throw is the showdown's: with a card that lies on the
    board twice every hand has seven cards and [runShowdown] throws. *)
Example runShowdown_duplicate_card :
  let s := default (seated [])
             (run [NewHand createDeck; Act "p2" (act all_in); Act "p1" (act call)]
                  (seated [Alice; Bob])) in
  let board := [mkCard 2 spades; mkCard 2 spades; mkCard 3 hearts; mkCard 4 hearts;
                mkCard 5 hearts] in
  runShowdown fst snd sampleSolve sampleWinners
    (GameState.mk showdown (GameState.players s) board (GameState.pots s)
       (GameState.currentBet s) (GameState.dealerIndex s)
       (GameState.activePlayerIndex s) (GameState.lastRaiserIndex s)
       (GameState.raisesThisStreet s) [] (GameState.smallBlind s)
       (GameState.bigBlind s) (GameState.streetBetSize s))
  = None.
Proof. by vm_compute. Qed.
